(** * The block-placement puzzle of [src/pages/BlockGame.jsx]

    A shallow embedding of the game engine: the piece catalog, the 8x8 grid,
    [canPlace], [hasAnyMove], [startGame], [selectPiece], [drop],
    [clearLines] and the delayed clear callback.

    Conventions.
    - A JS number is a [Z]: every number the engine handles is an integer
      (indices, offsets, scores); the embedding is exact as long as scores
      stay below 2^53, where JS arithmetic on integers is exact.
    - [null] and [undefined] are both [None]; they are only ever tested for
      truthiness.
    - A colour is a [string]; a grid cell is [null] or a colour.
    - The game objects created by [startGame] live in a heap indexed by
      addresses, because the clear callback keeps a reference to the object
      that was current when it was scheduled. *)

From Stdlib Require Import ZifyBool.
From stdpp Require Import base numbers list list_numbers strings pretty gmap.

Local Open Scope Z_scope.

(** ** Results of fallible code

    [Fault] stands for a call that leaves the modelled fragment: the engine
    throws a TypeError (a property of [undefined] or [null] is read or
    written), or an array is written outside its current bounds. *)

Inductive result (A : Type) : Type :=
  | Ok (a : A)
  | Fault.
Arguments Ok {A} a.
Arguments Fault {A}.

#[global] Instance result_ret : MRet result := λ A a, Ok a.
#[global] Instance result_bind : MBind result := λ A B k m,
  match m with
  | Ok a => k a
  | Fault => Fault
  end.

(** A computation over a mutable object of type [S] that may fault. *)
Definition St (S A : Type) : Type := S → result (A * S).

#[global] Instance st_ret {S} : MRet (St S) := λ A a s, Ok (a, s).
#[global] Instance st_bind {S} : MBind (St S) := λ A B k m s,
  match m s with
  | Ok (a, s') => k a s'
  | Fault => Fault
  end.

(** ** Arrays

    [a[i]] for an integer [i]: [None] is [undefined]. *)
Definition zlookup {A} (l : list A) (i : Z) : option A :=
  if bool_decide (i < 0) then None else l !! Z.to_nat i.

(** [a[i] = x] for an index inside the array; a write outside the bounds is
    not represented. *)
Definition zinsert {A} (l : list A) (i : Z) (x : A) : result (list A) :=
  if bool_decide (0 ≤ i < Z.of_nat (length l)) then Ok (<[Z.to_nat i := x]> l)
  else Fault.

(** ** The catalog *)

Definition GRID_SIZE : Z := 8.

Record Piece : Type := mkPiece {
  cells : list (Z * Z);
  color : string
}.

#[global] Instance Piece_eq_dec : EqDecision Piece.
Proof. solve_decision. Defined.

Definition PIECES : list Piece := [
  mkPiece [(0,0)] "#f472b6";
  mkPiece [(0,0);(0,1)] "#4ade80";
  mkPiece [(0,0);(1,0)] "#4ade80";
  mkPiece [(0,0);(0,1);(0,2)] "#60a5fa";
  mkPiece [(0,0);(1,0);(2,0)] "#60a5fa";
  mkPiece [(0,0);(0,1);(0,2);(0,3)] "#22d3ee";
  mkPiece [(0,0);(1,0);(2,0);(3,0)] "#22d3ee";
  mkPiece [(0,0);(0,1);(0,2);(0,3);(0,4)] "#a3e635";
  mkPiece [(0,0);(1,0);(2,0);(3,0);(4,0)] "#a3e635";
  mkPiece [(0,0);(0,1);(1,0);(1,1)] "#fbbf24";
  mkPiece [(0,0);(0,1);(0,2);(1,0);(1,1);(1,2);(2,0);(2,1);(2,2)] "#fde047";
  mkPiece [(0,0);(0,1);(0,2);(1,0);(1,1);(1,2)] "#fb923c";
  mkPiece [(0,0);(0,1);(1,0);(1,1);(2,0);(2,1)] "#fb923c";
  mkPiece [(0,0);(1,0);(2,0);(2,1)] "#c084fc";
  mkPiece [(0,1);(1,1);(2,0);(2,1)] "#c084fc";
  mkPiece [(0,0);(0,1);(1,0);(2,0)] "#c084fc";
  mkPiece [(0,0);(0,1);(1,1);(2,1)] "#c084fc";
  mkPiece [(0,0);(0,1);(0,2);(1,1)] "#e879f9";
  mkPiece [(0,0);(1,0);(2,0);(1,1)] "#e879f9";
  mkPiece [(0,1);(0,2);(1,0);(1,1)] "#f87171";
  mkPiece [(0,0);(0,1);(1,1);(1,2)] "#f87171";
  mkPiece [(0,1);(1,0);(1,1);(1,2);(2,1)] "#38bdf8";
  mkPiece [(0,0);(0,1);(1,0)] "#34d399";
  mkPiece [(0,0);(0,1);(1,1)] "#34d399";
  mkPiece [(0,0);(1,0);(1,1)] "#34d399";
  mkPiece [(0,1);(1,0);(1,1)] "#34d399"
].

(** ** The grid *)

(** A cell: [null] ([None]) or the colour of the piece that filled it. *)
Abbreviation Cell := (option string).

(** JS truthiness of a cell value: [null], [undefined] and the empty string
    are falsy. *)
Definition truthy (v : Cell) : bool :=
  match v with
  | Some s => bool_decide (s ≠ "")
  | None => false
  end.

Abbreviation Grid := (list (list Cell)).

(** [Array.from({length: 8}, () => Array(8).fill(null))]: eight rows, each
    a fresh array, so that no two rows alias. *)
Definition makeGrid : Grid :=
  replicate (Z.to_nat GRID_SIZE) (replicate (Z.to_nat GRID_SIZE) None).

(** [grid[r][c]] as an expression: reading [c] of an absent row throws, an
    absent column reads as [undefined]. *)
Definition cellAt (grid : Grid) (r c : Z) : result Cell :=
  match zlookup grid r with
  | None => Fault
  | Some row => Ok (default None (zlookup row c))
  end.

(** The same read as a step of a computation that holds the grid. *)
Definition readCell (r c : Z) : St Grid Cell := λ grid,
  v ← cellAt grid r c; Ok (v, grid).

(** [grid[r][c] = v] *)
Definition writeCell (r c : Z) (v : Cell) : St Grid unit := λ grid,
  match zlookup grid r with
  | None => Fault
  | Some row => row' ← zinsert row c v;
                grid' ← zinsert grid r row';
                Ok (tt, grid')
  end.

(** ** Placement legality *)

(** The loop of [canPlace] over [piece.cells], with its early [return false]. *)
Fixpoint canPlace_cells (cs : list (Z * Z)) (sr sc : Z) : St Grid bool :=
  match cs with
  | [] => mret true
  | (dr, dc) :: rest =>
      let r := sr + dr in
      let c := sc + dc in
      if (r <? 0) || (r >=? GRID_SIZE) || (c <? 0) || (c >=? GRID_SIZE)
      then mret false
      else v ← readCell r c;
           if truthy v then mret false else canPlace_cells rest sr sc
  end.

(** [canPlace(grid, piece, sr, sc)]; the grid is passed by reference, so the
    call is a computation over it. *)
Definition canPlace (piece : Piece) (sr sc : Z) : St Grid bool :=
  canPlace_cells (cells piece) sr sc.

(** The anchors visited by [for r in 0..7] [for c in 0..7], in that order. *)
Definition anchors : list (Z * Z) :=
  r ← seqZ 0 GRID_SIZE; c ← seqZ 0 GRID_SIZE; [(r, c)].

(** The two inner loops of [hasAnyMove] for one piece: [true] as soon as one
    anchor is legal. *)
Fixpoint anyAnchor (p : Piece) (rcs : list (Z * Z)) : St Grid bool :=
  match rcs with
  | [] => mret false
  | (r, c) :: rest =>
      b ← canPlace p r c;
      if b : bool then mret true else anyAnchor p rest
  end.

(** [hasAnyMove(grid, pieces)]: empty slots are skipped. *)
Fixpoint hasAnyMove (pieces : list (option Piece)) : St Grid bool :=
  match pieces with
  | [] => mret false
  | None :: rest => hasAnyMove rest
  | Some p :: rest =>
      b ← anyAnchor p anchors;
      if b : bool then mret true else hasAnyMove rest
  end.

Arguments canPlace : simpl never.
Arguments hasAnyMove : simpl never.

(** ** Game objects *)

(** The text of [gameOverMsg] varies only with the final score and with the
    "new best" suffix; the message is kept as these two values. *)
Record GameOverMsg : Type := mkGameOverMsg {
  finalScore : Z;
  isNew : bool
}.

(** The object stored in [G.current]. *)
Record Game : Type := mkGame {
  grid : Grid;
  score : Z;
  linesCleared : Z;
  streak : Z;
  pieces : list (option Piece);
  selIdx : option Z;
  hoverR : option Z;
  hoverC : option Z;
  placing : bool;
  flashCells : gset Z;
  gameOverMsg : option GameOverMsg;
  comboText : string;
  best : Z
}.

(** The assignments [g.f = v], one per field the engine writes. *)
Definition set_grid (v : Grid) (g : Game) : Game :=
  mkGame v (score g) (linesCleared g) (streak g) (pieces g) (selIdx g) (hoverR g)
    (hoverC g) (placing g) (flashCells g) (gameOverMsg g) (comboText g) (best g).
Definition set_score (v : Z) (g : Game) : Game :=
  mkGame (grid g) v (linesCleared g) (streak g) (pieces g) (selIdx g) (hoverR g)
    (hoverC g) (placing g) (flashCells g) (gameOverMsg g) (comboText g) (best g).
Definition set_linesCleared (v : Z) (g : Game) : Game :=
  mkGame (grid g) (score g) v (streak g) (pieces g) (selIdx g) (hoverR g)
    (hoverC g) (placing g) (flashCells g) (gameOverMsg g) (comboText g) (best g).
Definition set_streak (v : Z) (g : Game) : Game :=
  mkGame (grid g) (score g) (linesCleared g) v (pieces g) (selIdx g) (hoverR g)
    (hoverC g) (placing g) (flashCells g) (gameOverMsg g) (comboText g) (best g).
Definition set_pieces (v : list (option Piece)) (g : Game) : Game :=
  mkGame (grid g) (score g) (linesCleared g) (streak g) v (selIdx g) (hoverR g)
    (hoverC g) (placing g) (flashCells g) (gameOverMsg g) (comboText g) (best g).
Definition set_selIdx (v : option Z) (g : Game) : Game :=
  mkGame (grid g) (score g) (linesCleared g) (streak g) (pieces g) v (hoverR g)
    (hoverC g) (placing g) (flashCells g) (gameOverMsg g) (comboText g) (best g).
Definition set_hover (vr vc : option Z) (g : Game) : Game :=
  mkGame (grid g) (score g) (linesCleared g) (streak g) (pieces g) (selIdx g) vr
    vc (placing g) (flashCells g) (gameOverMsg g) (comboText g) (best g).
Definition set_placing (v : bool) (g : Game) : Game :=
  mkGame (grid g) (score g) (linesCleared g) (streak g) (pieces g) (selIdx g)
    (hoverR g) (hoverC g) v (flashCells g) (gameOverMsg g) (comboText g) (best g).
Definition set_flashCells (v : gset Z) (g : Game) : Game :=
  mkGame (grid g) (score g) (linesCleared g) (streak g) (pieces g) (selIdx g)
    (hoverR g) (hoverC g) (placing g) v (gameOverMsg g) (comboText g) (best g).
Definition set_gameOverMsg (v : option GameOverMsg) (g : Game) : Game :=
  mkGame (grid g) (score g) (linesCleared g) (streak g) (pieces g) (selIdx g)
    (hoverR g) (hoverC g) (placing g) (flashCells g) v (comboText g) (best g).
Definition set_comboText (v : string) (g : Game) : Game :=
  mkGame (grid g) (score g) (linesCleared g) (streak g) (pieces g) (selIdx g)
    (hoverR g) (hoverC g) (placing g) (flashCells g) (gameOverMsg g) v (best g).
Definition set_best (v : Z) (g : Game) : Game :=
  mkGame (grid g) (score g) (linesCleared g) (streak g) (pieces g) (selIdx g)
    (hoverR g) (hoverC g) (placing g) (flashCells g) (gameOverMsg g) (comboText g) v.

(** ** The world around the game objects *)

(** A pending [setTimeout] callback of [clearLines]. Its closure holds the
    object [g] that was current when [drop] ran, the rows and columns found
    full, and [done], which refers to the same [g]. *)
Record Timer : Type := mkTimer {
  t_game : nat;
  t_rows : list Z;
  t_cols : list Z
}.

(** - [heap]: every game object allocated so far, by address;
    - [current]: [G.current];
    - [timers]: the scheduled clear callbacks that have not fired yet;
    - [storage]: the number held under ['bb_best'] in [localStorage], if any;
    - [drawn]: how many times [Math.random] has been called. *)
Record World : Type := mkWorld {
  heap : list Game;
  current : option nat;
  timers : list Timer;
  storage : option Z;
  drawn : nat
}.

(** The object behind a reference. A reference always denotes an allocated
    object; [Fault] is what the model answers for an address that was never
    allocated, which no reachable world holds (see [inv] below). *)
Definition getObj (a : nat) (w : World) : result Game :=
  match heap w !! a with
  | Some g => Ok g
  | None => Fault
  end.

(** The object at [a] after the mutations that turned it into [g]. *)
Definition setObj (a : nat) (g : Game) (w : World) : World :=
  mkWorld (<[a := g]> (heap w)) (current w) (timers w) (storage w) (drawn w).

Definition set_timers (ts : list Timer) (w : World) : World :=
  mkWorld (heap w) (current w) ts (storage w) (drawn w).

(** [localStorage.setItem('bb_best', v)] *)
Definition setItem (v : Z) (w : World) : World :=
  mkWorld (heap w) (current w) (timers w) (Some v) (drawn w).

(** ** Loops over the grid *)

(** [for (const [dr,dc] of p.cells) g.grid[r+dr][c+dc] = p.color] *)
Fixpoint fillCells (cs : list (Z * Z)) (r c : Z) (col : string) : St Grid unit :=
  match cs with
  | [] => mret tt
  | (dr, dc) :: rest =>
      _ ← writeCell (r + dr) (c + dc) (Some col);
      fillCells rest r c col
  end.

(** [g.grid[r].every(v => v)] *)
Definition rowFull (grid : Grid) (r : Z) : result bool :=
  match zlookup grid r with
  | None => Fault
  | Some row => Ok (forallb truthy row)
  end.

(** [g.grid.every(row => row[c])] *)
Definition colFull (grid : Grid) (c : Z) : bool :=
  forallb (λ row, truthy (default None (zlookup row c))) grid.

(** The first loop of [clearLines], over the rows [rs]: those found full, in
    increasing order. *)
Fixpoint fullRows (grid : Grid) (rs : list Z) : result (list Z) :=
  match rs with
  | [] => Ok []
  | r :: rest =>
      b ← rowFull grid r;
      l ← fullRows grid rest;
      Ok (if b : bool then r :: l else l)
  end.

(** The second loop, over the columns [cs]. *)
Definition fullCols (grid : Grid) (cs : list Z) : list Z :=
  filter (λ c, colFull grid c = true) cs.

(** The cells of the rows [rs], in the order the callback visits them. *)
Definition rowCells (rs : list Z) : list (Z * Z) :=
  r ← rs; c ← seqZ 0 GRID_SIZE; [(r, c)].

(** The cells of the columns [cs], in the order the callback visits them. *)
Definition colCells (cs : list Z) : list (Z * Z) :=
  c ← cs; r ← seqZ 0 GRID_SIZE; [(r, c)].

(** [g.grid[r][c] = null] for each cell of the list. *)
Fixpoint clearCells (rcs : list (Z * Z)) : St Grid unit :=
  match rcs with
  | [] => mret tt
  | (r, c) :: rest => _ ← writeCell r c None; clearCells rest
  end.

(** The set [toFlash] of keys [r*8+c]. *)
Definition toFlash (rows cols : list Z) : gset Z :=
  list_to_set ((λ rc, rc.1 * GRID_SIZE + rc.2) <$> (rowCells rows ++ colCells cols)).

Definition labels : list string :=
  [""; ""; "DOUBLE!"; "TRIPLE!"; "QUAD!"; "MEGA COMBO!"].

(** The banner text for a streak. *)
Definition comboLabel (s : Z) : string :=
  if s >? 1 then
    match zlookup labels (Z.min s (Z.of_nat (length labels) - 1)) with
    | Some l => if bool_decide (l ≠ "") then l else pretty s +:+ "√ó COMBO!"
    | None => pretty s +:+ "√ó COMBO!"
    end
  else "".

(** ** The tray *)

(** [pieces.every(x => !x)] *)
Definition allEmpty (ps : list (option Piece)) : bool :=
  forallb (λ x : option Piece, negb (bool_decide (is_Some x))) ps.

Arguments allEmpty : simpl never.

(** ** The engine *)

Section Engine.

(** [rnd n] is the index [Math.floor(Math.random() * PIECES.length)] computed
    by the [n]-th call of [randPiece]. *)
Variable rnd : nat → Z.

(** [randPiece()] at the [n]-th call: [PIECES[rnd n]]. *)
Definition randPiece (n : nat) : option Piece := zlookup PIECES (rnd n).

(** [[randPiece(), randPiece(), randPiece()]] and the count of calls. *)
Definition drawThree (w : World) : list (option Piece) * World :=
  let n := drawn w in
  ([randPiece n; randPiece (S n); randPiece (S (S n))],
   mkWorld (heap w) (current w) (timers w) (storage w) (S (S (S n)))).

(** [startGame]: a fresh object becomes [G.current]. The stored best score
    reads as 0 when the key is absent. *)
Definition startGame (w : World) : World :=
  let '(ps, w) := drawThree w in
  let g := mkGame makeGrid 0 0 0 ps None None None false ∅ None ""
             (default 0 (storage w)) in
  mkWorld (heap w ++ [g]) (Some (length (heap w))) (timers w) (storage w) (drawn w).

(** The Escape key handler. *)
Definition escape (w : World) : result World :=
  match current w with
  | None => Ok w
  | Some a => g ← getObj a w; Ok (setObj a (set_selIdx None g) w)
  end.

(** [onMouseEnter] of the cell [(r, c)]. *)
Definition mouseEnter (r c : Z) (w : World) : result World :=
  match current w with
  | None => Ok w
  | Some a =>
      g ← getObj a w;
      match selIdx g with
      | None => Ok w
      | Some _ => Ok (setObj a (set_hover (Some r) (Some c) g) w)
      end
  end.

(** [onMouseLeave] of the grid. *)
Definition mouseLeave (w : World) : result World :=
  match current w with
  | None => Ok w
  | Some a => g ← getObj a w; Ok (setObj a (set_hover None None g) w)
  end.

(** [selectPiece(idx)] *)
Definition selectPiece (idx : Z) (w : World) : result World :=
  match current w with
  | None => Ok w
  | Some a =>
      g ← getObj a w;
      match zlookup (pieces g) idx with
      | Some (Some _) =>
          let sel := if bool_decide (selIdx g = Some idx) then None else Some idx in
          Ok (setObj a (set_selIdx sel g) w)
      | _ => Ok w
      end
  end.

(** [if (g.score > g.best) { g.best = g.score;
    localStorage.setItem('bb_best', g.best) }], which the source repeats at
    each point where the score may have passed the best. *)
Definition saveBest (gw : Game * World) : Game * World :=
  let '(g, w) := gw in
  if score g >? best g then (set_best (score g) g, setItem (score g) w)
  else (g, w).

(** [if (g.pieces.every(x => !x)) g.pieces = [randPiece(), randPiece(),
    randPiece()]] *)
Definition refill (gw : Game * World) : Game * World :=
  let '(g, w) := gw in
  if allEmpty (pieces g)
  then let '(ps, w) := drawThree w in (set_pieces ps g, w)
  else (g, w).

(** The callback [done] that [drop] hands to [clearLines]; [a] is the address
    of the object [g] captured by the closure. *)
Definition done (a : nat) (w : World) : result World :=
  g ← getObj a w;
  let g := set_placing false g in
  let '(g, w) := refill (g, w) in
  let '(g, w) := saveBest (g, w) in
  '(any, grid') ← hasAnyMove (pieces g) (grid g);
  let g := set_grid grid' g in
  if any : bool then Ok (setObj a g w)
  else
    let '(g, w) := saveBest (g, w) in
    let new := (score g >=? best g) && (score g >? 0) in
    Ok (setObj a (set_gameOverMsg (Some (mkGameOverMsg (score g) new)) g) w).

(** [clearLines(done)] up to the point where it returns: either [done] has
    run, or a timer is pending. *)
Definition clearLines (a : nat) (w : World) : result World :=
  g ← getObj a w;
  rowsToClear ← fullRows (grid g) (seqZ 0 GRID_SIZE);
  let colsToClear := fullCols (grid g) (seqZ 0 GRID_SIZE) in
  let count := Z.of_nat (length rowsToClear) + Z.of_nat (length colsToClear) in
  if count =? 0 then
    done a (setObj a (set_comboText "" (set_streak 0 g)) w)
  else
    let g := set_streak (streak g + 1) g in
    let bonus := if streak g >? 1 then streak g else 1 in
    let pts := count * GRID_SIZE * 10 * bonus in
    let g := set_score (score g + pts) g in
    let g := set_linesCleared (linesCleared g + count) g in
    let '(g, w) := saveBest (g, w) in
    let g := set_comboText (comboLabel (streak g)) g in
    let g := set_flashCells (toFlash rowsToClear colsToClear) g in
    let w := setObj a g w in
    Ok (set_timers (timers w ++ [mkTimer a rowsToClear colsToClear]) w).

(** The part of [drop] between the legality test and [clearLines]: the
    placement itself, of the piece [p] held in slot [i]. *)
Definition place (p : Piece) (i : Z) (r c : Z) (g : Game) : result Game :=
  let g := set_placing true g in
  '(_, grid') ← fillCells (cells p) r c (color p) (grid g);
  let g := set_grid grid' g in
  let g := set_score (score g + Z.of_nat (length (cells p))) g in
  ps ← zinsert (pieces g) i None;
  let g := set_pieces ps g in
  Ok (set_selIdx None g).

(** [drop(r, c)]. When the selected slot holds no piece, [canPlace] reads
    [cells] of [null] and throws. *)
Definition drop (r c : Z) (w : World) : result World :=
  match current w with
  | None => Ok w
  | Some a =>
      g ← getObj a w;
      match placing g, selIdx g with
      | true, _ | _, None => Ok w
      | false, Some i =>
          match zlookup (pieces g) i with
          | Some (Some p) =>
              '(ok, grid') ← canPlace p r c (grid g);
              let g := set_grid grid' g in
              if negb ok then Ok (setObj a g w)
              else
                g ← place p i r c g;
                clearLines a (setObj a g w)
          | _ => Fault
          end
      end
  end.

(** The callback scheduled by [clearLines], for the [i]-th pending timer. *)
Definition timerFire (i : nat) (w : World) : result World :=
  match timers w !! i with
  | None => Ok w
  | Some t =>
      let w := set_timers (delete i (timers w)) w in
      g ← getObj (t_game t) w;
      '(_, grid1) ← clearCells (rowCells (t_rows t)) (grid g);
      '(_, grid2) ← clearCells (colCells (t_cols t)) grid1;
      let g := set_grid grid2 g in
      let g := set_flashCells ∅ g in
      let g := set_comboText "" g in
      done (t_game t) (setObj (t_game t) g w)
  end.

(** ** Runs of the engine

    The events are the handlers the component installs, plus the firing of a
    pending timer. The touch handlers add nothing: [touchmove] acts as
    [MouseEnter], and [touchend] is [Drop] followed by [MouseLeave]. The
    re-render that follows each handler reads the state and is not part of
    it. *)

Inductive Event : Type :=
  | StartGame
  | SelectPiece (idx : Z)
  | Drop (r c : Z)
  | Escape
  | MouseEnter (r c : Z)
  | MouseLeave
  | TimerFire (i : nat).

Definition step (e : Event) (w : World) : result World :=
  match e with
  | StartGame => Ok (startGame w)
  | SelectPiece idx => selectPiece idx w
  | Drop r c => drop r c w
  | Escape => escape w
  | MouseEnter r c => mouseEnter r c w
  | MouseLeave => mouseLeave w
  | TimerFire i => timerFire i w
  end.

(** The world after the events [es], in order. *)
Fixpoint run (es : list Event) (w : World) : result World :=
  match es with
  | [] => Ok w
  | e :: rest => w' ← step e w; run rest w'
  end.

(** Before the component mounts: [G.current] is [null]; [st] is whatever an
    earlier session left in the store. *)
Definition initWorld (st : option Z) : World := mkWorld [] None [] st 0.

Inductive reachable : World → Prop :=
  | reach_init st : reachable (initWorld st)
  | reach_step e w w' : reachable w → step e w = Ok w' → reachable w'.

End Engine.


(** ** A sample game

    The random source always answers 5, the horizontal bar of four cells.
    Two bars dropped at (0,0) and (0,4) complete row 0. *)

Definition bars : nat → Z := λ _, 5.

Definition bar4 : Piece := mkPiece [(0,0);(0,1);(0,2);(0,3)] "#22d3ee".

(** Row 0 with its first [n] cells filled by bars, over seven empty rows. *)
Definition demoGrid (n : nat) : Grid :=
  (replicate n (Some "#22d3ee") ++ replicate (8 - n) None)
  :: replicate 7 (replicate 8 None).

Definition demoGame (n : nat) (ps : list (option Piece)) (sel : option Z)
    (pl : bool) (sc bst : Z) : Game :=
  mkGame (demoGrid n) sc 0 0 ps sel None None pl ∅ None "" bst.

Definition demoWorld (g : Game) (st : option Z) : World :=
  mkWorld [g] (Some 0%nat) [] st 3.

(** After [StartGame; SelectPiece 0]. *)
Definition firstSelected : World :=
  demoWorld (demoGame 0 [Some bar4; Some bar4; Some bar4] (Some 0) false 0 0)
    None.

(** After [Drop 0 0; SelectPiece 1] more. *)
Definition secondSelected : World :=
  demoWorld (demoGame 4 [None; Some bar4; Some bar4] (Some 1) false 4 4)
    (Some 4).

(** The second bar placed at (0,4), before the clear step has looked. *)
Definition rowPlaced : World :=
  demoWorld (demoGame 8 [None; None; Some bar4] None true 8 4) (Some 4).

(** After [Drop 0 4]: row 0 flashes and its clear is scheduled. *)
Definition clearPending : World :=
  mkWorld
    [mkGame (demoGrid 8) 88 1 1 [None; None; Some bar4] None None None true
       (list_to_set (seqZ 0 8)) None "" 88]
    (Some 0%nat) [mkTimer 0 [0] []] (Some 88) 3.

(** ** Vocabulary of the statements *)

(** The cell at [(r, c)], empty outside the grid. *)
Definition cellOf (grid : Grid) (r c : Z) : Cell :=
  default None (zlookup grid r ≫= λ row, zlookup row c).

(** Every cell of row [r] is filled. *)
Definition rowFilled (grid : Grid) (r : Z) : Prop :=
  ∀ c, 0 ≤ c < GRID_SIZE → is_Some (cellOf grid r c).

(** Every cell of column [c] is filled. *)
Definition colFilled (grid : Grid) (c : Z) : Prop :=
  ∀ r, 0 ≤ r < GRID_SIZE → is_Some (cellOf grid r c).

(** Row and column indices of the board. *)
Definition onBoard (r c : Z) : Prop := 0 ≤ r < GRID_SIZE ∧ 0 ≤ c < GRID_SIZE.

(** The shape every grid of the game has: 8 rows of 8 cells, and no cell
    holds the empty string (all colours of the catalog are non-empty). *)
Definition wf_grid (grid : Grid) : Prop :=
  length grid = 8%nat ∧
  Forall (λ row, length row = 8%nat ∧ Forall (λ v, v ≠ Some "") row) grid.

#[global] Instance wf_grid_dec grid : Decision (wf_grid grid).
Proof. unfold wf_grid. apply _. Defined.

(** What the loop of [canPlace] decides for one offset. *)
Definition cellFree (grid : Grid) (sr sc : Z) (d : Z * Z) : bool :=
  let r := sr + d.1 in
  let c := sc + d.2 in
  negb ((r <? 0) || (r >=? GRID_SIZE) || (c <? 0) || (c >=? GRID_SIZE))
  && negb (truthy (cellOf grid r c)).

(** The verdict of [canPlace], as a function of the grid. *)
Definition legal (grid : Grid) (p : Piece) (sr sc : Z) : bool :=
  forallb (cellFree grid sr sc) (cells p).

(** The verdict of [hasAnyMove], as a function of the grid and the tray. *)
Definition movable (grid : Grid) (ps : list (option Piece)) : bool :=
  existsb (λ slot : option Piece,
    match slot with
    | Some p => existsb (λ rc : Z * Z, legal grid p rc.1 rc.2) anchors
    | None => false
    end) ps.

Arguments movable : simpl never.
Arguments legal : simpl never.

(** What holds of every shape of the catalog: it has a cell, its offsets are
    within [0, 8), some cell lies in row 0 and some in column 0 of the shape,
    no offset is listed twice, and the colour is not the empty string. *)
Definition shape_ok (p : Piece) : Prop :=
  cells p ≠ [] ∧
  Forall (λ d : Z * Z, (0 ≤ d.1 < GRID_SIZE) ∧ (0 ≤ d.2 < GRID_SIZE)) (cells p) ∧
  Exists (λ d : Z * Z, d.1 = 0) (cells p) ∧
  Exists (λ d : Z * Z, d.2 = 0) (cells p) ∧
  NoDup (cells p) ∧
  color p ≠ "".

#[global] Instance shape_ok_dec p : Decision (shape_ok p).
Proof. unfold shape_ok. apply _. Defined.

(** The cells of the board that are empty in [old] and filled in [new]. *)
Definition newlyFilled (old new : Grid) : list (Z * Z) :=
  filter (λ rc : Z * Z,
            cellOf old rc.1 rc.2 = None ∧ is_Some (cellOf new rc.1 rc.2))
         anchors.

(** ** Invariants of the reachable worlds *)

(** A game object as the engine keeps it: a well-formed grid, a tray of three
    slots holding catalog shapes, and a selection that points at a slot which
    still holds its shape. *)
Definition wf_game (g : Game) : Prop :=
  wf_grid (grid g) ∧
  length (pieces g) = 3%nat ∧
  (∀ p, Some p ∈ pieces g → p ∈ PIECES) ∧
  (∀ i, selIdx g = Some i → ∃ p, zlookup (pieces g) i = Some (Some p)).

(** The game-over message against the search: none while a placement is in
    flight; otherwise present exactly when no slot has a legal anchor. *)
Definition verdict_ok (g : Game) : Prop :=
  if placing g then gameOverMsg g = None
  else is_Some (gameOverMsg g) ↔ movable (grid g) (pieces g) = false.

(** A pending timer belongs to an allocated object that is placing, and its
    rows and columns are lines of the board. *)
Definition timer_ok (h : list Game) (t : Timer) : Prop :=
  (∃ g, h !! t_game t = Some g ∧ placing g = true) ∧
  (∀ r, r ∈ t_rows t → 0 ≤ r < GRID_SIZE) ∧
  (∀ c, c ∈ t_cols t → 0 ≤ c < GRID_SIZE).

Record inv (w : World) : Prop := mkInv {
  inv_games : ∀ a g, heap w !! a = Some g → wf_game g ∧ verdict_ok g;
  inv_current : ∀ a, current w = Some a → (a < length (heap w))%nat;
  inv_timers : ∀ t, t ∈ timers w → timer_ok (heap w) t;
  inv_nodup : NoDup (t_game <$> timers w)
}.

(** [fr a w w']: from [w] to [w'] only the object at [a] may have changed in
    the heap, no object was allocated, and [G.current] is the same. *)
Definition fr (a : nat) (w w' : World) : Prop :=
  current w' = current w ∧
  length (heap w') = length (heap w) ∧
  ∀ b, b ≠ a → heap w' !! b = heap w !! b.

(** ** What the component draws *)

(** [Math.max(...l)]; [None] is [-Infinity], the maximum of no number. *)
Definition maxOf (l : list Z) : option Z :=
  foldr (λ x acc, Some (match acc with Some m => Z.max x m | None => x end))
        None l.

(** The values [0, 1, ..., m] of a loop [for (let i=0; i<=m; i++)]; nothing
    when [m] is [-Infinity]. *)
Definition upTo (m : option Z) : list Z :=
  match m with
  | Some m => seqZ 0 (m + 1)
  | None => []
  end.

(** One [div] of [PieceMini]: its React key, and whether it is a cell of the
    shape, which decides its background. The box shadow, a function of the
    colour alone, is left out. *)
Record MiniCell : Type := mkMiniCell {
  mc_key : Z;
  mc_filled : bool;
  mc_background : string
}.

(** The element [PieceMini] returns: the [div]s in order, and the numbers of
    columns and rows of the CSS grid ([None] is [-Infinity]). *)
Record Mini : Type := mkMini {
  mini_cells : list MiniCell;
  mini_cols : option Z;
  mini_rows : option Z
}.

(** The positions visited by [for r in 0..maxR] [for c in 0..maxC]. *)
Definition miniPositions (p : Piece) : list (Z * Z) :=
  r ← upTo (maxOf ((cells p).*1)); c ← upTo (maxOf ((cells p).*2)); [(r, c)].

(** [piece.cells.some(([pr,pc]) => pr===r && pc===c)] *)
Definition inShape (p : Piece) (r c : Z) : bool :=
  existsb (λ d : Z * Z, (d.1 =? r) && (d.2 =? c)) (cells p).

(** [PieceMini({ piece })]; [None] is the [null] returned for an empty
    slot. *)
Definition PieceMini (piece : option Piece) : option Mini :=
  match piece with
  | None => None
  | Some p =>
      let cell (rc : Z * Z) :=
        let filled := inShape p rc.1 rc.2 in
        mkMiniCell (rc.1 * 10 + rc.2) filled
                   (if filled then color p else "transparent") in
      Some (mkMini (cell <$> miniPositions p)
                   (Z.succ <$> maxOf ((cells p).*2))
                   (Z.succ <$> maxOf ((cells p).*1)))
  end.

(** The [preview] map of the render: for a selected piece and a hovered
    cell, the keys of the shape's cells that fall on the board, each with the
    piece colour when the placement is legal and with ['bad'] otherwise. A
    later [set] of the same key replaces the earlier. [g.hoverC] enters the
    sums as a number, and a [null] there counts as 0. *)
Definition previewMap (g : Game) : result (gmap Z string) :=
  match selIdx g, hoverR g with
  | Some i, Some hr =>
      match zlookup (pieces g) i with
      | Some (Some p) =>
          let hc := default 0 (hoverC g) in
          '(ok, _) ← canPlace p hr hc (grid g);
          Ok (foldl (λ (m : gmap Z string) (d : Z * Z),
                       let r := hr + d.1 in
                       let c := hc + d.2 in
                       if (r >=? 0) && (r <? GRID_SIZE)
                          && (c >=? 0) && (c <? GRID_SIZE)
                       then <[r * GRID_SIZE + c :=
                                if ok : bool then color p else "bad"]> m
                       else m)
                    ∅ (cells p))
      | _ => Fault
      end
  | _, _ => Ok ∅
  end.

(** How a cell of the grid is drawn: the class added to ['bg-cell'] and the
    background colour, if any. *)
Inductive CellLook : Type :=
  | LookFlash
  | LookFilled (col : string)
  | LookBad
  | LookPreview (col : string)
  | LookPlain.

(** The body of the render loop for the cell [(r, c)]. *)
Definition cellLook (g : Game) (preview : gmap Z string) (r c : Z)
    : result CellLook :=
  let key := r * GRID_SIZE + c in
  filled ← cellAt (grid g) r c;
  let prev := preview !! key in
  if bool_decide (key ∈ flashCells g) then Ok LookFlash
  else if truthy filled then Ok (LookFilled (default "" filled))
  else
    match prev with
    | Some s =>
        if bool_decide (s ≠ "") then
          if bool_decide (s = "bad") then Ok LookBad else Ok (LookPreview s)
        else Ok LookPlain
    | None => Ok LookPlain
    end.

(** ** The touch listeners *)

Section Touch.

Variable rnd : nat → Z.

(** The [touchmove] listener. [pos] is the value of [cellFromTouch(e, el)],
    [None] for [null]; the listener does not ask for it when no object is
    current or no slot is selected. *)
Definition touchMove (pos : option (Z * Z)) (w : World) : result World :=
  match current w with
  | None => Ok w
  | Some a =>
      g ← getObj a w;
      match selIdx g with
      | None => Ok w
      | Some _ =>
          match pos with
          | Some (r, c) => Ok (setObj a (set_hover (Some r) (Some c) g) w)
          | None => Ok w
          end
      end
  end.

(** The [touchend] listener: [g] is the object current when the listener
    starts, and its hover cell is cleared after [drop] has run. *)
Definition touchEnd (pos : option (Z * Z)) (w : World) : result World :=
  match current w with
  | None => Ok w
  | Some a =>
      _ ← getObj a w;
      w1 ← match pos with
           | Some (r, c) => drop rnd r c w
           | None => Ok w
           end;
      g1 ← getObj a w1;
      Ok (setObj a (set_hover None None g1) w1)
  end.

End Touch.

(** ** The calls of [startGame] the component makes *)

Section Component.

Variable rnd : nat → Z.

(** [startGame] has two callers: the mount effect, which runs before any
    other handler (twice under [StrictMode], the second time on the fresh
    object of the first), and the Play Again button, which is rendered only
    while the current object has a game-over message. In each of these calls
    the current object, if there is one, is not placing. *)
Definition startGame_idle (w : World) : Prop :=
  match current w with
  | None => True
  | Some a => ∃ g, heap w !! a = Some g ∧ placing g = false
  end.

(** The worlds reached when [startGame] is called in such states only. *)
Inductive reachableIdle : World → Prop :=
  | idle_init st : reachableIdle (initWorld st)
  | idle_step e w w' :
      reachableIdle w →
      (e = StartGame → startGame_idle w) →
      step rnd e w = Ok w' →
      reachableIdle w'.

End Component.

(** ** Further invariants of the reachable worlds *)

(** A game object between placements: nothing flashes, no banner, the board
    holds no complete line, and the score has not passed the best score
    unless it is still 0. *)
Definition rest_ok (g : Game) : Prop :=
  flashCells g = ∅ ∧ comboText g = "" ∧
  (∀ r, 0 ≤ r < GRID_SIZE → ¬ rowFilled (grid g) r) ∧
  (∀ c, 0 ≤ c < GRID_SIZE → ¬ colFilled (grid g) c) ∧
  score g ≤ Z.max 0 (best g).

(** A game object during a placement: its clear callback is pending, holds
    exactly the complete rows and columns of the grid, the flashing keys are
    those of their cells, and the best score is up to date. *)
Definition pending_ok (ts : list Timer) (a : nat) (g : Game) : Prop :=
  ∃ t, t ∈ ts ∧ t_game t = a ∧
    flashCells g = toFlash (t_rows t) (t_cols t) ∧
    (∀ r, r ∈ t_rows t ↔ 0 ≤ r < GRID_SIZE ∧ rowFilled (grid g) r) ∧
    (∀ c, c ∈ t_cols t ↔ 0 ≤ c < GRID_SIZE ∧ colFilled (grid g) c) ∧
    (t_rows t ≠ [] ∨ t_cols t ≠ []) ∧
    score g ≤ best g.

Record inv2 (w : World) : Prop := mkInv2 {
  inv2_counts : ∀ a g, heap w !! a = Some g →
    0 ≤ score g ∧ 0 ≤ linesCleared g ∧ 0 ≤ streak g;
  inv2_state : ∀ a g, heap w !! a = Some g →
    if placing g then pending_ok (timers w) a g else rest_ok g;
  inv2_best : ∀ a g, current w = Some a → heap w !! a = Some g →
    best g = default 0 (storage w)
}.


(** ** More sample games *)

(** The first slot selected and the cell (0, [c]) hovered, in the sample
    game: after [StartGame; SelectPiece 0; MouseEnter 0 c]. *)
Definition hovering (c : Z) : World :=
  demoWorld
    (mkGame (demoGrid 0) 0 0 0 [Some bar4; Some bar4; Some bar4] (Some 0)
       (Some 0) (Some c) false ∅ None "" 0)
    None.

(** A game in which every draw is the 3 by 3 square. *)
Definition squares : nat → Z := λ _, 10.

Definition square9 : Piece :=
  mkPiece [(0,0);(0,1);(0,2);(1,0);(1,1);(1,2);(2,0);(2,1);(2,2)] "#fde047".

(** Four squares fill the rows and columns 0 to 5; no fifth one fits. *)
Definition blockingMoves : list Event :=
  [StartGame; SelectPiece 0; Drop 0 0; SelectPiece 1; Drop 0 3;
   SelectPiece 2; Drop 3 0; SelectPiece 0; Drop 3 3].

Definition blockedGrid : Grid :=
  replicate 6 (replicate 6 (Some "#fde047") ++ [None; None])
  ++ replicate 2 (replicate 8 None).

(** The object of that game after the fourth square, [msg] being its
    game-over message. *)
Definition blockedGame (msg : option GameOverMsg) : Game :=
  mkGame blockedGrid 36 0 0 [None; Some square9; Some square9] None None None
    false ∅ msg "" 36.

(** After [blockingMoves]. *)
Definition blockedWorld : World :=
  mkWorld [blockedGame (Some (mkGameOverMsg 36 true))] (Some 0%nat) []
    (Some 36) 6.
(** * Properties *)

(** ** Arrays and cells *)

Lemma zlookup_Some {A} (l : list A) i x :
  zlookup l i = Some x ↔ 0 ≤ i ∧ l !! Z.to_nat i = Some x.
Proof.
  unfold zlookup. case_bool_decide as Hi.
  - split; [done|]. intros [? _]. lia.
  - split; [intros; split; [lia|done]|tauto].
Qed.

Lemma zlookup_lt {A} (l : list A) i :
  0 ≤ i < Z.of_nat (length l) → is_Some (zlookup l i).
Proof.
  intros Hi. unfold zlookup. rewrite bool_decide_eq_false_2 by lia.
  apply lookup_lt_is_Some. lia.
Qed.

Lemma zlookup_None {A} (l : list A) i :
  zlookup l i = None ↔ i < 0 ∨ Z.of_nat (length l) ≤ i.
Proof.
  unfold zlookup. case_bool_decide; [naive_solver|].
  rewrite lookup_ge_None. lia.
Qed.

Lemma wf_grid_rows grid : wf_grid grid → length grid = 8%nat.
Proof. by intros [? _]. Qed.

Lemma wf_grid_lookup grid r :
  wf_grid grid → 0 ≤ r < GRID_SIZE →
  ∃ row, zlookup grid r = Some row ∧ length row = 8%nat ∧
         Forall (λ v, v ≠ Some "") row.
Proof.
  intros [Hlen Hrows] Hr. unfold GRID_SIZE in Hr.
  destruct (zlookup_lt grid r) as [row Hrow]; [lia|].
  exists row. split; [done|].
  apply zlookup_Some in Hrow as [_ Hrow].
  by eapply (Forall_lookup_1 _ _ _ _ Hrows) in Hrow.
Qed.

Lemma cellAt_cellOf grid r c :
  length grid = 8%nat → 0 ≤ r < GRID_SIZE →
  cellAt grid r c = Ok (cellOf grid r c).
Proof.
  intros Hlen Hr. unfold cellAt, cellOf, GRID_SIZE in *.
  destruct (zlookup_lt grid r) as [row ->]; [lia|]. done.
Qed.

Lemma truthy_cellOf grid r c :
  wf_grid grid → truthy (cellOf grid r c) = false ↔ cellOf grid r c = None.
Proof.
  intros [Hlen Hrows]. unfold cellOf.
  destruct (zlookup grid r) as [row|] eqn:Hrow; simpl; [|done].
  destruct (zlookup row c) as [v|] eqn:Hv; simpl; [|done].
  apply zlookup_Some in Hrow as [_ Hrow], Hv as [_ Hv].
  eapply (Forall_lookup_1 _ _ _ _ Hrows) in Hrow as [_ Hrow].
  eapply (Forall_lookup_1 _ _ _ _ Hrow) in Hv.
  destruct v as [s|]; simpl; [|done].
  rewrite bool_decide_eq_false. split; [|done]. intros Hs. destruct Hs.
  intros ->. done.
Qed.

(** ** [canPlace] *)

Lemma canPlace_cells_legal cs sr sc grid :
  length grid = 8%nat →
  canPlace_cells cs sr sc grid = Ok (forallb (cellFree grid sr sc) cs, grid).
Proof.
  intros Hlen. induction cs as [|[dr dc] cs IH]; [done|].
  cbn [canPlace_cells forallb]. unfold cellFree at 1. cbn [fst snd].
  destruct ((sr + dr <? 0) || (sr + dr >=? GRID_SIZE) || (sc + dc <? 0)
            || (sc + dc >=? GRID_SIZE)) eqn:Hb; [done|].
  unfold mbind, st_bind, readCell.
  rewrite cellAt_cellOf by (done || unfold GRID_SIZE in *; lia).
  cbn. destruct (truthy _); [done|]. apply IH.
Qed.

Lemma canPlace_legal p sr sc grid :
  length grid = 8%nat → canPlace p sr sc grid = Ok (legal grid p sr sc, grid).
Proof. apply canPlace_cells_legal. Qed.

Lemma cellFree_true grid sr sc d :
  wf_grid grid →
  cellFree grid sr sc d = true ↔
  onBoard (sr + d.1) (sc + d.2) ∧ cellOf grid (sr + d.1) (sc + d.2) = None.
Proof.
  intros Hwf. unfold cellFree, onBoard, GRID_SIZE.
  rewrite andb_true_iff, !negb_true_iff, truthy_cellOf by done.
  split; intros [? ?]; (split; [lia|done]).
Qed.

Lemma legal_true grid p sr sc :
  wf_grid grid →
  legal grid p sr sc = true ↔
  ∀ d, d ∈ cells p →
    onBoard (sr + d.1) (sc + d.2) ∧ cellOf grid (sr + d.1) (sc + d.2) = None.
Proof.
  intros Hwf. unfold legal. rewrite forallb_forall.
  split; intros H d Hd.
  - apply cellFree_true, H, list_elem_of_In, Hd. done.
  - apply cellFree_true, H, list_elem_of_In, Hd. done.
Qed.

(** C1. On every well-formed grid, [canPlace] returns, leaves the grid as it
    was, and answers [true] exactly when every offset of the shape lands on
    the board, on a cell that is empty. *)
Theorem canPlace_iff_all_free grid p sr sc :
  wf_grid grid →
  ∃ b, canPlace p sr sc grid = Ok (b, grid) ∧
       (b = true ↔
        ∀ dr dc, (dr, dc) ∈ cells p →
          0 ≤ sr + dr < 8 ∧ 0 ≤ sc + dc < 8 ∧
          cellOf grid (sr + dr) (sc + dc) = None).
Proof.
  intros Hwf. exists (legal grid p sr sc). split.
  - apply canPlace_legal, Hwf.
  - rewrite legal_true by done. unfold onBoard, GRID_SIZE. split.
    + intros H dr dc Hd. specialize (H _ Hd). simpl in H. tauto.
    + intros H [dr dc] Hd. specialize (H _ _ Hd). simpl. tauto.
Qed.

(** ** The catalog *)

Lemma catalog_ok : Forall shape_ok PIECES.
Proof. apply (bool_decide_unpack _). by vm_compute. Qed.

Lemma catalog_shape_ok p : p ∈ PIECES → shape_ok p.
Proof. intros Hp. by eapply (proj1 (Forall_forall _ _) catalog_ok). Qed.

(** A legal anchor of a shape that has a cell in its row 0 and a cell in its
    column 0 is itself on the board. *)
Lemma legal_anchor_onBoard grid p sr sc :
  shape_ok p → legal grid p sr sc = true → onBoard sr sc.
Proof.
  intros (_ & _ & Hr & Hc & _) Hl.
  unfold legal in Hl. rewrite forallb_forall in Hl.
  apply Exists_exists in Hr as (d1 & Hd1 & Hr).
  apply Exists_exists in Hc as (d2 & Hd2 & Hc).
  apply list_elem_of_In, Hl in Hd1. apply list_elem_of_In, Hl in Hd2.
  unfold cellFree, GRID_SIZE in *. rewrite Hr in Hd1. rewrite Hc in Hd2.
  unfold onBoard, GRID_SIZE. lia.
Qed.

Lemma makeGrid_wf : wf_grid makeGrid.
Proof.
  split; [done|]. apply Forall_forall. intros row Hrow.
  apply elem_of_replicate in Hrow as [-> _]. split; [done|].
  apply Forall_forall. intros v Hv. by apply elem_of_replicate in Hv as [-> _].
Qed.

(** ** [hasAnyMove] *)

Lemma elem_of_anchors r c : (r, c) ∈ anchors ↔ onBoard r c.
Proof.
  unfold anchors, onBoard. rewrite list_elem_of_bind. split.
  - intros (r' & Hc & Hr). apply list_elem_of_bind in Hc as (c' & Hrc & Hc).
    apply list_elem_of_singleton in Hrc. injection Hrc as -> ->.
    apply elem_of_seqZ in Hr, Hc. lia.
  - intros [Hr Hc]. exists r. split; [|apply elem_of_seqZ; lia].
    apply list_elem_of_bind. exists c. split; [by apply list_elem_of_singleton|].
    apply elem_of_seqZ. lia.
Qed.

Lemma anyAnchor_legal p rcs grid :
  length grid = 8%nat →
  anyAnchor p rcs grid
  = Ok (existsb (λ rc : Z * Z, legal grid p rc.1 rc.2) rcs, grid).
Proof.
  intros Hlen. induction rcs as [|[r c] rcs IH]; [done|].
  cbn [anyAnchor existsb fst snd]. unfold mbind, st_bind.
  rewrite canPlace_legal by done. destruct (legal grid p r c); [done|]. apply IH.
Qed.

Lemma hasAnyMove_movable ps grid :
  length grid = 8%nat → hasAnyMove ps grid = Ok (movable grid ps, grid).
Proof.
  intros Hlen. induction ps as [|[p|] ps IH]; [done| |by apply IH].
  unfold hasAnyMove; fold hasAnyMove. unfold movable. cbn [existsb].
  unfold mbind, st_bind.
  rewrite anyAnchor_legal by done. destruct (existsb _ anchors); [done|].
  apply IH.
Qed.

Lemma movable_true grid ps :
  movable grid ps = true ↔
  ∃ p r c, Some p ∈ ps ∧ onBoard r c ∧ legal grid p r c = true.
Proof.
  unfold movable. rewrite existsb_exists. split.
  - intros ([p|] & Hin & Hex); [|done].
    apply existsb_exists in Hex as ([r c] & Hrc & Hl).
    exists p, r, c. rewrite <- elem_of_anchors, !list_elem_of_In. done.
  - intros (p & r & c & Hin & Hrc & Hl). exists (Some p).
    split; [by apply list_elem_of_In|]. apply existsb_exists. exists (r, c).
    split; [|done]. by apply list_elem_of_In, elem_of_anchors.
Qed.

Lemma movable_false grid ps :
  movable grid ps = false ↔
  ∀ p r c, Some p ∈ ps → onBoard r c → legal grid p r c = false.
Proof.
  rewrite <- not_true_iff_false, movable_true. split.
  - intros Hno p r c Hin Hrc. apply not_true_iff_false. intros Hl.
    apply Hno. by exists p, r, c.
  - intros Hall (p & r & c & Hin & Hrc & Hl).
    rewrite (Hall p r c) in Hl by done. done.
Qed.

(** C10. Every shape of the catalog has a cell; its offsets are within
    [0, 8); some cell has row offset 0 and some cell has column offset 0, so
    the anchor is the top-left corner of the bounding box. Therefore an
    anchor at which [canPlace] succeeds is a cell of the board, and when the
    search over the anchors of the board finds nothing, [canPlace] fails at
    every anchor whatsoever. *)
Theorem catalog_anchor_is_corner p :
  p ∈ PIECES →
  (0 < length (cells p))%nat ∧
  (∀ dr dc, (dr, dc) ∈ cells p → 0 ≤ dr < 8 ∧ 0 ≤ dc < 8) ∧
  (∃ dc, (0, dc) ∈ cells p) ∧
  (∃ dr, (dr, 0) ∈ cells p) ∧
  (∀ grid sr sc, wf_grid grid → canPlace p sr sc grid = Ok (true, grid) →
     0 ≤ sr < 8 ∧ 0 ≤ sc < 8) ∧
  (∀ grid, wf_grid grid → anyAnchor p anchors grid = Ok (false, grid) →
     ∀ sr sc, canPlace p sr sc grid = Ok (false, grid)).
Proof.
  intros Hp. pose proof (catalog_shape_ok p Hp) as Hok.
  destruct Hok as (Hne & Hrange & Hr & Hc & Hnd & Hcol).
  split; [destruct (cells p); [done|simpl; lia]|].
  split.
  { intros dr dc Hd. by eapply (proj1 (Forall_forall _ _) Hrange) in Hd. }
  split.
  { apply Exists_exists in Hr as ([dr dc] & Hd & Hr). simpl in Hr. subst dr.
    by exists dc. }
  split.
  { apply Exists_exists in Hc as ([dr dc] & Hd & Hc). simpl in Hc. subst dc.
    by exists dr. }
  split.
  { intros grid sr sc Hwf Hcan.
    rewrite canPlace_legal in Hcan by apply Hwf.
    apply (legal_anchor_onBoard grid p);
      [by apply catalog_shape_ok|congruence]. }
  intros grid Hwf Hsearch sr sc.
  rewrite anyAnchor_legal in Hsearch by apply Hwf.
  rewrite canPlace_legal by apply Hwf.
  destruct (legal grid p sr sc) eqn:Hl; [|done].
  assert (Hon : onBoard sr sc).
  { by apply (legal_anchor_onBoard grid p); [apply catalog_shape_ok|]. }
  assert (Hex : existsb (λ rc : Z * Z, legal grid p rc.1 rc.2) anchors = true).
  { apply existsb_exists. exists (sr, sc). split; [|done].
    by apply list_elem_of_In, elem_of_anchors. }
  congruence.
Qed.

Lemma catalog_anchor_is_corner_witness :
  mkPiece [(0,1);(1,1);(2,0);(2,1)] "#c084fc" ∈ PIECES ∧
  wf_grid makeGrid ∧
  canPlace (mkPiece [(0,1);(1,1);(2,0);(2,1)] "#c084fc") 5 6 makeGrid
    = Ok (true, makeGrid) ∧
  0 ≤ 5 < 8 ∧ 0 ≤ 6 < 8.
Proof.
  assert (Hin : mkPiece [(0,1);(1,1);(2,0);(2,1)] "#c084fc" ∈ PIECES).
  { apply (bool_decide_unpack _). vm_compute. exact I. }
  split; [exact Hin|]. split; [exact makeGrid_wf|].
  split; [vm_compute; reflexivity|].
  exact (proj1 (proj2 (proj2 (proj2 (proj2 (catalog_anchor_is_corner _ Hin)))))
           makeGrid 5 6 makeGrid_wf eq_refl).
Defined.

(** ** Writing cells *)

Lemma zlookup_insert_eq {A} (l : list A) i x :
  0 ≤ i < Z.of_nat (length l) → zlookup (<[Z.to_nat i := x]> l) i = Some x.
Proof.
  intros Hi. unfold zlookup. rewrite bool_decide_eq_false_2 by lia.
  apply list_lookup_insert_eq. lia.
Qed.

Lemma zlookup_insert_ne {A} (l : list A) i j x :
  0 ≤ i → i ≠ j → zlookup (<[Z.to_nat i := x]> l) j = zlookup l j.
Proof.
  intros Hi Hij. unfold zlookup. case_bool_decide; [done|].
  apply list_lookup_insert_ne. lia.
Qed.

Lemma writeCell_spec grid r c v :
  wf_grid grid → onBoard r c → v ≠ Some "" →
  ∃ grid', writeCell r c v grid = Ok (tt, grid') ∧ wf_grid grid' ∧
    ∀ r' c', cellOf grid' r' c'
             = if bool_decide (r' = r ∧ c' = c) then v else cellOf grid r' c'.
Proof.
  intros Hwf [Hr Hc] Hv.
  destruct (wf_grid_lookup grid r Hwf Hr) as (row & Hrow & Hlen & Hcols).
  destruct Hwf as [Hrows Hall]. unfold GRID_SIZE in *.
  exists (<[Z.to_nat r := <[Z.to_nat c := v]> row]> grid).
  split; [|split; [split|]].
  - unfold writeCell, zinsert. rewrite Hrow.
    rewrite bool_decide_eq_true_2 by lia. cbn.
    rewrite bool_decide_eq_true_2 by lia. done.
  - by rewrite length_insert.
  - apply Forall_insert; [done|]. split; [by rewrite length_insert|].
    by apply Forall_insert.
  - intros r' c'. unfold cellOf. case_bool_decide as Heq.
    + destruct Heq as [-> ->].
      rewrite zlookup_insert_eq by lia. cbn.
      by rewrite zlookup_insert_eq by lia.
    + destruct (decide (r' = r)) as [->|Hne].
      * rewrite zlookup_insert_eq, Hrow by lia. cbn.
        rewrite zlookup_insert_ne by (lia || naive_solver). done.
      * rewrite zlookup_insert_ne by lia. done.
Qed.

Lemma fillCells_spec cs r c col grid :
  wf_grid grid → col ≠ "" →
  (∀ d, d ∈ cs → onBoard (r + d.1) (c + d.2)) →
  ∃ grid', fillCells cs r c col grid = Ok (tt, grid') ∧ wf_grid grid' ∧
    ∀ r' c', cellOf grid' r' c'
             = if bool_decide ((r' - r, c' - c) ∈ cs) then Some col
               else cellOf grid r' c'.
Proof.
  intros Hwf Hcol. revert grid Hwf.
  induction cs as [|[dr dc] cs IH]; intros grid Hwf Hon.
  - exists grid. split; [done|]. split; [done|]. intros r' c'.
    rewrite bool_decide_eq_false_2; [done|]. apply not_elem_of_nil.
  - destruct (writeCell_spec grid (r + dr) (c + dc) (Some col))
      as (grid1 & Hw & Hwf1 & Hcell1); [done| |congruence|].
    { apply (Hon (dr, dc)). left. }
    destruct (IH grid1 Hwf1) as (grid2 & Hf & Hwf2 & Hcell2).
    { intros d Hd. apply Hon. by right. }
    exists grid2. split; [|split; [done|]].
    + cbn [fillCells]. unfold mbind, st_bind. rewrite Hw. done.
    + intros r' c'. rewrite Hcell2, Hcell1.
      destruct (decide ((r' - r, c' - c) ∈ cs)) as [Hin|Hin].
      * rewrite !bool_decide_eq_true_2; [done| by right |done].
      * rewrite (bool_decide_eq_false_2 _ Hin).
        case_bool_decide as Heq.
        -- destruct Heq as [-> ->]. rewrite bool_decide_eq_true_2; [done|].
           replace (r + dr - r) with dr by lia.
           replace (c + dc - c) with dc by lia. left.
        -- rewrite bool_decide_eq_false_2; [done|].
           intros [Hd|Hd]%elem_of_cons; [|done].
           apply Heq. injection Hd as <- <-. lia.
Qed.

Lemma clearCells_spec rcs grid :
  wf_grid grid →
  (∀ rc, rc ∈ rcs → onBoard rc.1 rc.2) →
  ∃ grid', clearCells rcs grid = Ok (tt, grid') ∧ wf_grid grid' ∧
    ∀ r c, cellOf grid' r c
           = if bool_decide ((r, c) ∈ rcs) then None else cellOf grid r c.
Proof.
  revert grid. induction rcs as [|[r0 c0] rcs IH]; intros grid Hwf Hon.
  - exists grid. split; [done|]. split; [done|]. intros r c.
    rewrite bool_decide_eq_false_2; [done|]. apply not_elem_of_nil.
  - destruct (writeCell_spec grid r0 c0 None)
      as (grid1 & Hw & Hwf1 & Hcell1); [done| |done|].
    { apply (Hon (r0, c0)). left. }
    destruct (IH grid1 Hwf1) as (grid2 & Hf & Hwf2 & Hcell2).
    { intros d Hd. apply Hon. by right. }
    exists grid2. split; [|split; [done|]].
    + cbn [clearCells]. unfold mbind, st_bind. rewrite Hw. done.
    + intros r c. rewrite Hcell2, Hcell1.
      destruct (decide ((r, c) ∈ rcs)) as [Hin|Hin].
      * rewrite !bool_decide_eq_true_2; [done| by right |done].
      * rewrite (bool_decide_eq_false_2 _ Hin).
        case_bool_decide as Heq.
        -- destruct Heq as [-> ->]. rewrite bool_decide_eq_true_2; [done|left].
        -- rewrite bool_decide_eq_false_2; [done|].
           intros [Hd|Hd]%elem_of_cons; [|done].
           apply Heq. by injection Hd as <- <-.
Qed.

(** ** Full rows and columns *)

Lemma truthy_is_Some grid r c :
  wf_grid grid → truthy (cellOf grid r c) = true ↔ is_Some (cellOf grid r c).
Proof.
  intros Hwf. rewrite <- not_eq_None_Some, <- (truthy_cellOf grid r c Hwf).
  by destruct (truthy _).
Qed.

Lemma rowFull_spec grid r :
  wf_grid grid → 0 ≤ r < GRID_SIZE →
  ∃ b, rowFull grid r = Ok b ∧ (b = true ↔ rowFilled grid r).
Proof.
  intros Hwf Hr.
  destruct (wf_grid_lookup grid r Hwf Hr) as (row & Hrow & Hlen & _).
  unfold rowFull. rewrite Hrow. eexists; split; [done|].
  assert (Hcell : ∀ c, cellOf grid r c = default None (zlookup row c)).
  { intros c. unfold cellOf. by rewrite Hrow. }
  rewrite forallb_forall. unfold rowFilled, GRID_SIZE. split.
  - intros Hall c Hc. apply truthy_is_Some; [done|]. rewrite Hcell.
    destruct (zlookup_lt row c) as [v Hv]; [lia|]. rewrite Hv. cbn.
    apply Hall, list_elem_of_In. apply zlookup_Some in Hv as [_ Hv].
    by eapply list_elem_of_lookup_2.
  - intros Hall v Hv. apply list_elem_of_In, list_elem_of_lookup in Hv as [i Hi].
    pose proof (lookup_lt_Some _ _ _ Hi) as Hlt.
    specialize (Hall (Z.of_nat i)). apply truthy_is_Some in Hall; [|done|lia].
    rewrite Hcell in Hall. unfold zlookup in Hall.
    rewrite bool_decide_eq_false_2, Nat2Z.id, Hi in Hall by lia. done.
Qed.

Lemma colFull_spec grid c :
  wf_grid grid → 0 ≤ c < GRID_SIZE → colFull grid c = true ↔ colFilled grid c.
Proof.
  intros Hwf Hc. unfold colFull, colFilled. rewrite forallb_forall. split.
  - intros Hall r Hr. apply truthy_is_Some; [done|].
    destruct (wf_grid_lookup grid r Hwf Hr) as (row & Hrow & _).
    unfold cellOf. rewrite Hrow. cbn. apply Hall, list_elem_of_In.
    apply zlookup_Some in Hrow as [_ Hrow]. by eapply list_elem_of_lookup_2.
  - intros Hall row Hrow.
    apply list_elem_of_In, list_elem_of_lookup in Hrow as [i Hi].
    pose proof (lookup_lt_Some _ _ _ Hi) as Hlt.
    destruct Hwf as [Hlen Hrows]. unfold GRID_SIZE in *.
    specialize (Hall (Z.of_nat i)).
    apply truthy_is_Some in Hall; [|by split|lia].
    assert (Hrow : zlookup grid (Z.of_nat i) = Some row).
    { apply zlookup_Some. rewrite Nat2Z.id. split; [lia|done]. }
    unfold cellOf in Hall. by rewrite Hrow in Hall.
Qed.

Lemma fullRows_spec grid rs :
  wf_grid grid → (∀ r, r ∈ rs → 0 ≤ r < GRID_SIZE) →
  ∃ rows, fullRows grid rs = Ok rows ∧
          (∀ r, r ∈ rows ↔ r ∈ rs ∧ rowFilled grid r) ∧
          (NoDup rs → NoDup rows).
Proof.
  intros Hwf. induction rs as [|r0 rs IH]; intros Hrs.
  - exists []. split; [done|]. split; [|done]. intros r.
    split; [by intros ?%not_elem_of_nil|by intros [?%not_elem_of_nil _]].
  - destruct IH as (rows & Hrows & Hin & Hnd).
    { intros r Hr. apply Hrs. by right. }
    destruct (rowFull_spec grid r0 Hwf) as (b & Hb & Hfull).
    { apply Hrs. left. }
    exists (if b then r0 :: rows else rows). split; [|split].
    + cbn [fullRows]. rewrite Hb. cbn. rewrite Hrows. done.
    + intros r. destruct b.
      * rewrite !elem_of_cons, Hin. split.
        -- intros [->|[? ?]]; [|by auto]. split; [by left|by apply Hfull].
        -- intros [[->|?] ?]; [by left|by right].
      * rewrite Hin, elem_of_cons. split; [intros [? ?]; by auto|].
        intros [[->|?] Hf]; [|done]. apply Hfull in Hf. done.
    + intros [Hni Hnd']%NoDup_cons. specialize (Hnd Hnd').
      destruct b; [|done]. apply NoDup_cons. split; [|done].
      intros Hr0. by apply Hin in Hr0 as [? _].
Qed.

Lemma fullCols_spec grid cs :
  wf_grid grid → (∀ c, c ∈ cs → 0 ≤ c < GRID_SIZE) →
  (∀ c, c ∈ fullCols grid cs ↔ c ∈ cs ∧ colFilled grid c) ∧
  (NoDup cs → NoDup (fullCols grid cs)).
Proof.
  intros Hwf Hcs. unfold fullCols. split.
  - intros c. rewrite list_elem_of_filter. split.
    + intros [Hf Hc]. split; [done|]. apply colFull_spec; auto.
    + intros [Hc Hf]. split; [|done]. apply colFull_spec; auto.
  - apply NoDup_filter.
Qed.

Lemma fullRows_board grid :
  wf_grid grid →
  ∃ rows, fullRows grid (seqZ 0 GRID_SIZE) = Ok rows ∧ NoDup rows ∧
          ∀ r, r ∈ rows ↔ 0 ≤ r < GRID_SIZE ∧ rowFilled grid r.
Proof.
  intros Hwf.
  destruct (fullRows_spec grid (seqZ 0 GRID_SIZE) Hwf) as (rows & Hr & Hin & Hnd).
  { intros r Hr. apply elem_of_seqZ in Hr. lia. }
  exists rows. split; [done|]. split; [apply Hnd, NoDup_seqZ|].
  intros r. rewrite Hin, elem_of_seqZ. unfold GRID_SIZE. intuition lia.
Qed.

Lemma fullCols_board grid :
  wf_grid grid →
  NoDup (fullCols grid (seqZ 0 GRID_SIZE)) ∧
  ∀ c, c ∈ fullCols grid (seqZ 0 GRID_SIZE)
       ↔ 0 ≤ c < GRID_SIZE ∧ colFilled grid c.
Proof.
  intros Hwf.
  destruct (fullCols_spec grid (seqZ 0 GRID_SIZE) Hwf) as [Hin Hnd].
  { intros r Hr. apply elem_of_seqZ in Hr. lia. }
  split; [apply Hnd, NoDup_seqZ|].
  intros r. rewrite Hin, elem_of_seqZ. unfold GRID_SIZE. intuition lia.
Qed.

(** ** Game objects in the heap *)

Lemma set_grid_id g : set_grid (grid g) g = g.
Proof. by destruct g. Qed.

Lemma getObj_Some a w g : heap w !! a = Some g → getObj a w = Ok g.
Proof. intros H. unfold getObj. by rewrite H. Qed.

Lemma getObj_Ok a w g : getObj a w = Ok g → heap w !! a = Some g.
Proof. unfold getObj. destruct (heap w !! a); naive_solver. Qed.

Lemma setObj_id a w g : heap w !! a = Some g → setObj a g w = w.
Proof. intros H. destruct w. unfold setObj. cbn in *. by rewrite list_insert_id. Qed.

Lemma allEmpty_true ps : allEmpty ps = true ↔ ∀ x, x ∈ ps → x = None.
Proof.
  unfold allEmpty. rewrite forallb_forall. split.
  - intros H [p|] Hx; [|done]. apply list_elem_of_In, H in Hx. done.
  - intros H x Hx. apply list_elem_of_In, H in Hx. by subst.
Qed.

Lemma allEmpty_false ps : allEmpty ps = false ↔ ∃ p, Some p ∈ ps.
Proof.
  rewrite <- not_true_iff_false, allEmpty_true. split.
  - intros Hn. induction ps as [|[p|] ps IH].
    + destruct Hn. by intros ? ?%not_elem_of_nil.
    + exists p. left.
    + destruct IH as [p Hp]; [|exists p; by right].
      intros Hall. apply Hn. intros x [->|Hx]%elem_of_cons; auto.
  - intros [p Hp] Hall. by apply Hall in Hp.
Qed.

Lemma elem_of_insert_inv {A} (l : list A) (i : nat) x y :
  x ∈ <[i := y]> l → x = y ∨ x ∈ l.
Proof.
  intros [j Hj]%list_elem_of_lookup.
  apply list_lookup_insert_Some in Hj as [(_ & -> & _)|[_ Hj]]; [by left|].
  right. by eapply list_elem_of_lookup_2.
Qed.

Lemma NoDup_fmap_delete {A B} (f : A → B) (l : list A) i x y :
  NoDup (f <$> l) → l !! i = Some x → y ∈ delete i l → f y ≠ f x.
Proof.
  intros Hnd Hx Hy. rewrite <- (take_drop_middle l i x Hx) in Hnd.
  rewrite fmap_app, fmap_cons in Hnd.
  apply NoDup_app in Hnd as (_ & Hl & Hr). apply NoDup_cons in Hr as [Hr _].
  rewrite delete_take_drop in Hy. apply elem_of_app in Hy as [Hy|Hy].
  - intros Heq. apply (Hl (f y)); [by apply list_elem_of_fmap_2|].
    rewrite Heq. left.
  - intros Heq. apply Hr. rewrite <- Heq. by apply list_elem_of_fmap_2.
Qed.

Section Properties.

Variable rnd : nat → Z.

(** ** The completion callback *)

(** What [done] does to the object at [a] and to the world: it always ends
    the placement, refills the tray when [allEmpty], and writes the game-over
    message when nothing is [movable]. Nothing else changes, apart from the
    best score. *)
Lemma done_spec a w g :
  heap w !! a = Some g → length (grid g) = 8%nat →
  ∃ w' g',
    done rnd a w = Ok w' ∧
    heap w' = <[a := g']> (heap w) ∧ current w' = current w ∧
    timers w' = timers w ∧
    grid g' = grid g ∧ score g' = score g ∧ streak g' = streak g ∧
    linesCleared g' = linesCleared g ∧ selIdx g' = selIdx g ∧
    hoverR g' = hoverR g ∧ hoverC g' = hoverC g ∧
    flashCells g' = flashCells g ∧ comboText g' = comboText g ∧
    placing g' = false ∧
    (if allEmpty (pieces g)
     then pieces g' = [randPiece rnd (drawn w); randPiece rnd (S (drawn w));
                       randPiece rnd (S (S (drawn w)))] ∧
          drawn w' = S (S (S (drawn w)))
     else pieces g' = pieces g ∧ drawn w' = drawn w) ∧
    (if movable (grid g) (pieces g') then gameOverMsg g' = gameOverMsg g
     else is_Some (gameOverMsg g')).
Proof.
  intros Ha Hlen. unfold done. rewrite (getObj_Some _ _ _ Ha).
  cbn [mbind result_bind]. unfold refill, saveBest, drawThree. cbn.
  destruct (allEmpty (pieces g)) eqn:He; cbn;
    destruct (score g >? best g) eqn:Hs; cbn;
    rewrite hasAnyMove_movable by done; cbn;
    (destruct (movable (grid g) _) eqn:Hm; cbn;
     rewrite ?Z.gtb_ltb, ?Z.ltb_irrefl, <- ?Z.gtb_ltb, ?Hs;
     eexists _, _; (split; [reflexivity|]); (split; [reflexivity|]);
     cbn; rewrite ?Hm; repeat split; (done || by eexists)).
Qed.

(** ** The clear step *)

(** The number of lines [clearLines] finds full. *)
Lemma clearLines_nonzero a w g rows :
  heap w !! a = Some g →
  fullRows (grid g) (seqZ 0 GRID_SIZE) = Ok rows →
  let cols := fullCols (grid g) (seqZ 0 GRID_SIZE) in
  let count := Z.of_nat (length rows) + Z.of_nat (length cols) in
  count ≠ 0 →
  ∃ w' g',
    clearLines rnd a w = Ok w' ∧
    heap w' = <[a := g']> (heap w) ∧ current w' = current w ∧
    timers w' = timers w ++ [mkTimer a rows cols] ∧ drawn w' = drawn w ∧
    grid g' = grid g ∧ pieces g' = pieces g ∧ selIdx g' = selIdx g ∧
    hoverR g' = hoverR g ∧ hoverC g' = hoverC g ∧
    placing g' = placing g ∧ gameOverMsg g' = gameOverMsg g ∧
    flashCells g' = toFlash rows cols ∧
    streak g' = streak g + 1 ∧
    score g' = score g + count * 8 * 10 *
                 (if streak g + 1 >? 1 then streak g + 1 else 1) ∧
    linesCleared g' = linesCleared g + count.
Proof.
  intros Ha Hrows cols count Hcount. unfold clearLines.
  rewrite (getObj_Some _ _ _ Ha). cbn [mbind result_bind]. rewrite Hrows.
  cbn [mbind result_bind]. fold cols. fold count.
  rewrite (proj2 (Z.eqb_neq count 0)) by done.
  unfold saveBest. cbn.
  destruct (_ >? best g); eexists _, _; (split; [reflexivity|]);
    (split; [reflexivity|]); cbn; repeat split; done.
Qed.

Lemma clearLines_zero a w g rows :
  heap w !! a = Some g →
  fullRows (grid g) (seqZ 0 GRID_SIZE) = Ok rows →
  let cols := fullCols (grid g) (seqZ 0 GRID_SIZE) in
  Z.of_nat (length rows) + Z.of_nat (length cols) = 0 →
  clearLines rnd a w
  = done rnd a (setObj a (set_comboText "" (set_streak 0 g)) w).
Proof.
  intros Ha Hrows cols Hcount. unfold clearLines.
  rewrite (getObj_Some _ _ _ Ha). cbn [mbind result_bind]. rewrite Hrows.
  cbn [mbind result_bind]. fold cols. rewrite Hcount. done.
Qed.

Lemma setObj_lookup a g w :
  (a < length (heap w))%nat → heap (setObj a g w) !! a = Some g.
Proof. intros. cbn. by apply list_lookup_insert_eq. Qed.

(** C2. The clear step on a post-placement grid. [rows] and [cols] are the
    full rows and the full columns of the board, each listed once, and
    [count] is their number. When [count] is 0 the streak becomes 0, the
    score and the lines counter stay, no cell changes and no clear is
    scheduled; otherwise the streak grows by exactly 1, the score grows by
    [count * 8 * 10 * (streak if streak > 1 else 1)] for the new streak, and
    the lines counter grows by [count]. *)
Theorem clearLines_streak_and_bonus a w g :
  heap w !! a = Some g → wf_grid (grid g) →
  ∃ rows w' g',
    fullRows (grid g) (seqZ 0 GRID_SIZE) = Ok rows ∧
    clearLines rnd a w = Ok w' ∧ heap w' !! a = Some g' ∧
    let cols := fullCols (grid g) (seqZ 0 GRID_SIZE) in
    let count := Z.of_nat (length rows) + Z.of_nat (length cols) in
    NoDup rows ∧ NoDup cols ∧
    (∀ r, r ∈ rows ↔ 0 ≤ r < 8 ∧ rowFilled (grid g) r) ∧
    (∀ c, c ∈ cols ↔ 0 ≤ c < 8 ∧ colFilled (grid g) c) ∧
    if count =? 0 then
      streak g' = 0 ∧ score g' = score g ∧
      linesCleared g' = linesCleared g ∧ grid g' = grid g ∧
      timers w' = timers w
    else
      streak g' = streak g + 1 ∧
      score g' = score g + count * 8 * 10 *
                   (if streak g' >? 1 then streak g' else 1) ∧
      linesCleared g' = linesCleared g + count.
Proof.
  intros Ha Hwf.
  destruct (fullRows_board (grid g) Hwf) as (rows & Hrows & Hndr & Hinr).
  destruct (fullCols_board (grid g) Hwf) as [Hndc Hinc].
  pose proof (lookup_lt_Some _ _ _ Ha) as Hlt.
  exists rows.
  destruct (Z.eqb_spec (Z.of_nat (length rows)
              + Z.of_nat (length (fullCols (grid g) (seqZ 0 GRID_SIZE)))) 0)
    as [Hz|Hnz].
  - rewrite (clearLines_zero a w g rows Ha Hrows Hz).
    destruct (done_spec a (setObj a (set_comboText "" (set_streak 0 g)) w)
                (set_comboText "" (set_streak 0 g)))
      as (w' & g' & Hd & Hh & _ & Ht & Hg & Hsc & Hst & Hl & _).
    { by apply setObj_lookup. }
    { apply Hwf. }
    exists w', g'. split; [done|]. split; [done|]. split.
    { rewrite Hh. apply list_lookup_insert_eq. cbn. by rewrite length_insert. }
    cbn zeta. split; [done|]. split; [done|]. split; [done|]. split; [done|].
    rewrite Hz. cbn. done.
  - destruct (clearLines_nonzero a w g rows Ha Hrows Hnz)
      as (w' & g' & Hc & Hh & _ & _ & _ & _ & _ & _ & _ & _ & _ & _ & _
          & Hst & Hsc & Hl).
    exists w', g'. split; [done|]. split; [done|]. split.
    { rewrite Hh. by apply list_lookup_insert_eq. }
    cbn zeta. split; [done|]. split; [done|]. split; [done|]. split; [done|].
    rewrite (proj2 (Z.eqb_neq _ 0) Hnz). rewrite Hst. done.
Qed.

(** ** The delayed clear *)

Lemma elem_of_rowCells rs r c :
  (r, c) ∈ rowCells rs ↔ r ∈ rs ∧ 0 ≤ c < GRID_SIZE.
Proof.
  unfold rowCells. rewrite list_elem_of_bind. split.
  - intros (r' & Hc & Hr). apply list_elem_of_bind in Hc as (c' & Hrc & Hc).
    apply list_elem_of_singleton in Hrc. injection Hrc as -> ->.
    apply elem_of_seqZ in Hc. split; [done|lia].
  - intros [Hr Hc]. exists r. split; [|done].
    apply list_elem_of_bind. exists c. split; [by apply list_elem_of_singleton|].
    apply elem_of_seqZ. lia.
Qed.

Lemma elem_of_colCells cs r c :
  (r, c) ∈ colCells cs ↔ c ∈ cs ∧ 0 ≤ r < GRID_SIZE.
Proof.
  unfold colCells. rewrite list_elem_of_bind. split.
  - intros (c' & Hr & Hc). apply list_elem_of_bind in Hr as (r' & Hrc & Hr).
    apply list_elem_of_singleton in Hrc. injection Hrc as -> ->.
    apply elem_of_seqZ in Hr. split; [done|lia].
  - intros [Hc Hr]. exists c. split; [|done].
    apply list_elem_of_bind. exists r. split; [by apply list_elem_of_singleton|].
    apply elem_of_seqZ. lia.
Qed.

(** The grid after the two clearing loops of the callback. *)
Lemma clear_lines_grid rows cols grid :
  wf_grid grid →
  (∀ r, r ∈ rows → 0 ≤ r < GRID_SIZE) →
  (∀ c, c ∈ cols → 0 ≤ c < GRID_SIZE) →
  ∃ grid1 grid2,
    clearCells (rowCells rows) grid = Ok (tt, grid1) ∧
    clearCells (colCells cols) grid1 = Ok (tt, grid2) ∧
    wf_grid grid2 ∧
    ∀ r c, onBoard r c →
      cellOf grid2 r c
      = if bool_decide (r ∈ rows ∨ c ∈ cols) then None else cellOf grid r c.
Proof.
  intros Hwf Hrows Hcols.
  destruct (clearCells_spec (rowCells rows) grid Hwf)
    as (grid1 & H1 & Hwf1 & Hcell1).
  { intros [r c] [Hr Hc]%elem_of_rowCells. split; [by apply Hrows|done]. }
  destruct (clearCells_spec (colCells cols) grid1 Hwf1)
    as (grid2 & H2 & Hwf2 & Hcell2).
  { intros [r c] [Hc Hr]%elem_of_colCells. split; [done|by apply Hcols]. }
  exists grid1, grid2. split; [done|]. split; [done|]. split; [done|].
  intros r c [Hr Hc]. rewrite Hcell2, Hcell1.
  destruct (decide (c ∈ cols)) as [Hin|Hin].
  - rewrite !bool_decide_eq_true_2; [done|by right|].
    by apply elem_of_colCells.
  - rewrite (bool_decide_eq_false_2 ((r, c) ∈ colCells cols)).
    2:{ by intros [? _]%elem_of_colCells. }
    destruct (decide (r ∈ rows)) as [Hin'|Hin'].
    + rewrite !bool_decide_eq_true_2; [done|by left|].
      by apply elem_of_rowCells.
    + rewrite !bool_decide_eq_false_2; [done|tauto|].
      by intros [? _]%elem_of_rowCells.
Qed.

Lemma timerFire_unfold i w t g grid1 grid2 :
  timers w !! i = Some t → heap w !! t_game t = Some g →
  clearCells (rowCells (t_rows t)) (grid g) = Ok (tt, grid1) →
  clearCells (colCells (t_cols t)) grid1 = Ok (tt, grid2) →
  timerFire rnd i w
  = done rnd (t_game t)
      (setObj (t_game t)
         (set_comboText "" (set_flashCells ∅ (set_grid grid2 g)))
         (set_timers (delete i (timers w)) w)).
Proof.
  intros Ht Hg H1 H2. unfold timerFire. rewrite Ht.
  rewrite (getObj_Some (t_game t) _ g) by done.
  cbn [mbind result_bind]. rewrite H1. cbn. rewrite H2. done.
Qed.

Lemma elem_of_toFlash rows cols k :
  k ∈ toFlash rows cols ↔
  ∃ r c, k = r * GRID_SIZE + c ∧
         ((r ∈ rows ∧ 0 ≤ c < GRID_SIZE) ∨ (c ∈ cols ∧ 0 ≤ r < GRID_SIZE)).
Proof.
  unfold toFlash. rewrite elem_of_list_to_set, list_elem_of_fmap. split.
  - intros ([r c] & -> & Hin). exists r, c. split; [done|].
    apply elem_of_app in Hin as [Hin|Hin].
    + left. by apply elem_of_rowCells.
    + right. by apply elem_of_colCells.
  - intros (r & c & -> & Hin). exists (r, c). split; [done|].
    apply elem_of_app. destruct Hin as [Hin|Hin].
    + left. by apply elem_of_rowCells.
    + right. by apply elem_of_colCells.
Qed.


(** ** The placement *)

Lemma NoDup_anchors : NoDup anchors.
Proof. apply (bool_decide_unpack _). by vm_compute. Qed.

Lemma place_spec p i r c g :
  wf_grid (grid g) → shape_ok p →
  zlookup (pieces g) i = Some (Some p) →
  legal (grid g) p r c = true →
  ∃ g',
    place p i r c g = Ok g' ∧ wf_grid (grid g') ∧
    (∀ r' c', cellOf (grid g') r' c'
              = if bool_decide ((r' - r, c' - c) ∈ cells p)
                then Some (color p) else cellOf (grid g) r' c') ∧
    score g' = score g + Z.of_nat (length (cells p)) ∧
    pieces g' = <[Z.to_nat i := None]> (pieces g) ∧
    selIdx g' = None ∧ placing g' = true ∧
    linesCleared g' = linesCleared g ∧ streak g' = streak g ∧
    hoverR g' = hoverR g ∧ hoverC g' = hoverC g ∧
    flashCells g' = flashCells g ∧ gameOverMsg g' = gameOverMsg g ∧
    comboText g' = comboText g ∧ best g' = best g.
Proof.
  intros Hwf Hok Hslot Hlegal.
  destruct (fillCells_spec (cells p) r c (color p) (grid g) Hwf)
    as (grid' & Hfill & Hwf' & Hcell).
  { apply Hok. }
  { intros d Hd. by apply (proj1 (legal_true _ _ _ _ Hwf) Hlegal). }
  apply zlookup_Some in Hslot as [Hi Hslot].
  pose proof (lookup_lt_Some _ _ _ Hslot) as Hlt.
  eexists. split.
  { unfold place. cbn. rewrite Hfill. cbn. unfold zinsert.
    rewrite bool_decide_eq_true_2 by lia. cbn. reflexivity. }
  cbn. repeat split; done || apply Hwf'.
Qed.

Lemma place_newlyFilled p r c (old new : Grid) :
  wf_grid old → shape_ok p → legal old p r c = true →
  (∀ r' c', cellOf new r' c'
            = if bool_decide ((r' - r, c' - c) ∈ cells p)
              then Some (color p) else cellOf old r' c') →
  length (newlyFilled old new) = length (cells p) ∧
  ∀ r' c', (r', c') ∉ newlyFilled old new → cellOf new r' c' = cellOf old r' c'.
Proof.
  intros Hwf Hok Hlegal Hcell.
  pose proof (proj1 (legal_true _ _ _ _ Hwf) Hlegal) as Hfree.
  assert (Hin : ∀ r' c', (r', c') ∈ newlyFilled old new
                         ↔ (r' - r, c' - c) ∈ cells p).
  { intros r' c'. unfold newlyFilled. rewrite list_elem_of_filter. cbn.
    rewrite Hcell. split.
    - intros [[Hold Hnew] _]. case_bool_decide; [done|].
      rewrite Hold in Hnew. by destruct Hnew.
    - intros Hd. specialize (Hfree _ Hd) as [Hon Hnone]. cbn in Hon, Hnone.
      replace (r + (r' - r)) with r' in * by lia.
      replace (c + (c' - c)) with c' in * by lia.
      rewrite bool_decide_eq_true_2 by done.
      split; [by eauto|]. by apply elem_of_anchors. }
  split.
  - rewrite <- (length_fmap (λ d : Z * Z, (r + d.1, c + d.2)) (cells p)).
    apply Permutation_length, NoDup_Permutation.
    + apply NoDup_filter, NoDup_anchors.
    + apply NoDup_fmap_2; [|apply Hok].
      intros [a1 b1] [a2 b2] Heq. cbn in Heq. injection Heq as ? ?.
      f_equal; lia.
    + intros [r' c']. rewrite Hin, list_elem_of_fmap. split.
      * intros Hd. exists (r' - r, c' - c). split; [cbn; f_equal; lia|done].
      * intros ([dr dc] & Heq & Hd). cbn in Heq. injection Heq as -> ->.
        replace (r + dr - r) with dr by lia.
        replace (c + dc - c) with dc by lia. done.
  - intros r' c' Hnot. rewrite Hcell, bool_decide_eq_false_2; [done|].
    by rewrite <- Hin.
Qed.

Lemma drop_legal_unfold r c w a g i p :
  current w = Some a → heap w !! a = Some g →
  placing g = false → selIdx g = Some i →
  zlookup (pieces g) i = Some (Some p) →
  length (grid g) = 8%nat → legal (grid g) p r c = true →
  drop rnd r c w = (g1 ← place p i r c g; clearLines rnd a (setObj a g1 w)).
Proof.
  intros Hcur Ha Hpl Hsel Hslot Hlen Hlegal. unfold drop.
  rewrite Hcur, (getObj_Some _ _ _ Ha). cbn [mbind result_bind].
  rewrite Hpl, Hsel, Hslot, canPlace_legal, Hlegal by done.
  cbn [mbind result_bind negb]. by rewrite set_grid_id.
Qed.

(** C5. A legal drop of the selected catalog shape [p] at [(r, c)] performs
    the placement [place] and hands its result to the clear step. In the
    placement exactly [length (cells p)] cells of the board go from empty to
    filled and no other cell changes, the score grows by exactly
    [length (cells p)], the slot of the shape becomes empty while the other
    slots keep their content, and the selection is cleared. *)
Theorem drop_places_shape r c w a g i p :
  current w = Some a → heap w !! a = Some g → wf_grid (grid g) →
  p ∈ PIECES → placing g = false → selIdx g = Some i →
  zlookup (pieces g) i = Some (Some p) →
  canPlace p r c (grid g) = Ok (true, grid g) →
  ∃ g1,
    place p i r c g = Ok g1 ∧
    drop rnd r c w = clearLines rnd a (setObj a g1 w) ∧
    length (newlyFilled (grid g) (grid g1)) = length (cells p) ∧
    (∀ r' c', (r', c') ∉ newlyFilled (grid g) (grid g1) →
              cellOf (grid g1) r' c' = cellOf (grid g) r' c') ∧
    score g1 = score g + Z.of_nat (length (cells p)) ∧
    zlookup (pieces g1) i = Some None ∧
    (∀ j, j ≠ i → zlookup (pieces g1) j = zlookup (pieces g) j) ∧
    selIdx g1 = None.
Proof.
  intros Hcur Ha Hwf Hp Hpl Hsel Hslot Hcan.
  assert (Hlegal : legal (grid g) p r c = true).
  { rewrite canPlace_legal in Hcan by apply Hwf. congruence. }
  pose proof (catalog_shape_ok p Hp) as Hok.
  destruct (place_spec p i r c g Hwf Hok Hslot Hlegal)
    as (g1 & Hplace & Hwf1 & Hcell & Hscore & Hps & Hs & _).
  destruct (place_newlyFilled p r c (grid g) (grid g1) Hwf Hok Hlegal Hcell)
    as [Hcount Hrest].
  exists g1. split; [done|]. split.
  { rewrite (drop_legal_unfold r c w a g i p) by (done || apply Hwf).
    by rewrite Hplace. }
  split; [done|]. split; [done|]. split; [done|].
  pose proof Hslot as [Hi Hslot']%zlookup_Some.
  pose proof (lookup_lt_Some _ _ _ Hslot') as Hlt.
  rewrite Hps. split; [|split; [|done]].
  - apply zlookup_insert_eq. lia.
  - intros j Hj. by apply zlookup_insert_ne.
Qed.

(** C8. When a piece is selected and [canPlace] answers [false] for it at
    [(r, c)], [drop(r, c)] returns the world it was given: no component of
    any game object, and nothing around them, has changed. *)
Theorem drop_illegal_noop r c w a g i p :
  current w = Some a → heap w !! a = Some g →
  selIdx g = Some i → zlookup (pieces g) i = Some (Some p) →
  canPlace p r c (grid g) = Ok (false, grid g) →
  drop rnd r c w = Ok w.
Proof.
  intros Hcur Ha Hsel Hslot Hcan. unfold drop.
  rewrite Hcur, (getObj_Some _ _ _ Ha). cbn [mbind result_bind].
  destruct (placing g); [done|]. rewrite Hsel, Hslot, Hcan.
  cbn [mbind result_bind negb]. by rewrite set_grid_id, setObj_id.
Qed.

(** ** Preservation of the invariants *)

Lemma inv_update w w' a g g' :
  inv w → heap w !! a = Some g →
  heap w' = <[a := g']> (heap w) → current w' = current w →
  wf_game g' → verdict_ok g' →
  (∀ t, t ∈ timers w' → t_game t = a → placing g' = true) →
  (∀ t, t ∈ timers w' → t_game t ≠ a → t ∈ timers w) →
  (∀ t, t ∈ timers w' →
     (∀ r, r ∈ t_rows t → 0 ≤ r < GRID_SIZE) ∧
     (∀ c, c ∈ t_cols t → 0 ≤ c < GRID_SIZE)) →
  NoDup (t_game <$> timers w') →
  inv w'.
Proof.
  intros [Hg Hc Ht Hn] Ha Hh Hcur Hwf Hv Hta Htb Hrange Hnd.
  pose proof (lookup_lt_Some _ _ _ Ha) as Hlt.
  split; [| | |done].
  - intros b gb. rewrite Hh. destruct (decide (a = b)) as [<-|Hne].
    + rewrite list_lookup_insert_eq by done. by intros [= <-].
    + rewrite list_lookup_insert_ne by done. apply Hg.
  - intros b. rewrite Hcur, Hh, length_insert. apply Hc.
  - intros t Hin. split; [|by apply Hrange]. rewrite Hh.
    destruct (decide (t_game t = a)) as [Heq|Hne].
    + exists g'. rewrite Heq, list_lookup_insert_eq by done.
      split; [done|]. by apply (Hta t).
    + rewrite list_lookup_insert_ne by done. by apply Ht, Htb.
Qed.

(** An update of the object at [a] that leaves the timers alone and does not
    end a placement. *)
Lemma inv_update_same w w' a g g' :
  inv w → heap w !! a = Some g →
  heap w' = <[a := g']> (heap w) → current w' = current w →
  timers w' = timers w →
  wf_game g' → verdict_ok g' →
  (placing g = true → placing g' = true) →
  inv w'.
Proof.
  intros Hinv Ha Hh Hcur Htim Hwf Hv Hpl.
  eapply inv_update; try done; rewrite Htim.
  - intros t Hin Heq. apply Hpl.
    destruct (inv_timers w Hinv t Hin) as [(gt & Hgt & Hp) _].
    rewrite Heq, Ha in Hgt. by injection Hgt as ->.
  - done.
  - intros t Hin. by destruct (inv_timers w Hinv t Hin) as [_ ?].
  - apply Hinv.
Qed.

(** From here on the random source stays within the catalog, as
    [Math.floor(Math.random() * PIECES.length)] does. *)
Hypothesis rnd_range : ∀ n, 0 ≤ rnd n < Z.of_nat (length PIECES).

Lemma randPiece_catalog n : ∃ p, randPiece rnd n = Some p ∧ p ∈ PIECES.
Proof.
  unfold randPiece. destruct (zlookup_lt PIECES (rnd n)) as [p Hp]; [done|].
  exists p. split; [done|]. apply zlookup_Some in Hp as [_ Hp].
  by eapply list_elem_of_lookup_2.
Qed.

Lemma catalog_fits_empty p : p ∈ PIECES → legal makeGrid p 0 0 = true.
Proof.
  assert (H : Forall (λ p, legal makeGrid p 0 0 = true) PIECES).
  { apply (bool_decide_unpack _). by vm_compute. }
  intros Hp. by eapply (proj1 (Forall_forall _ _) H).
Qed.

Lemma drawn_pieces_ok n x :
  x ∈ [randPiece rnd n; randPiece rnd (S n); randPiece rnd (S (S n))] →
  ∃ p, x = Some p ∧ p ∈ PIECES.
Proof.
  intros Hx. repeat (apply elem_of_cons in Hx as [->|Hx]);
    try apply randPiece_catalog. by apply not_elem_of_nil in Hx.
Qed.

Lemma inv_done a w w' g :
  inv w → heap w !! a = Some g → placing g = true →
  (∀ t, t ∈ timers w → t_game t ≠ a) →
  done rnd a w = Ok w' → inv w'.
Proof.
  intros Hinv Ha Hpl Hfree Hdone.
  destruct (inv_games w Hinv a g Ha) as [(Hwf & Hlen & Hcat & Hsel) Hv].
  unfold verdict_ok in Hv. rewrite Hpl in Hv.
  destruct (done_spec a w g Ha) as (w1 & g' & Hd & Hh & Hcur & Htim & Hg
    & _ & _ & _ & Hs & _ & _ & _ & _ & Hpl' & Hps & Hmsg); [apply Hwf|].
  rewrite Hdone in Hd. injection Hd as <-.
  eapply inv_update; try done.
  - (* the object is well formed *)
    destruct (allEmpty (pieces g)) eqn:He; destruct Hps as [Hps _].
    + split; [by rewrite Hg|]. rewrite Hps. split; [done|]. split.
      * intros p Hp. apply drawn_pieces_ok in Hp as (q & [= <-] & Hq). done.
      * intros i Hi. rewrite Hs in Hi. destruct (Hsel i Hi) as [p Hp].
        apply zlookup_Some in Hp as [_ Hp].
        apply list_elem_of_lookup_2 in Hp.
        by apply (proj1 (allEmpty_true _) He) in Hp.
    + split; [by rewrite Hg|]. rewrite Hps. split; [done|]. split; [done|].
      intros i Hi. rewrite Hs in Hi. by apply Hsel.
  - (* the verdict is the search's *)
    unfold verdict_ok. rewrite Hpl', Hg.
    destruct (movable (grid g) (pieces g')).
    + rewrite Hmsg, Hv. split; [by intros [? ?]|done].
    + done.
  - rewrite Htim. intros t Hin Heq. by destruct (Hfree t Hin).
  - rewrite Htim. done.
  - rewrite Htim. intros t Hin. by destruct (inv_timers w Hinv t Hin) as [_ ?].
  - rewrite Htim. apply Hinv.
Qed.

Lemma inv_clearLines a w w' g :
  inv w → heap w !! a = Some g → placing g = true →
  (∀ t, t ∈ timers w → t_game t ≠ a) →
  clearLines rnd a w = Ok w' → inv w'.
Proof.
  intros Hinv Ha Hpl Hfree Hclear.
  destruct (inv_games w Hinv a g Ha) as [(Hwf & Hlen & Hcat & Hsel) Hv].
  pose proof Hv as Hnone. unfold verdict_ok in Hnone. rewrite Hpl in Hnone.
  pose proof (lookup_lt_Some _ _ _ Ha) as Hlt.
  destruct (fullRows_board (grid g) Hwf) as (rows & Hrows & Hndr & Hinr).
  destruct (fullCols_board (grid g) Hwf) as [Hndc Hinc].
  destruct (decide (Z.of_nat (length rows)
              + Z.of_nat (length (fullCols (grid g) (seqZ 0 GRID_SIZE))) = 0))
    as [Hz|Hnz].
  - rewrite (clearLines_zero a w g rows Ha Hrows Hz) in Hclear.
    eapply (inv_done a _ w' (set_comboText "" (set_streak 0 g)));
      [|by apply setObj_lookup|done|done|done].
    by eapply (inv_update_same w _ a g).
  - destruct (clearLines_nonzero a w g rows Ha Hrows Hnz)
      as (w1 & g' & Hc & Hh & Hcur & Htim & _ & Hg & Hps & Hs & _ & _
          & Hpl' & Hmsg & _).
    rewrite Hclear in Hc. injection Hc as <-.
    eapply inv_update; try done.
    + split; [by rewrite Hg|]. rewrite Hps, Hs. done.
    + unfold verdict_ok. by rewrite Hpl', Hpl, Hmsg.
    + intros _ _ _. by rewrite Hpl'.
    + rewrite Htim. intros t [Hin|Hin]%elem_of_app; [done|].
      apply list_elem_of_singleton in Hin as ->. done.
    + rewrite Htim. intros t [Hin|Hin]%elem_of_app.
      * by destruct (inv_timers w Hinv t Hin) as [_ ?].
      * apply list_elem_of_singleton in Hin as ->. cbn. split.
        -- intros r Hr. by apply Hinr in Hr as [? _].
        -- intros c Hc. by apply Hinc in Hc as [? _].
    + rewrite Htim, fmap_app. apply NoDup_app. split; [apply Hinv|]. split.
      * intros b Hb [Hb'|Hb']%elem_of_cons; [|by apply not_elem_of_nil in Hb'].
        apply list_elem_of_fmap in Hb as (t & -> & Hin). by apply (Hfree t).
      * apply NoDup_singleton.
Qed.

Lemma inv_init st : inv (initWorld st).
Proof.
  split; cbn; try done.
  - intros t Ht. by apply not_elem_of_nil in Ht.
  - apply NoDup_nil_2.
Qed.

Lemma startGame_unfold w :
  startGame rnd w
  = mkWorld
      (heap w ++ [mkGame makeGrid 0 0 0
                    [randPiece rnd (drawn w); randPiece rnd (S (drawn w));
                     randPiece rnd (S (S (drawn w)))]
                    None None None false ∅ None "" (default 0 (storage w))])
      (Some (length (heap w))) (timers w) (storage w) (S (S (S (drawn w)))).
Proof. done. Qed.

Lemma inv_startGame w : inv w → inv (startGame rnd w).
Proof.
  intros [Hg Hc Ht Hn]. rewrite startGame_unfold. split; cbn; [| | |done].
  - intros a g Ha.
    apply lookup_app_Some in Ha as [Ha|[_ Ha]]; [by apply (Hg a)|].
    apply list_lookup_singleton_Some in Ha as [_ <-]. split.
    + split; [apply makeGrid_wf|]. split; [done|]. split; [|done].
      intros p Hp. apply drawn_pieces_ok in Hp as (q & [= <-] & Hq). done.
    + unfold verdict_ok. cbn. split; [by intros [? ?]|].
      destruct (randPiece_catalog (drawn w)) as (p & Hp & Hcat).
      intros Hno. rewrite movable_false in Hno.
      pose proof (catalog_fits_empty p Hcat) as Hfit.
      rewrite (Hno p 0 0) in Hfit; [done| |by unfold onBoard, GRID_SIZE].
      rewrite Hp. left.
  - intros a [= <-]. rewrite length_app. cbn. lia.
  - intros t Hin. destruct (Ht t Hin) as [(g & Hgt & Hp) Hr].
    split; [|done]. exists g. split; [|done]. by apply lookup_app_l_Some.
Qed.

Lemma inv_escape w w' : inv w → escape w = Ok w' → inv w'.
Proof.
  intros Hinv. unfold escape. destruct (current w) as [a|]; [|by intros [= <-]].
  destruct (getObj a w) as [g|] eqn:Hg; [|done]. apply getObj_Ok in Hg.
  cbn. intros [= <-].
  destruct (inv_games w Hinv a g Hg) as [(? & ? & ? & ?) ?].
  by eapply (inv_update_same w _ a g).
Qed.

Lemma inv_mouseEnter r c w w' : inv w → mouseEnter r c w = Ok w' → inv w'.
Proof.
  intros Hinv. unfold mouseEnter.
  destruct (current w) as [a|]; [|by intros [= <-]].
  destruct (getObj a w) as [g|] eqn:Hg; [|done]. apply getObj_Ok in Hg.
  cbn. destruct (selIdx g) eqn:Hs; intros [= <-]; [|done].
  destruct (inv_games w Hinv a g Hg) as [(? & ? & ? & ?) ?].
  by eapply (inv_update_same w _ a g).
Qed.

Lemma inv_mouseLeave w w' : inv w → mouseLeave w = Ok w' → inv w'.
Proof.
  intros Hinv. unfold mouseLeave.
  destruct (current w) as [a|]; [|by intros [= <-]].
  destruct (getObj a w) as [g|] eqn:Hg; [|done]. apply getObj_Ok in Hg.
  cbn. intros [= <-].
  destruct (inv_games w Hinv a g Hg) as [(? & ? & ? & ?) ?].
  by eapply (inv_update_same w _ a g).
Qed.

Lemma inv_selectPiece idx w w' : inv w → selectPiece idx w = Ok w' → inv w'.
Proof.
  intros Hinv. unfold selectPiece.
  destruct (current w) as [a|]; [|by intros [= <-]].
  destruct (getObj a w) as [g|] eqn:Hg; [|done]. apply getObj_Ok in Hg.
  cbn. destruct (zlookup (pieces g) idx) as [[p|]|] eqn:Hslot;
    intros [= <-]; try done.
  destruct (inv_games w Hinv a g Hg) as [(? & ? & ? & ?) ?].
  eapply (inv_update_same w _ a g); try done.
  split; [done|]. split; [done|]. split; [done|]. cbn.
  intros i. case_bool_decide; [done|]. intros [= <-]. by exists p.
Qed.

Lemma inv_drop r c w w' : inv w → drop rnd r c w = Ok w' → inv w'.
Proof.
  intros Hinv. unfold drop.
  destruct (current w) as [a|]; [|by intros [= <-]].
  destruct (getObj a w) as [g|] eqn:Hg; [|done]. apply getObj_Ok in Hg.
  cbn [mbind result_bind].
  destruct (placing g) eqn:Hpl; [by intros [= <-]|].
  destruct (selIdx g) as [i|] eqn:Hsel; [|by intros [= <-]].
  destruct (zlookup (pieces g) i) as [[p|]|] eqn:Hslot; try done.
  destruct (inv_games w Hinv a g Hg) as [(Hwf & Hlen & Hcat & Hs) Hv].
  rewrite canPlace_legal by apply Hwf. cbn [mbind result_bind].
  rewrite set_grid_id.
  destruct (legal (grid g) p r c) eqn:Hlegal; cbn [negb]; cycle 1.
  { rewrite setObj_id by done. by intros [= <-]. }
  intros Hdrop.
  assert (Hp : p ∈ PIECES).
  { apply Hcat. apply zlookup_Some in Hslot as [_ Hslot].
    by eapply list_elem_of_lookup_2. }
  pose proof (catalog_shape_ok p Hp) as Hok.
  destruct (place_spec p i r c g Hwf Hok Hslot Hlegal)
    as (g1 & Hplace & Hwf1 & _ & _ & Hps & Hs1 & Hpl1 & _ & _ & _ & _ & _
        & Hmsg & _).
  rewrite Hplace in Hdrop. cbn [mbind result_bind] in Hdrop.
  pose proof (lookup_lt_Some _ _ _ Hg) as Hlt.
  eapply (inv_clearLines a (setObj a g1 w) w' g1);
    [|by apply setObj_lookup|done| |done].
  - eapply (inv_update_same w _ a g); try done.
    + split; [done|]. rewrite Hps, Hs1, length_insert.
      split; [done|]. split; [|done].
      intros q [Hq|Hq]%elem_of_insert_inv; [done|by apply Hcat].
    + unfold verdict_ok. rewrite Hpl1, Hmsg.
      unfold verdict_ok in Hv. rewrite Hpl in Hv.
      destruct (gameOverMsg g) as [m|]; [|done].
      assert (Hmov : movable (grid g) (pieces g) = true).
      { apply movable_true. exists p, r, c. split; [|split; [|done]].
        - apply zlookup_Some in Hslot as [_ Hslot].
          by eapply list_elem_of_lookup_2.
        - by eapply legal_anchor_onBoard. }
      rewrite Hmov in Hv. by assert (true = false) by (apply Hv; eauto).
  - cbn. intros t Hin Heq.
    destruct (inv_timers w Hinv t Hin) as [(gt & Hgt & Hp') _].
    rewrite Heq, Hg in Hgt. injection Hgt as <-. congruence.
Qed.

Lemma inv_timerFire i w w' : inv w → timerFire rnd i w = Ok w' → inv w'.
Proof.
  intros Hinv Hfire.
  destruct (timers w !! i) as [t|] eqn:Ht; cycle 1.
  { unfold timerFire in Hfire. rewrite Ht in Hfire. by injection Hfire as <-. }
  destruct (inv_timers w Hinv t) as [(g & Hg & Hpl) [Hrows Hcols]].
  { by eapply list_elem_of_lookup_2. }
  destruct (inv_games w Hinv _ g Hg) as [(Hwf & Hlen & Hcat & Hs) Hv].
  destruct (clear_lines_grid (t_rows t) (t_cols t) (grid g) Hwf Hrows Hcols)
    as (grid1 & grid2 & H1 & H2 & Hwf2 & _).
  rewrite (timerFire_unfold i w t g grid1 grid2 Ht Hg H1 H2) in Hfire.
  pose proof (lookup_lt_Some _ _ _ Hg) as Hlt.
  eapply (inv_done (t_game t) _ w'
            (set_comboText "" (set_flashCells ∅ (set_grid grid2 g))));
    only 5: exact Hfire; [|by apply setObj_lookup|done|].
  - eapply (inv_update w _ (t_game t) g); try done; cbn.
    + unfold verdict_ok in *. cbn. by rewrite Hpl in *.
    + intros t' Hin _. by apply list_elem_of_delete_inv in Hin.
    + intros t' Hin%list_elem_of_delete_inv.
      by destruct (inv_timers w Hinv t' Hin) as [_ ?].
    + rewrite list_fmap_delete.
      eapply sublist_NoDup; [apply Hinv|apply sublist_delete].
  - cbn. intros t' Hin.
    by eapply (NoDup_fmap_delete t_game (timers w) i t t'); [apply Hinv|..].
Qed.

Lemma inv_step e w w' : inv w → step rnd e w = Ok w' → inv w'.
Proof.
  intros Hinv. destruct e; cbn.
  - intros [= <-]. by apply inv_startGame.
  - by apply inv_selectPiece.
  - by apply inv_drop.
  - by apply inv_escape.
  - by apply inv_mouseEnter.
  - by apply inv_mouseLeave.
  - by apply inv_timerFire.
Qed.

Lemma reachable_inv w : reachable rnd w → inv w.
Proof.
  induction 1 as [st|e w w' _ IH Hstep]; [apply inv_init|].
  by eapply inv_step.
Qed.

(** ** What an event leaves alone *)

Lemma fr_refl a w : fr a w w.
Proof. done. Qed.

Lemma fr_trans a w1 w2 w3 : fr a w1 w2 → fr a w2 w3 → fr a w1 w3.
Proof.
  intros (? & ? & H12) (? & ? & H23). split; [congruence|].
  split; [congruence|]. intros b Hb. rewrite H23, H12; done.
Qed.

Lemma fr_setObj a g w : fr a w (setObj a g w).
Proof.
  split; [done|]. split; [apply length_insert|]. intros b Hb. cbn.
  by apply list_lookup_insert_ne.
Qed.

Lemma refill_world g w g' w' :
  refill rnd (g, w) = (g', w') →
  heap w' = heap w ∧ current w' = current w ∧ timers w' = timers w.
Proof. unfold refill. case_match; intros; by simplify_eq/=. Qed.

Lemma saveBest_world g w g' w' :
  saveBest (g, w) = (g', w') →
  heap w' = heap w ∧ current w' = current w ∧ timers w' = timers w.
Proof. unfold saveBest. case_match; intros; by simplify_eq/=. Qed.

Lemma fr_setObj_of a g w0 w :
  heap w = heap w0 → current w = current w0 → fr a w0 (setObj a g w).
Proof.
  intros Hh Hc. split; [by cbn|]. cbn. rewrite Hh.
  split; [apply length_insert|]. intros b Hb. by apply list_lookup_insert_ne.
Qed.

Lemma done_fr a w w' : done rnd a w = Ok w' → fr a w w' ∧ timers w' = timers w.
Proof.
  unfold done. destruct (getObj a w) as [g|]; [|done]. cbn [mbind result_bind].
  destruct (refill rnd (set_placing false g, w)) as [g1 w1] eqn:H1.
  destruct (saveBest (g1, w1)) as [g2 w2] eqn:H2.
  apply refill_world in H1 as (Hh1 & Hc1 & Ht1).
  apply saveBest_world in H2 as (Hh2 & Hc2 & Ht2).
  destruct (hasAnyMove (pieces g2) (grid g2)) as [[[|] grid']|]; [| |done];
    cbn [mbind result_bind].
  - intros [= <-]. split; [apply fr_setObj_of|cbn]; congruence.
  - destruct (saveBest (set_grid grid' g2, w2)) as [g3 w3] eqn:H3.
    apply saveBest_world in H3 as (Hh3 & Hc3 & Ht3).
    intros [= <-]. split; [apply fr_setObj_of|cbn]; congruence.
Qed.

Lemma clearLines_fr a w w' :
  clearLines rnd a w = Ok w' →
  fr a w w' ∧ ∃ ts, timers w' = timers w ++ ts ∧ ∀ t, t ∈ ts → t_game t = a.
Proof.
  unfold clearLines. destruct (getObj a w) as [g|]; [|done].
  cbn [mbind result_bind].
  destruct (fullRows _ _) as [rows|]; [|done]. cbn [mbind result_bind].
  destruct (_ =? 0).
  - intros [Hfr Ht]%done_fr. split.
    + eapply fr_trans; [apply fr_setObj|done].
    + exists []. rewrite Ht, app_nil_r. split; [done|].
      by intros ? ?%not_elem_of_nil.
  - destruct (saveBest _) as [g1 w1] eqn:H1.
    apply saveBest_world in H1 as (Hh1 & Hc1 & Ht1).
    intros [= <-]. split; [apply fr_setObj_of; congruence|].
    eexists [_]. cbn. rewrite Ht1. split; [done|].
    by intros t ->%list_elem_of_singleton.
Qed.

Lemma drop_fr r c w w' a :
  drop rnd r c w = Ok w' → current w = Some a →
  fr a w w' ∧ ∃ ts, timers w' = timers w ++ ts ∧ ∀ t, t ∈ ts → t_game t = a.
Proof.
  assert (Hsame : fr a w w ∧
            ∃ ts, timers w = timers w ++ ts ∧ ∀ t, t ∈ ts → t_game t = a).
  { split; [done|]. exists []. rewrite app_nil_r. split; [done|].
    by intros ? ?%not_elem_of_nil. }
  unfold drop. intros Hd Hcur. rewrite Hcur in Hd.
  destruct (getObj a w) as [g|]; [|done]. cbn [mbind result_bind] in Hd.
  destruct (placing g); [by simplify_eq|].
  destruct (selIdx g) as [i|]; [|by simplify_eq].
  destruct (zlookup (pieces g) i) as [[p|]|]; try done.
  destruct (canPlace p r c (grid g)) as [[ok grid']|]; [|done].
  cbn [mbind result_bind] in Hd. destruct ok; cbn [negb] in Hd.
  - destruct (place _ _ _ _ _) as [g1|]; [|done]. cbn in Hd.
    apply clearLines_fr in Hd as [Hfr Hts]. split; [|done].
    eapply fr_trans; [apply fr_setObj|done].
  - injection Hd as <-. split; [apply fr_setObj|]. exists [].
    rewrite app_nil_r. split; [done|]. by intros ? ?%not_elem_of_nil.
Qed.

Lemma timerFire_fr i w w' t :
  timerFire rnd i w = Ok w' → timers w !! i = Some t →
  fr (t_game t) w w' ∧ timers w' = delete i (timers w).
Proof.
  unfold timerFire. intros Hf Ht. rewrite Ht in Hf.
  destruct (getObj _ _) as [g|]; [|done]. cbn [mbind result_bind] in Hf.
  destruct (clearCells _ (grid g)) as [[[] grid1]|]; [|done]. cbn in Hf.
  destruct (clearCells _ grid1) as [[[] grid2]|]; [|done]. cbn in Hf.
  apply done_fr in Hf as [Hfr Htim]. split; [|done].
  eapply fr_trans; [|done]. by apply fr_setObj_of.
Qed.

(** The events of the user interface other than [drop]: they touch the
    current object only, and in it only the selection or the hover cell. *)
Lemma ui_step_fr e w w' a :
  step rnd e w = Ok w' →
  match e with
  | SelectPiece _ | Escape | MouseEnter _ _ | MouseLeave => True
  | _ => False
  end →
  current w = Some a →
  fr a w w' ∧ timers w' = timers w ∧
  ∀ g, heap w !! a = Some g →
    ∃ g', heap w' !! a = Some g' ∧
          grid g' = grid g ∧ pieces g' = pieces g ∧ score g' = score g ∧
          placing g' = placing g ∧ gameOverMsg g' = gameOverMsg g.
Proof.
  intros Hstep He Hcur.
  assert (Hsame : fr a w w ∧ timers w = timers w ∧
            ∀ g, heap w !! a = Some g →
              ∃ g', heap w !! a = Some g' ∧
                    grid g' = grid g ∧ pieces g' = pieces g ∧
                    score g' = score g ∧ placing g' = placing g ∧
                    gameOverMsg g' = gameOverMsg g).
  { split; [done|]. split; [done|]. intros g Hg. by exists g. }
  assert (Hset : ∀ g0 g1, heap w !! a = Some g0 →
            grid g1 = grid g0 → pieces g1 = pieces g0 → score g1 = score g0 →
            placing g1 = placing g0 → gameOverMsg g1 = gameOverMsg g0 →
            fr a w (setObj a g1 w) ∧ timers (setObj a g1 w) = timers w ∧
            ∀ g, heap w !! a = Some g →
              ∃ g', heap (setObj a g1 w) !! a = Some g' ∧
                    grid g' = grid g ∧ pieces g' = pieces g ∧
                    score g' = score g ∧ placing g' = placing g ∧
                    gameOverMsg g' = gameOverMsg g).
  { intros g0 g1 Hg0 ? ? ? ? ?. split; [apply fr_setObj|]. split; [done|].
    intros g Hg. simplify_eq. exists g1. split; [|done].
    apply setObj_lookup. by eapply lookup_lt_Some. }
  destruct e; try done; cbn in Hstep.
  - unfold selectPiece in Hstep. rewrite Hcur in Hstep.
    destruct (getObj a w) as [g0|] eqn:Hg0; [|done]. apply getObj_Ok in Hg0.
    cbn [mbind result_bind] in Hstep.
    destruct (zlookup (pieces g0) idx) as [[p|]|]; simplify_eq; try done.
    by apply (Hset g0).
  - unfold escape in Hstep. rewrite Hcur in Hstep.
    destruct (getObj a w) as [g0|] eqn:Hg0; [|done]. apply getObj_Ok in Hg0.
    cbn [mbind result_bind] in Hstep. simplify_eq. by apply (Hset g0).
  - unfold mouseEnter in Hstep. rewrite Hcur in Hstep.
    destruct (getObj a w) as [g0|] eqn:Hg0; [|done]. apply getObj_Ok in Hg0.
    cbn [mbind result_bind] in Hstep.
    destruct (selIdx g0); simplify_eq; [|done]. by apply (Hset g0).
  - unfold mouseLeave in Hstep. rewrite Hcur in Hstep.
    destruct (getObj a w) as [g0|] eqn:Hg0; [|done]. apply getObj_Ok in Hg0.
    cbn [mbind result_bind] in Hstep. simplify_eq. by apply (Hset g0).
Qed.

(** Without a current object the interface does nothing. *)
Lemma step_no_current e w w' :
  step rnd e w = Ok w' →
  match e with StartGame | TimerFire _ => False | _ => True end →
  current w = None → w' = w.
Proof.
  intros Hstep He Hcur. destruct e; try done; cbn in Hstep;
    unfold selectPiece, drop, escape, mouseEnter, mouseLeave in Hstep;
    rewrite Hcur in Hstep; by simplify_eq.
Qed.

Lemma run_reachable es w w' :
  reachable rnd w → run rnd es w = Ok w' → reachable rnd w'.
Proof.
  revert w. induction es as [|e es IH]; intros w Hw; cbn.
  - by intros [= <-].
  - destruct (step rnd e w) as [w1|] eqn:Hstep; [|done]. cbn.
    apply IH. by eapply reach_step.
Qed.

(** ** Game over *)

(** C4. In every reachable world and for every game object: while a
    placement is in flight no game over is declared; once it has completed
    (and the tray was refilled if it had to be), game over is declared
    exactly when [canPlace] is false for every shape still in a tray slot at
    every anchor of [0, 8) x [0, 8). Empty slots play no part. *)
Theorem gameOver_iff_no_legal_anchor w a g :
  reachable rnd w → heap w !! a = Some g →
  (placing g = true → gameOverMsg g = None) ∧
  (placing g = false →
   (is_Some (gameOverMsg g) ↔
    ∀ p r c, Some p ∈ pieces g → 0 ≤ r < 8 → 0 ≤ c < 8 →
             canPlace p r c (grid g) = Ok (false, grid g))).
Proof.
  intros Hreach Ha. apply reachable_inv in Hreach.
  destruct (inv_games w Hreach a g Ha) as [(Hwf & _) Hv].
  unfold verdict_ok in Hv. split; intros Hpl; rewrite Hpl in Hv; [done|].
  rewrite Hv, movable_false. unfold onBoard, GRID_SIZE.
  split; intros H p r c Hp.
  - intros Hr Hc. rewrite canPlace_legal by apply Hwf. by rewrite (H p r c).
  - intros [Hr Hc]. specialize (H p r c Hp Hr Hc).
    rewrite canPlace_legal in H by apply Hwf. congruence.
Qed.

(** ** The tray *)

Lemma done_tray a w w' g :
  heap w !! a = Some g → length (grid g) = 8%nat → done rnd a w = Ok w' →
  ∃ g', heap w' !! a = Some g' ∧
    if allEmpty (pieces g)
    then pieces g' = [randPiece rnd (drawn w); randPiece rnd (S (drawn w));
                      randPiece rnd (S (S (drawn w)))] ∧
         drawn w' = S (S (S (drawn w)))
    else pieces g' = pieces g ∧ drawn w' = drawn w.
Proof.
  intros Ha Hlen Hdone.
  destruct (done_spec a w g Ha Hlen) as (w1 & g' & Hd & Hh & _ & _ & _ & _
    & _ & _ & _ & _ & _ & _ & _ & _ & Hps & _).
  rewrite Hdone in Hd. injection Hd as <-. exists g'. split; [|done].
  rewrite Hh. apply list_lookup_insert_eq. by eapply lookup_lt_Some.
Qed.

Lemma clearLines_tray a w w' g :
  heap w !! a = Some g → wf_grid (grid g) → clearLines rnd a w = Ok w' →
  ∃ g', heap w' !! a = Some g' ∧
    if allEmpty (pieces g)
    then pieces g' = pieces g ∨
         pieces g' = [randPiece rnd (drawn w); randPiece rnd (S (drawn w));
                      randPiece rnd (S (S (drawn w)))]
    else pieces g' = pieces g.
Proof.
  intros Ha Hwf Hclear.
  pose proof (lookup_lt_Some _ _ _ Ha) as Hlt.
  destruct (fullRows_board (grid g) Hwf) as (rows & Hrows & _).
  destruct (decide (Z.of_nat (length rows)
              + Z.of_nat (length (fullCols (grid g) (seqZ 0 GRID_SIZE))) = 0))
    as [Hz|Hnz].
  - rewrite (clearLines_zero a w g rows Ha Hrows Hz) in Hclear.
    eapply (done_tray a _ w' (set_comboText "" (set_streak 0 g)))
      in Hclear as (g' & Hg' & Hps); [|by apply setObj_lookup|apply Hwf].
    exists g'. split; [done|]. cbn in Hps.
    destruct (allEmpty (pieces g)); [right|]; apply Hps.
  - destruct (clearLines_nonzero a w g rows Ha Hrows Hnz)
      as (w1 & g' & Hc & Hh & _ & _ & _ & _ & Hps & _).
    rewrite Hclear in Hc. injection Hc as <-. exists g'. split.
    + rewrite Hh. by apply list_lookup_insert_eq.
    + destruct (allEmpty (pieces g)); [left|]; done.
Qed.

(** What a [drop] that returns has done. *)
Lemma drop_cases r c w w' a g :
  inv w → current w = Some a → heap w !! a = Some g →
  drop rnd r c w = Ok w' →
  w' = w ∨
  ∃ i p g1,
    placing g = false ∧ selIdx g = Some i ∧
    zlookup (pieces g) i = Some (Some p) ∧ p ∈ PIECES ∧
    legal (grid g) p r c = true ∧ place p i r c g = Ok g1 ∧
    clearLines rnd a (setObj a g1 w) = Ok w'.
Proof.
  intros Hinv Hcur Hg. unfold drop. rewrite Hcur, (getObj_Some _ _ _ Hg).
  cbn [mbind result_bind].
  destruct (placing g) eqn:Hpl; [intros [= <-]; by left|].
  destruct (selIdx g) as [i|] eqn:Hsel; [|intros [= <-]; by left].
  destruct (zlookup (pieces g) i) as [[p|]|] eqn:Hslot; try done.
  destruct (inv_games w Hinv a g Hg) as [(Hwf & Hlen & Hcat & Hs) Hv].
  rewrite canPlace_legal by apply Hwf. cbn [mbind result_bind].
  rewrite set_grid_id.
  destruct (legal (grid g) p r c) eqn:Hlegal; cbn [negb]; cycle 1.
  { rewrite setObj_id by done. intros [= <-]. by left. }
  intros Hdrop. right.
  assert (Hp : p ∈ PIECES).
  { apply Hcat. apply zlookup_Some in Hslot as [_ Hslot].
    by eapply list_elem_of_lookup_2. }
  destruct (place_spec p i r c g Hwf (catalog_shape_ok p Hp) Hslot Hlegal)
    as (g1 & Hplace & _).
  rewrite Hplace in Hdrop. cbn [mbind result_bind] in Hdrop.
  by exists i, p, g1.
Qed.

(** C6. In every reachable world and for every game object: the completion
    callback draws three fresh shapes for the tray exactly when all its
    slots are empty, and leaves the tray as it is otherwise; and over any
    event a tray either stays as it is, or has one slot emptied by a
    placement, or is replaced by three fresh draws, which happens only from
    a tray whose slots were all empty just before. No slot is ever filled on
    its own. *)
Theorem refill_iff_tray_empty w a g :
  reachable rnd w → heap w !! a = Some g →
  (∃ w' g',
     done rnd a w = Ok w' ∧ heap w' !! a = Some g' ∧
     (((∀ x, x ∈ pieces g → x = None) ∧
       pieces g' = [randPiece rnd (drawn w); randPiece rnd (S (drawn w));
                    randPiece rnd (S (S (drawn w)))] ∧
       drawn w' = S (S (S (drawn w)))) ∨
      ((∃ p, Some p ∈ pieces g) ∧
       pieces g' = pieces g ∧ drawn w' = drawn w))) ∧
  (∀ e w', step rnd e w = Ok w' →
     ∃ g', heap w' !! a = Some g' ∧
       (pieces g' = pieces g ∨
        (∃ i p, zlookup (pieces g) i = Some (Some p) ∧
                pieces g' = <[Z.to_nat i := None]> (pieces g)) ∨
        (∃ ps0,
           (ps0 = pieces g ∨
            ∃ i p, zlookup (pieces g) i = Some (Some p) ∧
                   ps0 = <[Z.to_nat i := None]> (pieces g)) ∧
           (∀ x, x ∈ ps0 → x = None) ∧
           pieces g' = [randPiece rnd (drawn w); randPiece rnd (S (drawn w));
                        randPiece rnd (S (S (drawn w)))]))).
Proof.
  intros Hreach Ha. apply reachable_inv in Hreach as Hinv.
  destruct (inv_games w Hinv a g Ha) as [(Hwf & Hlen & Hcat & Hs) Hv].
  pose proof (lookup_lt_Some _ _ _ Ha) as Hlt.
  split.
  { destruct (done_spec a w g Ha) as (w' & g' & Hd & Hh & _ & _ & _ & _
      & _ & _ & _ & _ & _ & _ & _ & _ & Hps & _); [apply Hwf|].
    exists w', g'. split; [done|]. split.
    { rewrite Hh. by apply list_lookup_insert_eq. }
    destruct (allEmpty (pieces g)) eqn:He.
    - left. split; [by apply allEmpty_true|done].
    - right. split; [by apply allEmpty_false|done]. }
  assert (Hkeep : ∀ w', heap w' !! a = heap w !! a →
            ∃ g', heap w' !! a = Some g' ∧
              (pieces g' = pieces g ∨
               (∃ i p, zlookup (pieces g) i = Some (Some p) ∧
                       pieces g' = <[Z.to_nat i := None]> (pieces g)) ∨
               (∃ ps0,
                  (ps0 = pieces g ∨
                   ∃ i p, zlookup (pieces g) i = Some (Some p) ∧
                          ps0 = <[Z.to_nat i := None]> (pieces g)) ∧
                  (∀ x, x ∈ ps0 → x = None) ∧
                  pieces g' = [randPiece rnd (drawn w);
                               randPiece rnd (S (drawn w));
                               randPiece rnd (S (S (drawn w)))]))).
  { intros w' Hw'. exists g. split; [by rewrite Hw'|by left]. }
  intros e w' Hstep.
  destruct e as [|idx|r c| |r c| |i].
  - (* StartGame *)
    cbn [step] in Hstep. injection Hstep as <-. apply Hkeep.
    rewrite startGame_unfold. cbn. by rewrite lookup_app_l.
  - (* SelectPiece *)
    destruct (current w) as [b|] eqn:Hcur;
      [|rewrite (step_no_current _ w w' Hstep I Hcur); by apply Hkeep].
    destruct (ui_step_fr _ w w' b Hstep I Hcur) as ((_ & _ & Hfr) & _ & Hobj).
    destruct (decide (a = b)) as [<-|Hne]; [|by apply Hkeep, Hfr].
    destruct (Hobj g Ha) as (g' & Hg' & _ & Hps & _). exists g'. auto.
  - (* Drop *)
    destruct (current w) as [b|] eqn:Hcur;
      [|rewrite (step_no_current _ w w' Hstep I Hcur); by apply Hkeep].
    destruct (decide (a = b)) as [<-|Hne]; cycle 1.
    { destruct (drop_fr r c w w' b Hstep Hcur) as ((_ & _ & Hfr) & _).
      by apply Hkeep, Hfr. }
    destruct (drop_cases r c w w' a g Hinv Hcur Ha Hstep)
      as [->|(i & p & g1 & Hpl & Hsel & Hslot & Hp & Hlegal & Hplace & Hcl)];
      [by apply Hkeep|].
    destruct (place_spec p i r c g Hwf (catalog_shape_ok p Hp) Hslot Hlegal)
      as (g1' & Hplace' & Hwf1 & _ & _ & Hps1 & _).
    rewrite Hplace in Hplace'. injection Hplace' as <-.
    eapply (clearLines_tray a _ w' g1) in Hcl as (g' & Hg' & Hps);
      [|by apply setObj_lookup|done].
    exists g'. split; [done|]. rewrite Hps1 in Hps.
    destruct (allEmpty _) eqn:He; [destruct Hps as [Hps|Hps]|].
    + right. left. by exists i, p.
    + right. right. exists (<[Z.to_nat i := None]> (pieces g)).
      split; [right; by exists i, p|]. split; [by apply allEmpty_true|done].
    + right. left. by exists i, p.
  - (* Escape *)
    destruct (current w) as [b|] eqn:Hcur;
      [|rewrite (step_no_current _ w w' Hstep I Hcur); by apply Hkeep].
    destruct (ui_step_fr _ w w' b Hstep I Hcur) as ((_ & _ & Hfr) & _ & Hobj).
    destruct (decide (a = b)) as [<-|Hne]; [|by apply Hkeep, Hfr].
    destruct (Hobj g Ha) as (g' & Hg' & _ & Hps & _). exists g'. auto.
  - (* MouseEnter *)
    destruct (current w) as [b|] eqn:Hcur;
      [|rewrite (step_no_current _ w w' Hstep I Hcur); by apply Hkeep].
    destruct (ui_step_fr _ w w' b Hstep I Hcur) as ((_ & _ & Hfr) & _ & Hobj).
    destruct (decide (a = b)) as [<-|Hne]; [|by apply Hkeep, Hfr].
    destruct (Hobj g Ha) as (g' & Hg' & _ & Hps & _). exists g'. auto.
  - (* MouseLeave *)
    destruct (current w) as [b|] eqn:Hcur;
      [|rewrite (step_no_current _ w w' Hstep I Hcur); by apply Hkeep].
    destruct (ui_step_fr _ w w' b Hstep I Hcur) as ((_ & _ & Hfr) & _ & Hobj).
    destruct (decide (a = b)) as [<-|Hne]; [|by apply Hkeep, Hfr].
    destruct (Hobj g Ha) as (g' & Hg' & _ & Hps & _). exists g'. auto.
  - (* TimerFire *)
    cbn in Hstep. destruct (timers w !! i) as [t|] eqn:Ht; cycle 1.
    { unfold timerFire in Hstep. rewrite Ht in Hstep. injection Hstep as <-.
      by apply Hkeep. }
    destruct (decide (a = t_game t)) as [->|Hne]; cycle 1.
    { destruct (timerFire_fr i w w' t Hstep Ht) as ((_ & _ & Hfr) & _).
      by apply Hkeep, Hfr. }
    destruct (inv_timers w Hinv t) as [_ [Hrows Hcols]].
    { by eapply list_elem_of_lookup_2. }
    destruct (clear_lines_grid (t_rows t) (t_cols t) (grid g) Hwf Hrows Hcols)
      as (grid1 & grid2 & H1 & H2 & Hwf2 & _).
    rewrite (timerFire_unfold i w t g grid1 grid2 Ht Ha H1 H2) in Hstep.
    eapply (done_tray (t_game t) _ w'
              (set_comboText "" (set_flashCells ∅ (set_grid grid2 g))))
      in Hstep as (g' & Hg' & Hps);
      [|by apply setObj_lookup|apply Hwf2].
    exists g'. split; [done|]. cbn in Hps.
    destruct (allEmpty (pieces g)) eqn:He; destruct Hps as [Hps _].
    + right. right. exists (pieces g). split; [by left|].
      split; [by apply allEmpty_true|done].
    + by left.
Qed.

(** ** No fault from a reachable world *)

Lemma done_total a w g :
  heap w !! a = Some g → wf_grid (grid g) → ∃ w', done rnd a w = Ok w'.
Proof.
  intros Ha Hwf. destruct (done_spec a w g Ha) as (w' & _ & Hd & _); eauto.
  apply Hwf.
Qed.

Lemma clearLines_total a w g :
  heap w !! a = Some g → wf_grid (grid g) → ∃ w', clearLines rnd a w = Ok w'.
Proof.
  intros Ha Hwf. pose proof (lookup_lt_Some _ _ _ Ha) as Hlt.
  destruct (fullRows_board (grid g) Hwf) as (rows & Hrows & _).
  destruct (decide (Z.of_nat (length rows)
              + Z.of_nat (length (fullCols (grid g) (seqZ 0 GRID_SIZE))) = 0))
    as [Hz|Hnz].
  - rewrite (clearLines_zero a w g rows Ha Hrows Hz).
    eapply (done_total a _ (set_comboText "" (set_streak 0 g)));
      [by apply setObj_lookup|apply Hwf].
  - destruct (clearLines_nonzero a w g rows Ha Hrows Hnz) as (w' & _ & H & _).
    eauto.
Qed.

Lemma timerFire_total i w : inv w → ∃ w', timerFire rnd i w = Ok w'.
Proof.
  intros Hinv. destruct (timers w !! i) as [t|] eqn:Ht; cycle 1.
  { exists w. unfold timerFire. by rewrite Ht. }
  destruct (inv_timers w Hinv t) as [(g & Hg & Hpl) [Hrows Hcols]].
  { by eapply list_elem_of_lookup_2. }
  destruct (inv_games w Hinv _ g Hg) as [(Hwf & _) _].
  destruct (clear_lines_grid (t_rows t) (t_cols t) (grid g) Hwf Hrows Hcols)
    as (grid1 & grid2 & H1 & H2 & Hwf2 & _).
  rewrite (timerFire_unfold i w t g grid1 grid2 Ht Hg H1 H2).
  eapply (done_total _ _
            (set_comboText "" (set_flashCells ∅ (set_grid grid2 g))));
    [|exact Hwf2].
  apply setObj_lookup. cbn. by eapply lookup_lt_Some.
Qed.

Lemma drop_total r c w : inv w → ∃ w', drop rnd r c w = Ok w'.
Proof.
  intros Hinv. unfold drop.
  destruct (current w) as [a|] eqn:Hcur; [|by eexists].
  pose proof (inv_current w Hinv a Hcur) as Hlt.
  destruct (lookup_lt_is_Some_2 _ _ Hlt) as [g Hg].
  rewrite (getObj_Some _ _ _ Hg). cbn [mbind result_bind].
  destruct (placing g) eqn:Hpl; [by eexists|].
  destruct (selIdx g) as [i|] eqn:Hsel; [|by eexists].
  destruct (inv_games w Hinv a g Hg) as [(Hwf & Hlen & Hcat & Hs) Hv].
  destruct (Hs i Hsel) as [p Hslot]. rewrite Hslot.
  rewrite canPlace_legal by apply Hwf. cbn [mbind result_bind].
  destruct (legal (grid g) p r c) eqn:Hlegal; cbn [negb]; [|by eexists].
  assert (Hp : p ∈ PIECES).
  { apply Hcat. apply zlookup_Some in Hslot as [_ Hslot].
    by eapply list_elem_of_lookup_2. }
  rewrite set_grid_id.
  destruct (place_spec p i r c g Hwf (catalog_shape_ok p Hp) Hslot Hlegal)
    as (g1 & -> & Hwf1 & _).
  cbn [mbind result_bind]. eapply clearLines_total; [|exact Hwf1].
  by apply setObj_lookup.
Qed.

(** Every event is accepted in every world that satisfies the invariants:
    the engine never throws there. *)
Lemma step_total e w : inv w → ∃ w', step rnd e w = Ok w'.
Proof.
  intros Hinv.
  assert (Hobj : ∀ a, current w = Some a → ∃ g, getObj a w = Ok g).
  { intros a Hcur. pose proof (inv_current w Hinv a Hcur) as Hlt.
    destruct (lookup_lt_is_Some_2 _ _ Hlt) as [g Hg]. exists g.
    by apply getObj_Some. }
  destruct e; cbn [step].
  - by eexists.
  - unfold selectPiece. destruct (current w) as [a|]; [|by eexists].
    destruct (Hobj a eq_refl) as [g ->]. cbn.
    destruct (zlookup _ _) as [[?|]|]; by eexists.
  - by apply drop_total.
  - unfold escape. destruct (current w) as [a|]; [|by eexists].
    destruct (Hobj a eq_refl) as [g ->]. by eexists.
  - unfold mouseEnter. destruct (current w) as [a|]; [|by eexists].
    destruct (Hobj a eq_refl) as [g ->]. cbn. destruct (selIdx g); by eexists.
  - unfold mouseLeave. destruct (current w) as [a|]; [|by eexists].
    destruct (Hobj a eq_refl) as [g ->]. by eexists.
  - by apply timerFire_total.
Qed.

(** ** Starting over *)

(** Over an event, [G.current] stays or moves to a fresh address. *)
Lemma step_current e w w' :
  inv w → step rnd e w = Ok w' →
  (length (heap w) ≤ length (heap w'))%nat ∧
  (current w' = current w ∨ current w' = Some (length (heap w))).
Proof.
  intros Hinv Hstep.
  assert (Hfr : ∀ a, fr a w w' →
            (length (heap w) ≤ length (heap w'))%nat ∧
            (current w' = current w ∨ current w' = Some (length (heap w)))).
  { intros a (Hc & Hl & _). split; [lia|by left]. }
  destruct (current w) as [a|] eqn:Hcur.
  - destruct e.
    + cbn [step] in Hstep. injection Hstep as <-. rewrite startGame_unfold.
      cbn. rewrite length_app. split; [lia|by right].
    + by destruct (ui_step_fr _ w w' a Hstep I Hcur) as (?%Hfr & _).
    + by destruct (drop_fr r c w w' a Hstep Hcur) as (?%Hfr & _).
    + by destruct (ui_step_fr _ w w' a Hstep I Hcur) as (?%Hfr & _).
    + by destruct (ui_step_fr _ w w' a Hstep I Hcur) as (?%Hfr & _).
    + by destruct (ui_step_fr _ w w' a Hstep I Hcur) as (?%Hfr & _).
    + cbn [step] in Hstep. destruct (timers w !! i) as [t|] eqn:Ht.
      * by destruct (timerFire_fr i w w' t Hstep Ht) as (?%Hfr & _).
      * unfold timerFire in Hstep. rewrite Ht in Hstep.
        injection Hstep as <-. split; [lia|by left].
  - destruct e;
      try (rewrite (step_no_current _ w w' Hstep I Hcur), Hcur;
           split; [lia|by left]).
    + cbn [step] in Hstep. injection Hstep as <-. rewrite startGame_unfold.
      cbn. rewrite length_app. split; [lia|by right].
    + cbn [step] in Hstep. destruct (timers w !! i) as [t|] eqn:Ht.
      * by destruct (timerFire_fr i w w' t Hstep Ht) as (?%Hfr & _).
      * unfold timerFire in Hstep. rewrite Ht in Hstep.
        injection Hstep as <-. rewrite ?Hcur. split; [lia|by left].
Qed.

(** Once [G.current] is at or past [n], it stays so. *)
Lemma run_current es w w' n :
  inv w → run rnd es w = Ok w' →
  (∃ a, current w = Some a ∧ (n ≤ a)%nat) →
  ∃ a, current w' = Some a ∧ (n ≤ a)%nat.
Proof.
  revert w. induction es as [|e es IH]; intros w Hinv Hrun Hcur; cbn in Hrun.
  - by injection Hrun as <-.
  - destruct (step rnd e w) as [w1|] eqn:Hstep; [|done].
    cbn [mbind result_bind] in Hrun.
    apply (IH w1); [by eapply inv_step|done|].
    destruct Hcur as (a & Ha & Hn).
    destruct (step_current e w w1 Hinv Hstep) as [_ [Hc|Hc]].
    + exists a. by rewrite Hc.
    + exists (length (heap w)). split; [done|].
      pose proof (inv_current w Hinv a Ha). lia.
Qed.

(** C9. A clear callback is pending in a reachable world when a new game is
    started; any events later, the callback fires. It returns, [G.current]
    is still the object of a game started since, and no object allocated
    since the restart has changed in any component: grid, tray, score and
    game-over message of the new game are what they were. *)
Theorem stale_timer_spares_new_game w i t es w1 j :
  reachable rnd w → timers w !! i = Some t →
  run rnd es (startGame rnd w) = Ok w1 → timers w1 !! j = Some t →
  ∃ w2,
    timerFire rnd j w1 = Ok w2 ∧
    current w2 = current w1 ∧
    (∃ a, current w1 = Some a ∧ (length (heap w) ≤ a)%nat) ∧
    ∀ a, (length (heap w) ≤ a)%nat → heap w2 !! a = heap w1 !! a.
Proof.
  intros Hreach Ht Hrun Ht1.
  pose proof (reachable_inv w Hreach) as Hinv.
  assert (Hreach0 : reachable rnd (startGame rnd w)).
  { by apply (reach_step rnd StartGame w). }
  pose proof (reachable_inv _ Hreach0) as Hinv0.
  pose proof (reachable_inv _ (run_reachable es _ w1 Hreach0 Hrun)) as Hinv1.
  destruct (inv_timers w Hinv t) as [(g & Hg & _) _].
  { by eapply list_elem_of_lookup_2. }
  apply lookup_lt_Some in Hg.
  destruct (timerFire_total j w1 Hinv1) as [w2 Hfire]. exists w2.
  destruct (timerFire_fr j w1 w2 t Hfire Ht1) as [(Hcur & _ & Hfr) _].
  split; [done|]. split; [done|]. split.
  - apply (run_current es (startGame rnd w) w1); [done|done|].
    exists (length (heap w)). by rewrite startGame_unfold.
  - intros a Ha. apply Hfr. lia.
Qed.


End Properties.

(** * The sample game as an instance of each statement *)

Example sample_game_runs :
  run bars [StartGame; SelectPiece 0] (initWorld None) = Ok firstSelected ∧
  run bars [Drop 0 0; SelectPiece 1] firstSelected = Ok secondSelected ∧
  run bars [Drop 0 4] secondSelected = Ok clearPending ∧
  clearLines bars 0 rowPlaced = Ok clearPending.
Proof. repeat split; vm_compute; reflexivity. Qed.

(** When the timer fires, row 0 is emptied and the placement is over. *)
Example sample_game_clears :
  (w ← timerFire bars 0 clearPending;
   g ← getObj 0 w;
   Ok (grid g, score g, streak g, placing g, timers w))
  = Ok (makeGrid, 88, 1, false, []).
Proof. vm_compute. reflexivity. Qed.

Lemma canPlace_iff_all_free_witness :
  wf_grid (demoGrid 4) ∧
  ∃ b, canPlace bar4 0 4 (demoGrid 4) = Ok (b, demoGrid 4) ∧
       (b = true ↔
        ∀ dr dc, (dr, dc) ∈ cells bar4 →
          0 ≤ 0 + dr < 8 ∧ 0 ≤ 4 + dc < 8 ∧
          cellOf (demoGrid 4) (0 + dr) (4 + dc) = None).
Proof.
  assert (Hwf : wf_grid (demoGrid 4)).
  { apply (bool_decide_unpack _). vm_compute. exact I. }
  exact (conj Hwf (canPlace_iff_all_free (demoGrid 4) bar4 0 4 Hwf)).
Defined.

Lemma clearLines_streak_and_bonus_witness :
  let g := demoGame 8 [None; None; Some bar4] None true 8 4 in
  heap rowPlaced !! 0%nat = Some g ∧ wf_grid (grid g) ∧
  ∃ rows w' g',
    fullRows (grid g) (seqZ 0 GRID_SIZE) = Ok rows ∧
    clearLines bars 0 rowPlaced = Ok w' ∧ heap w' !! 0%nat = Some g' ∧
    let cols := fullCols (grid g) (seqZ 0 GRID_SIZE) in
    let count := Z.of_nat (length rows) + Z.of_nat (length cols) in
    NoDup rows ∧ NoDup cols ∧
    (∀ r, r ∈ rows ↔ 0 ≤ r < 8 ∧ rowFilled (grid g) r) ∧
    (∀ c, c ∈ cols ↔ 0 ≤ c < 8 ∧ colFilled (grid g) c) ∧
    if count =? 0 then
      streak g' = 0 ∧ score g' = score g ∧
      linesCleared g' = linesCleared g ∧ grid g' = grid g ∧
      timers w' = timers rowPlaced
    else
      streak g' = streak g + 1 ∧
      score g' = score g + count * 8 * 10 *
                   (if streak g' >? 1 then streak g' else 1) ∧
      linesCleared g' = linesCleared g + count.
Proof.
  intros g.
  assert (Hwf : wf_grid (grid g)).
  { apply (bool_decide_unpack _). vm_compute. exact I. }
  exact (conj eq_refl
           (conj Hwf (clearLines_streak_and_bonus bars 0 rowPlaced g eq_refl Hwf))).
Defined.


Lemma gameOver_iff_no_legal_anchor_witness :
  let g := demoGame 4 [None; Some bar4; Some bar4] (Some 1) false 4 4 in
  (∀ n, 0 ≤ bars n < Z.of_nat (length PIECES)) ∧
  reachable bars secondSelected ∧
  heap secondSelected !! 0%nat = Some g ∧
  (placing g = true → gameOverMsg g = None) ∧
  (placing g = false →
   (is_Some (gameOverMsg g) ↔
    ∀ p r c, Some p ∈ pieces g → 0 ≤ r < 8 → 0 ≤ c < 8 →
             canPlace p r c (grid g) = Ok (false, grid g))).
Proof.
  intros g.
  assert (Hrange : ∀ n, 0 ≤ bars n < Z.of_nat (length PIECES)).
  { intros n. unfold bars. cbn. lia. }
  assert (Hreach : reachable bars secondSelected).
  { apply (run_reachable bars
             [StartGame; SelectPiece 0; Drop 0 0; SelectPiece 1]
             (initWorld None)); [apply reach_init|].
    vm_compute. reflexivity. }
  exact (conj Hrange
           (conj Hreach
              (conj eq_refl
                 (gameOver_iff_no_legal_anchor bars Hrange secondSelected 0 g
                    Hreach eq_refl)))).
Defined.

Lemma drop_places_shape_witness :
  let g := demoGame 0 [Some bar4; Some bar4; Some bar4] (Some 0) false 0 0 in
  current firstSelected = Some 0%nat ∧
  heap firstSelected !! 0%nat = Some g ∧ wf_grid (grid g) ∧
  bar4 ∈ PIECES ∧ placing g = false ∧ selIdx g = Some 0 ∧
  zlookup (pieces g) 0 = Some (Some bar4) ∧
  canPlace bar4 0 0 (grid g) = Ok (true, grid g) ∧
  ∃ g1,
    place bar4 0 0 0 g = Ok g1 ∧
    drop bars 0 0 firstSelected = clearLines bars 0 (setObj 0 g1 firstSelected) ∧
    length (newlyFilled (grid g) (grid g1)) = length (cells bar4) ∧
    (∀ r' c', (r', c') ∉ newlyFilled (grid g) (grid g1) →
              cellOf (grid g1) r' c' = cellOf (grid g) r' c') ∧
    score g1 = score g + Z.of_nat (length (cells bar4)) ∧
    zlookup (pieces g1) 0 = Some None ∧
    (∀ j, j ≠ 0 → zlookup (pieces g1) j = zlookup (pieces g) j) ∧
    selIdx g1 = None.
Proof.
  intros g.
  assert (Hwf : wf_grid (grid g)).
  { apply (bool_decide_unpack _). vm_compute. exact I. }
  assert (Hin : bar4 ∈ PIECES).
  { apply (bool_decide_unpack _). vm_compute. exact I. }
  repeat (split; [first [exact Hwf | exact Hin | reflexivity]|]).
  exact (drop_places_shape bars 0 0 firstSelected 0 g 0 bar4
           eq_refl eq_refl Hwf Hin eq_refl eq_refl eq_refl eq_refl).
Defined.

Lemma refill_iff_tray_empty_witness :
  let g := demoGame 4 [None; Some bar4; Some bar4] (Some 1) false 4 4 in
  let w := secondSelected in
  (∀ n, 0 ≤ bars n < Z.of_nat (length PIECES)) ∧
  reachable bars w ∧ heap w !! 0%nat = Some g ∧
  (∃ w' g',
     done bars 0 w = Ok w' ∧ heap w' !! 0%nat = Some g' ∧
     (((∀ x, x ∈ pieces g → x = None) ∧
       pieces g' = [randPiece bars (drawn w); randPiece bars (S (drawn w));
                    randPiece bars (S (S (drawn w)))] ∧
       drawn w' = S (S (S (drawn w)))) ∨
      ((∃ p, Some p ∈ pieces g) ∧
       pieces g' = pieces g ∧ drawn w' = drawn w))) ∧
  (∀ e w', step bars e w = Ok w' →
     ∃ g', heap w' !! 0%nat = Some g' ∧
       (pieces g' = pieces g ∨
        (∃ i p, zlookup (pieces g) i = Some (Some p) ∧
                pieces g' = <[Z.to_nat i := None]> (pieces g)) ∨
        (∃ ps0,
           (ps0 = pieces g ∨
            ∃ i p, zlookup (pieces g) i = Some (Some p) ∧
                   ps0 = <[Z.to_nat i := None]> (pieces g)) ∧
           (∀ x, x ∈ ps0 → x = None) ∧
           pieces g' = [randPiece bars (drawn w); randPiece bars (S (drawn w));
                        randPiece bars (S (S (drawn w)))]))).
Proof.
  intros g w.
  assert (Hrange : ∀ n, 0 ≤ bars n < Z.of_nat (length PIECES)).
  { intros n. unfold bars. cbn. lia. }
  assert (Hreach : reachable bars w).
  { apply (run_reachable bars
             [StartGame; SelectPiece 0; Drop 0 0; SelectPiece 1]
             (initWorld None)); [apply reach_init|].
    vm_compute. reflexivity. }
  exact (conj Hrange
           (conj Hreach
              (conj eq_refl
                 (refill_iff_tray_empty bars Hrange w 0 g Hreach eq_refl)))).
Defined.


(** [selectPiece] is live during a placement: in the sample game, while the
    clear of row 0 is pending and [placing] is true, [selectPiece(2)] selects
    the third slot, so the world it returns is not the one it was given. *)
Lemma selectPiece_live_while_placing :
  run bars [StartGame; SelectPiece 0; Drop 0 0; SelectPiece 1; Drop 0 4]
    (initWorld None) = Ok clearPending ∧
  current clearPending = Some 0%nat ∧
  placing <$> heap clearPending !! 0%nat = Some true ∧
  (selIdx <$> heap clearPending !! 0%nat) = Some None ∧
  (w' ← selectPiece 2 clearPending; Ok (selIdx <$> heap w' !! 0%nat))
  = Ok (Some (Some 2)) ∧
  selectPiece 2 clearPending ≠ Ok clearPending.
Proof.
  repeat split; try (vm_compute; reflexivity).
  intros H. vm_compute in H. discriminate H.
Qed.

Lemma drop_illegal_noop_witness :
  let g := demoGame 0 [Some bar4; Some bar4; Some bar4] (Some 0) false 0 0 in
  current firstSelected = Some 0%nat ∧
  heap firstSelected !! 0%nat = Some g ∧
  selIdx g = Some 0 ∧ zlookup (pieces g) 0 = Some (Some bar4) ∧
  canPlace bar4 0 5 (grid g) = Ok (false, grid g) ∧
  drop bars 0 5 firstSelected = Ok firstSelected.
Proof.
  intros g. repeat (split; [reflexivity|]).
  exact (drop_illegal_noop bars 0 5 firstSelected 0 g 0 bar4
           eq_refl eq_refl eq_refl eq_refl eq_refl).
Defined.

Lemma stale_timer_spares_new_game_witness :
  let w := clearPending in
  let t := mkTimer 0 [0] [] in
  (∀ n, 0 ≤ bars n < Z.of_nat (length PIECES)) ∧
  reachable bars w ∧ timers w !! 0%nat = Some t ∧
  ∃ w1,
    run bars [SelectPiece 0; Drop 0 0] (startGame bars w) = Ok w1 ∧
    timers w1 !! 0%nat = Some t ∧
    ∃ w2,
      timerFire bars 0 w1 = Ok w2 ∧
      current w2 = current w1 ∧
      (∃ a, current w1 = Some a ∧ (length (heap w) ≤ a)%nat) ∧
      ∀ a, (length (heap w) ≤ a)%nat → heap w2 !! a = heap w1 !! a.
Proof.
  intros w t.
  assert (Hrange : ∀ n, 0 ≤ bars n < Z.of_nat (length PIECES)).
  { intros n. unfold bars. cbn. lia. }
  assert (Hreach : reachable bars w).
  { apply (run_reachable bars
             [StartGame; SelectPiece 0; Drop 0 0; SelectPiece 1; Drop 0 4]
             (initWorld None)); [apply reach_init|].
    vm_compute. reflexivity. }
  split; [exact Hrange|]. split; [exact Hreach|]. split; [reflexivity|].
  eexists. split; [vm_compute; reflexivity|]. split; [reflexivity|].
  eapply (stale_timer_spares_new_game bars Hrange w 0 t
            [SelectPiece 0; Drop 0 0] _ 0 Hreach eq_refl);
    [vm_compute; reflexivity|reflexivity].
Defined.

(** * Further properties of the engine *)

Lemma NoDup_fmap_eq {A B} (f : A → B) (l : list A) x y :
  NoDup (f <$> l) → x ∈ l → y ∈ l → f x = f y → x = y.
Proof.
  induction l as [|z l IH]; [by intros _ ?%not_elem_of_nil|].
  rewrite fmap_cons, NoDup_cons, !elem_of_cons.
  intros [Hz Hnd] [->|Hx] [->|Hy] Heq; auto.
  - destruct Hz. rewrite Heq. by apply list_elem_of_fmap_2.
  - destruct Hz. rewrite <- Heq. by apply list_elem_of_fmap_2.
Qed.

Lemma elem_of_delete_ne {A} (l : list A) i x y :
  l !! i = Some x → y ∈ l → y ≠ x → y ∈ delete i l.
Proof.
  intros Hx Hy Hne. rewrite <- (take_drop_middle l i x Hx) in Hy.
  rewrite delete_take_drop. apply elem_of_app.
  apply elem_of_app in Hy as [Hy|Hy]; [by left|].
  apply elem_of_cons in Hy as [Hy|Hy]; [done|by right].
Qed.

Section More.

Variable rnd : nat → Z.

(** ** The operations in full *)

(** Everything [done] does to the object at [a] and to the store. *)
Lemma done_full a w g :
  heap w !! a = Some g → length (grid g) = 8%nat →
  ∃ w' g',
    done rnd a w = Ok w' ∧
    heap w' = <[a := g']> (heap w) ∧ current w' = current w ∧
    timers w' = timers w ∧
    grid g' = grid g ∧ score g' = score g ∧ streak g' = streak g ∧
    linesCleared g' = linesCleared g ∧ selIdx g' = selIdx g ∧
    hoverR g' = hoverR g ∧ hoverC g' = hoverC g ∧
    flashCells g' = flashCells g ∧ comboText g' = comboText g ∧
    placing g' = false ∧
    best g' = Z.max (best g) (score g) ∧
    storage w' = (if score g >? best g then Some (score g) else storage w) ∧
    gameOverMsg g'
    = (if movable (grid g) (pieces g') then gameOverMsg g
       else Some (mkGameOverMsg (score g)
                    ((best g <=? score g) && (score g >? 0)))).
Proof.
  intros Ha Hlen. unfold done. rewrite (getObj_Some _ _ _ Ha).
  cbn [mbind result_bind]. unfold refill, saveBest, drawThree. cbn.
  destruct (allEmpty (pieces g)) eqn:He; cbn;
    destruct (score g >? best g) eqn:Hs; cbn;
    rewrite hasAnyMove_movable by done; cbn;
    (destruct (movable (grid g) _) eqn:Hm; cbn;
     rewrite ?Z.gtb_ltb, ?Z.ltb_irrefl, <- ?Z.gtb_ltb, ?Hs;
     eexists _, _; (split; [reflexivity|]); (split; [reflexivity|]);
     cbn; rewrite ?Hm; repeat split; try done; try lia;
     try (f_equal; f_equal; lia)).
Qed.

Lemma clearLines_nonzero_full a w g rows :
  heap w !! a = Some g →
  fullRows (grid g) (seqZ 0 GRID_SIZE) = Ok rows →
  let cols := fullCols (grid g) (seqZ 0 GRID_SIZE) in
  let count := Z.of_nat (length rows) + Z.of_nat (length cols) in
  count ≠ 0 →
  ∃ w' g',
    clearLines rnd a w = Ok w' ∧
    heap w' = <[a := g']> (heap w) ∧ current w' = current w ∧
    timers w' = timers w ++ [mkTimer a rows cols] ∧ drawn w' = drawn w ∧
    grid g' = grid g ∧ pieces g' = pieces g ∧ selIdx g' = selIdx g ∧
    hoverR g' = hoverR g ∧ hoverC g' = hoverC g ∧
    placing g' = placing g ∧ gameOverMsg g' = gameOverMsg g ∧
    flashCells g' = toFlash rows cols ∧
    streak g' = streak g + 1 ∧
    score g' = score g + count * 8 * 10 *
                 (if streak g + 1 >? 1 then streak g + 1 else 1) ∧
    linesCleared g' = linesCleared g + count ∧
    comboText g' = comboLabel (streak g + 1) ∧
    best g' = Z.max (best g) (score g') ∧
    storage w' = (if score g' >? best g then Some (score g') else storage w).
Proof.
  intros Ha Hrows cols count Hcount. unfold clearLines.
  rewrite (getObj_Some _ _ _ Ha). cbn [mbind result_bind]. rewrite Hrows.
  cbn [mbind result_bind]. fold cols. fold count.
  rewrite (proj2 (Z.eqb_neq count 0)) by done.
  unfold saveBest. cbn.
  destruct (_ >? best g) eqn:Hs; eexists _, _; (split; [reflexivity|]);
    (split; [reflexivity|]); cbn; rewrite ?Hs; repeat split; try done; lia.
Qed.

(** The handlers of selection and hover return the world they were given, or
    that world with only the selection and the hover cell of the current
    object set. *)
Lemma ui_step_shape e w w' a g :
  step rnd e w = Ok w' →
  match e with
  | SelectPiece _ | Escape | MouseEnter _ _ | MouseLeave => True
  | _ => False
  end →
  current w = Some a → heap w !! a = Some g →
  ∃ s hr hc, w' = setObj a (set_hover hr hc (set_selIdx s g)) w.
Proof.
  intros Hstep He Hcur Hg.
  assert (Hid : w = setObj a (set_hover (hoverR g) (hoverC g)
                                (set_selIdx (selIdx g) g)) w).
  { rewrite setObj_id; [done|]. by destruct g. }
  destruct e; try done; cbn in Hstep;
    unfold selectPiece, escape, mouseEnter, mouseLeave in Hstep;
    rewrite Hcur, (getObj_Some _ _ _ Hg) in Hstep;
    cbn [mbind result_bind] in Hstep.
  - destruct (zlookup (pieces g) idx) as [[p|]|]; simplify_eq; eauto.
  - simplify_eq. eauto.
  - destruct (selIdx g) eqn:Hs; simplify_eq; eauto.
  - simplify_eq. eauto.
Qed.

(** ** Preservation of the further invariants *)

Lemma cellOf_makeGrid r c : cellOf makeGrid r c = None.
Proof.
  unfold cellOf. destruct (zlookup makeGrid r) as [row|] eqn:Hrow; [|done].
  apply zlookup_Some in Hrow as [_ Hrow].
  apply lookup_replicate in Hrow as [-> _]. cbn.
  destruct (zlookup _ c) as [v|] eqn:Hv; [|done].
  apply zlookup_Some in Hv as [_ Hv]. by apply lookup_replicate in Hv as [-> _].
Qed.

Lemma inv2_init st : inv2 (initWorld st).
Proof. split; cbn; done. Qed.

Lemma inv2_update w w' a g g' :
  inv2 w → heap w !! a = Some g →
  heap w' = <[a := g']> (heap w) → current w' = current w →
  0 ≤ score g' ∧ 0 ≤ linesCleared g' ∧ 0 ≤ streak g' →
  (if placing g' then pending_ok (timers w') a g' else rest_ok g') →
  (∀ t, t ∈ timers w → t_game t ≠ a → t ∈ timers w') →
  (current w = Some a → best g' = default 0 (storage w')) →
  (current w ≠ Some a → storage w' = storage w) →
  inv2 w'.
Proof.
  intros [Hc Hs Hb] Ha Hh Hcur Hcounts Hstate Htim Hbest Hsto.
  pose proof (lookup_lt_Some _ _ _ Ha) as Hlt.
  split.
  - intros b gb. rewrite Hh. destruct (decide (a = b)) as [<-|Hne].
    + rewrite list_lookup_insert_eq by done. by intros [= <-].
    + rewrite list_lookup_insert_ne by done. apply Hc.
  - intros b gb. rewrite Hh. destruct (decide (a = b)) as [<-|Hne].
    + rewrite list_lookup_insert_eq by done. by intros [= <-].
    + rewrite list_lookup_insert_ne by done. intros Hgb.
      specialize (Hs b gb Hgb). destruct (placing gb); [|done].
      destruct Hs as (t & Hin & Htg & Hrest). exists t.
      split; [|done]. apply Htim; [done|congruence].
  - intros b gb. rewrite Hcur, Hh. intros Hcb.
    destruct (decide (a = b)) as [<-|Hne].
    + rewrite list_lookup_insert_eq by done. intros [= <-]. by apply Hbest.
    + rewrite list_lookup_insert_ne by done. intros Hgb.
      rewrite Hsto by congruence. by apply (Hb b).
Qed.

Lemma inv2_startGame w : inv2 w → inv2 (startGame rnd w).
Proof.
  intros [Hc Hs Hb]. rewrite startGame_unfold. split; cbn.
  - intros a g Ha. apply lookup_app_Some in Ha as [Ha|[_ Ha]]; [by apply (Hc a)|].
    by apply list_lookup_singleton_Some in Ha as [_ <-].
  - intros a g Ha.
    apply lookup_app_Some in Ha as [Ha|[_ Ha]]; [by apply (Hs a)|].
    apply list_lookup_singleton_Some in Ha as [_ <-].
    cbn [placing]. unfold rest_ok. cbn [flashCells comboText grid score best].
    split; [done|]. split; [done|]. split; [|split; [|apply Z.le_max_l]].
    + intros r Hr Hfull. specialize (Hfull 0).
      rewrite cellOf_makeGrid in Hfull. destruct Hfull; [done|done].
    + intros c Hc' Hfull. specialize (Hfull 0).
      rewrite cellOf_makeGrid in Hfull. destruct Hfull; [done|done].
  - intros a g [= <-]. rewrite lookup_app_r, Nat.sub_diag by done.
    by intros [= <-].
Qed.

Lemma inv2_ui e w w' :
  inv2 w → step rnd e w = Ok w' →
  match e with
  | SelectPiece _ | Escape | MouseEnter _ _ | MouseLeave => True
  | _ => False
  end →
  inv2 w'.
Proof.
  intros Hinv2 Hstep He.
  destruct (current w) as [a|] eqn:Hcur; cycle 1.
  { rewrite (step_no_current rnd e w w' Hstep); [done| |done].
    by destruct e. }
  destruct (heap w !! a) as [g|] eqn:Hg; cycle 1.
  { destruct e; try done; cbn in Hstep;
      unfold selectPiece, escape, mouseEnter, mouseLeave, getObj in Hstep;
      by rewrite Hcur, Hg in Hstep. }
  destruct (ui_step_shape e w w' a g Hstep He Hcur Hg) as (s & hr & hc & ->).
  eapply (inv2_update w _ a g); try done.
  - exact (inv2_counts w Hinv2 a g Hg).
  - exact (inv2_state w Hinv2 a g Hg).
  - intros _. exact (inv2_best w Hinv2 a g Hcur Hg).
Qed.

Lemma bonus_nonneg count s :
  0 ≤ count → 0 ≤ count * 8 * 10 * (if s >? 1 then s else 1).
Proof. intros Hc. destruct (s >? 1) eqn:Hs; nia. Qed.

Lemma no_line_after_clear (old new : Grid) (rows cols : list Z) :
  (∀ r c, onBoard r c →
     cellOf new r c
     = if bool_decide (r ∈ rows ∨ c ∈ cols) then None else cellOf old r c) →
  (∀ r, r ∈ rows ↔ 0 ≤ r < GRID_SIZE ∧ rowFilled old r) →
  (∀ c, c ∈ cols ↔ 0 ≤ c < GRID_SIZE ∧ colFilled old c) →
  (∀ r, 0 ≤ r < GRID_SIZE → ¬ rowFilled new r) ∧
  (∀ c, 0 ≤ c < GRID_SIZE → ¬ colFilled new c).
Proof.
  intros Hcell Hrows Hcols.
  assert (H0 : 0 ≤ 0 < GRID_SIZE) by (unfold GRID_SIZE; lia).
  split.
  - intros r Hr Hfull. destruct (decide (r ∈ rows)) as [Hin|Hin].
    + specialize (Hfull 0 H0). rewrite Hcell in Hfull by done.
      rewrite bool_decide_eq_true_2 in Hfull by auto. by destruct Hfull.
    + apply Hin, Hrows. split; [done|]. intros c Hc.
      specialize (Hfull c Hc). rewrite Hcell in Hfull by done.
      case_bool_decide; [by destruct Hfull|done].
  - intros c Hc Hfull. destruct (decide (c ∈ cols)) as [Hin|Hin].
    + specialize (Hfull 0 H0). rewrite Hcell in Hfull by done.
      rewrite bool_decide_eq_true_2 in Hfull by auto. by destruct Hfull.
    + apply Hin, Hcols. split; [done|]. intros r Hr.
      specialize (Hfull r Hr). rewrite Hcell in Hfull by done.
      case_bool_decide; [by destruct Hfull|done].
Qed.

Lemma best_tracks_store (sc bst : Z) (st : option Z) :
  bst = default 0 st →
  Z.max bst sc = default 0 (if sc >? bst then Some sc else st).
Proof. intros ->. destruct (sc >? default 0 st) eqn:Hs; cbn; lia. Qed.

Lemma inv2_drop r c w w' :
  inv w → inv2 w → drop rnd r c w = Ok w' → inv2 w'.
Proof.
  intros Hinv Hinv2 Hdrop.
  destruct (current w) as [a|] eqn:Hcur; cycle 1.
  { by rewrite (step_no_current rnd (Drop r c) w w' Hdrop I Hcur). }
  pose proof (inv_current w Hinv a Hcur) as Hlt.
  destruct (lookup_lt_is_Some_2 _ _ Hlt) as [g Hg].
  destruct (drop_cases rnd r c w w' a g Hinv Hcur Hg Hdrop)
    as [->|(i & p & g1 & Hpl & Hsel & Hslot & Hp & Hlegal & Hplace & Hcl)];
    [done|].
  destruct (inv_games w Hinv a g Hg) as [(Hwf & _) _].
  destruct (inv2_counts w Hinv2 a g Hg) as (Hsc & Hli & Hst).
  pose proof (inv2_state w Hinv2 a g Hg) as Hrest. rewrite Hpl in Hrest.
  destruct Hrest as (Hfl & Hco & _).
  pose proof (inv2_best w Hinv2 a g Hcur Hg) as Hbest.
  destruct (place_spec p i r c g Hwf (catalog_shape_ok p Hp) Hslot Hlegal)
    as (g1' & Hplace' & Hwf1 & _ & Hsc1 & _ & _ & Hpl1 & Hli1 & Hst1 & _ & _
        & Hfl1 & _ & Hco1 & Hb1).
  rewrite Hplace in Hplace'. injection Hplace' as <-.
  destruct (fullRows_board (grid g1) Hwf1) as (rows & Hrows & _ & Hinr).
  destruct (fullCols_board (grid g1) Hwf1) as [_ Hinc].
  assert (Hg1 : heap (setObj a g1 w) !! a = Some g1) by by apply setObj_lookup.
  destruct (decide (Z.of_nat (length rows)
              + Z.of_nat (length (fullCols (grid g1) (seqZ 0 GRID_SIZE))) = 0))
    as [Hz|Hnz].
  - rewrite (clearLines_zero rnd a _ g1 rows Hg1 Hrows Hz) in Hcl.
    destruct (done_full a (setObj a (set_comboText "" (set_streak 0 g1))
                             (setObj a g1 w))
                (set_comboText "" (set_streak 0 g1)))
      as (w1 & g' & Hd & Hh & Hc' & Ht & Hgr & Hsc' & Hst' & Hli' & _ & _ & _
          & Hfl' & Hco' & Hpl' & Hb' & Hsto & _).
    { apply setObj_lookup. cbn. by rewrite length_insert. }
    { apply Hwf1. }
    rewrite Hcl in Hd. injection Hd as <-. cbn in *.
    eapply (inv2_update w w' a g g'); try done.
    + by rewrite Hh, !list_insert_insert_eq.
    + rewrite Hsc', Hli', Hst', Hsc1, Hli1. lia.
    + rewrite Hpl'. unfold rest_ok. rewrite Hfl', Hco', Hgr, Hfl1, Hfl.
      split; [done|]. split; [done|].
      assert (Hrn : rows = []) by (destruct rows; [done|cbn in Hz; lia]).
      assert (Hcn : fullCols (grid g1) (seqZ 0 GRID_SIZE) = []).
      { destruct (fullCols _ _); [done|cbn in Hz; lia]. }
      split; [|split].
      * intros r0 Hr0 Hfull. assert (Hin : r0 ∈ rows) by by apply Hinr.
        rewrite Hrn in Hin. by apply not_elem_of_nil in Hin.
      * intros c0 Hc0 Hfull.
        assert (Hin : c0 ∈ fullCols (grid g1) (seqZ 0 GRID_SIZE))
          by by apply Hinc.
        rewrite Hcn in Hin. by apply not_elem_of_nil in Hin.
      * rewrite Hb', Hsc'. lia.
    + by rewrite Ht.
    + intros _. rewrite Hb', Hsto, Hb1. by apply best_tracks_store.
  - destruct (clearLines_nonzero_full a (setObj a g1 w) g1 rows Hg1 Hrows Hnz)
      as (w1 & g' & Hc' & Hh & Hcu & Ht & _ & Hgr & _ & _ & _ & _ & Hpl'
          & _ & Hfl' & Hst' & Hsc' & Hli' & _ & Hb' & Hsto).
    rewrite Hcl in Hc'. injection Hc' as <-. cbn in *.
    pose proof (bonus_nonneg
                  (Z.of_nat (length rows)
                   + Z.of_nat (length (fullCols (grid g1) (seqZ 0 GRID_SIZE))))
                  (streak g1 + 1) ltac:(lia)) as Hbonus.
    eapply (inv2_update w w' a g g'); try done.
    + by rewrite Hh, list_insert_insert_eq.
    + rewrite Hsc', Hli', Hst', Hsc1, Hli1. lia.
    + rewrite Hpl', Hpl1. exists (mkTimer a rows
                                    (fullCols (grid g1) (seqZ 0 GRID_SIZE))).
      rewrite Ht, Hgr. cbn. split; [apply elem_of_app; right; left|].
      split; [done|]. split; [done|]. split; [done|]. split; [done|].
      split; [|rewrite Hb'; lia].
      destruct rows; [|by left]. right.
      destruct (fullCols _ _); [cbn in Hnz; lia|done].
    + rewrite Ht. intros t Hin _. apply elem_of_app. by left.
    + intros _. rewrite Hb', Hsto, Hb1. by apply best_tracks_store.
Qed.

Lemma inv2_timerFire i w w' :
  inv w → inv2 w → timerFire rnd i w = Ok w' → inv2 w'.
Proof.
  intros Hinv Hinv2 Hfire.
  destruct (timers w !! i) as [t|] eqn:Ht; cycle 1.
  { unfold timerFire in Hfire. rewrite Ht in Hfire. by injection Hfire as <-. }
  assert (Htin : t ∈ timers w) by by eapply list_elem_of_lookup_2.
  destruct (inv_timers w Hinv t Htin) as [(g & Hg & Hpl) [Hrows Hcols]].
  destruct (inv_games w Hinv _ g Hg) as [(Hwf & _) _].
  destruct (inv2_counts w Hinv2 _ g Hg) as (Hsc & Hli & Hst).
  pose proof (inv2_state w Hinv2 _ g Hg) as Hpend. rewrite Hpl in Hpend.
  destruct Hpend as (t0 & Ht0 & Hgame & _ & Hinr & Hinc & _ & Hle).
  assert (t0 = t) as ->.
  { by apply (NoDup_fmap_eq t_game (timers w)); [apply Hinv|..]. }
  destruct (clear_lines_grid (t_rows t) (t_cols t) (grid g) Hwf Hrows Hcols)
    as (grid1 & grid2 & H1 & H2 & Hwf2 & Hcell).
  rewrite (timerFire_unfold rnd i w t g grid1 grid2 Ht Hg H1 H2) in Hfire.
  pose proof (lookup_lt_Some _ _ _ Hg) as Hlt.
  destruct (done_full (t_game t)
              (setObj (t_game t)
                 (set_comboText "" (set_flashCells ∅ (set_grid grid2 g)))
                 (set_timers (delete i (timers w)) w))
              (set_comboText "" (set_flashCells ∅ (set_grid grid2 g))))
    as (w1 & g' & Hd & Hh & Hc' & Htim & Hgr & Hsc' & Hst' & Hli' & _ & _ & _
        & Hfl' & Hco' & Hpl' & Hb' & Hsto & _).
  { by apply setObj_lookup. }
  { apply Hwf2. }
  rewrite Hfire in Hd. injection Hd as <-. cbn in *.
  assert (Hnot : (score g >? best g) = false) by lia.
  rewrite Hnot in Hsto.
  eapply (inv2_update w w' (t_game t) g g'); try done.
  - by rewrite Hh, list_insert_insert_eq.
  - rewrite Hsc', Hli', Hst'. lia.
  - rewrite Hpl'. unfold rest_ok. rewrite Hfl', Hco', Hgr.
    split; [done|]. split; [done|].
    destruct (no_line_after_clear (grid g) grid2 (t_rows t) (t_cols t)
                Hcell Hinr Hinc) as [Hnr Hnc].
    split; [done|]. split; [done|]. rewrite Hb', Hsc'. lia.
  - rewrite Htim. intros t' Hin Hne.
    apply (elem_of_delete_ne (timers w) i t t' Ht Hin). congruence.
  - intros Hcur. rewrite Hb', Hsto.
    rewrite <- (inv2_best w Hinv2 _ g Hcur Hg). lia.
Qed.

(** From here on the random source stays within the catalog. *)
Hypothesis rnd_range : ∀ n, 0 ≤ rnd n < Z.of_nat (length PIECES).

Lemma inv2_step e w w' : inv w → inv2 w → step rnd e w = Ok w' → inv2 w'.
Proof.
  intros Hinv Hinv2 Hstep. destruct e.
  - cbn [step] in Hstep. injection Hstep as <-. by apply inv2_startGame.
  - by apply (inv2_ui _ w w' Hinv2 Hstep).
  - by apply (inv2_drop r c w w').
  - by apply (inv2_ui _ w w' Hinv2 Hstep).
  - by apply (inv2_ui _ w w' Hinv2 Hstep).
  - by apply (inv2_ui _ w w' Hinv2 Hstep).
  - by apply (inv2_timerFire i w w').
Qed.

Lemma reachable_inv2 w : reachable rnd w → inv2 w.
Proof.
  induction 1 as [st|e w w' Hreach IH Hstep]; [apply inv2_init|].
  eapply inv2_step; [|done|done]. by apply (reachable_inv rnd rnd_range).
Qed.

(** ** What one event does to one object *)

(** Over an event, an object keeps everything but its selection and hover
    cell, unless the event is a legal drop on it or the firing of its own
    timer. *)
Lemma step_object_cases e w w' a g :
  inv w → heap w !! a = Some g → step rnd e w = Ok w' →
  (∃ s hr hc, heap w' !! a = Some (set_hover hr hc (set_selIdx s g))) ∨
  (∃ r c i p g1,
     e = Drop r c ∧ current w = Some a ∧ placing g = false ∧
     selIdx g = Some i ∧ zlookup (pieces g) i = Some (Some p) ∧
     p ∈ PIECES ∧ legal (grid g) p r c = true ∧
     place p i r c g = Ok g1 ∧
     clearLines rnd a (setObj a g1 w) = Ok w') ∨
  (∃ i t, e = TimerFire i ∧ timers w !! i = Some t ∧ t_game t = a).
Proof.
  intros Hinv Ha Hstep.
  assert (Hkeep : ∀ w0, heap w0 !! a = heap w !! a →
            ∃ s hr hc, heap w0 !! a = Some (set_hover hr hc (set_selIdx s g))).
  { intros w0 ->. exists (selIdx g), (hoverR g), (hoverC g). rewrite Ha.
    by destruct g. }
  assert (Hui : match e with
                | SelectPiece _ | Escape | MouseEnter _ _ | MouseLeave => True
                | _ => False
                end →
                ∃ s hr hc,
                  heap w' !! a = Some (set_hover hr hc (set_selIdx s g))).
  { intros He. destruct (current w) as [b|] eqn:Hcur; cycle 1.
    { rewrite (step_no_current rnd e w w' Hstep); [by apply Hkeep| |done].
      by destruct e. }
    destruct (decide (a = b)) as [<-|Hne].
    - destruct (ui_step_shape e w w' a g Hstep He Hcur Ha)
        as (s & hr & hc & ->).
      exists s, hr, hc. apply setObj_lookup. by eapply lookup_lt_Some.
    - destruct (ui_step_fr rnd e w w' b Hstep He Hcur) as ((_ & _ & Hfr) & _).
      by apply Hkeep, Hfr. }
  destruct e as [|idx|r c| |r c| |i]; try (left; by apply Hui).
  - left. cbn [step] in Hstep. injection Hstep as <-. apply Hkeep.
    rewrite startGame_unfold. cbn. apply lookup_app_l.
    by eapply lookup_lt_Some.
  - cbn [step] in Hstep. destruct (current w) as [b|] eqn:Hcur; cycle 1.
    { left. rewrite (step_no_current rnd (Drop r c) w w'); try done.
      by apply Hkeep. }
    destruct (decide (a = b)) as [<-|Hne]; cycle 1.
    { left. destruct (drop_fr rnd r c w w' b Hstep Hcur) as ((_ & _ & Hfr) & _).
      by apply Hkeep, Hfr. }
    destruct (drop_cases rnd r c w w' a g Hinv Hcur Ha Hstep)
      as [->|(i & p & g1 & H)]; [left; by apply Hkeep|].
    right. left. exists r, c, i, p, g1. tauto.
  - cbn [step] in Hstep. destruct (timers w !! i) as [t|] eqn:Ht; cycle 1.
    { left. unfold timerFire in Hstep. rewrite Ht in Hstep.
      injection Hstep as <-. by apply Hkeep. }
    destruct (decide (t_game t = a)) as [Heq|Hne].
    + right. right. by exists i, t.
    + left. destruct (timerFire_fr rnd i w w' t Hstep Ht) as ((_ & _ & Hfr) & _).
      apply Hkeep, Hfr. congruence.
Qed.

(** The clear step never lowers the score, the lines counter or the best
    score, leaves the best score at or above the score, and writes the store
    only with a score that beats the best. *)
Lemma clearLines_effect a w w' g :
  heap w !! a = Some g → wf_grid (grid g) → clearLines rnd a w = Ok w' →
  ∃ g', heap w' !! a = Some g' ∧
    score g ≤ score g' ∧ linesCleared g ≤ linesCleared g' ∧
    best g' = Z.max (best g) (score g') ∧
    storage w' = (if score g' >? best g then Some (score g') else storage w).
Proof.
  intros Ha Hwf Hcl. pose proof (lookup_lt_Some _ _ _ Ha) as Hlt.
  destruct (fullRows_board (grid g) Hwf) as (rows & Hrows & _).
  destruct (decide (Z.of_nat (length rows)
              + Z.of_nat (length (fullCols (grid g) (seqZ 0 GRID_SIZE))) = 0))
    as [Hz|Hnz].
  - rewrite (clearLines_zero rnd a w g rows Ha Hrows Hz) in Hcl.
    destruct (done_full a (setObj a (set_comboText "" (set_streak 0 g)) w)
                (set_comboText "" (set_streak 0 g)))
      as (w1 & g' & Hd & Hh & _ & _ & _ & Hsc' & _ & Hli' & _ & _ & _ & _ & _
          & _ & Hb' & Hsto & _).
    { by apply setObj_lookup. }
    { apply Hwf. }
    rewrite Hcl in Hd. injection Hd as <-. cbn in *. exists g'.
    split; [rewrite Hh; apply list_lookup_insert_eq; by rewrite length_insert|].
    rewrite Hsc', Hli'. repeat split; done || lia.
  - destruct (clearLines_nonzero_full a w g rows Ha Hrows Hnz)
      as (w1 & g' & Hc' & Hh & _ & _ & _ & _ & _ & _ & _ & _ & _ & _ & _ & _
          & Hsc' & Hli' & _ & Hb' & Hsto).
    rewrite Hcl in Hc'. injection Hc' as <-. exists g'.
    split; [rewrite Hh; by apply list_lookup_insert_eq|].
    pose proof (bonus_nonneg
                  (Z.of_nat (length rows)
                   + Z.of_nat (length (fullCols (grid g) (seqZ 0 GRID_SIZE))))
                  (streak g + 1) ltac:(lia)) as Hbonus.
    repeat split; done || lia.
Qed.

(** The firing of a timer in a world that satisfies the invariants: the
    object keeps its score, lines counter, streak, best score and tray
    content unless the tray was empty, the store is not written, and the
    placement is over. *)
Lemma timerFire_effect i w w' t g :
  inv w → inv2 w → timers w !! i = Some t → heap w !! t_game t = Some g →
  timerFire rnd i w = Ok w' →
  ∃ g', heap w' !! t_game t = Some g' ∧
    score g' = score g ∧ linesCleared g' = linesCleared g ∧
    streak g' = streak g ∧ best g' = best g ∧ placing g' = false ∧
    storage w' = storage w.
Proof.
  intros Hinv Hinv2 Ht Hg Hfire.
  assert (Htin : t ∈ timers w) by by eapply list_elem_of_lookup_2.
  destruct (inv_timers w Hinv t Htin) as [(g0 & Hg0 & Hpl) [Hrows Hcols]].
  rewrite Hg in Hg0. injection Hg0 as <-.
  destruct (inv_games w Hinv _ g Hg) as [(Hwf & _) _].
  pose proof (inv2_state w Hinv2 _ g Hg) as Hpend. rewrite Hpl in Hpend.
  destruct Hpend as (t0 & _ & _ & _ & _ & _ & _ & Hle).
  destruct (clear_lines_grid (t_rows t) (t_cols t) (grid g) Hwf Hrows Hcols)
    as (grid1 & grid2 & H1 & H2 & Hwf2 & _).
  rewrite (timerFire_unfold rnd i w t g grid1 grid2 Ht Hg H1 H2) in Hfire.
  pose proof (lookup_lt_Some _ _ _ Hg) as Hlt.
  destruct (done_full (t_game t)
              (setObj (t_game t)
                 (set_comboText "" (set_flashCells ∅ (set_grid grid2 g)))
                 (set_timers (delete i (timers w)) w))
              (set_comboText "" (set_flashCells ∅ (set_grid grid2 g))))
    as (w1 & g' & Hd & Hh & _ & _ & _ & Hsc' & Hst' & Hli' & _ & _ & _
        & _ & _ & Hpl' & Hb' & Hsto & _).
  { by apply setObj_lookup. }
  { apply Hwf2. }
  rewrite Hfire in Hd. injection Hd as <-. cbn in *.
  assert (Hnot : (score g >? best g) = false) by lia.
  rewrite Hnot in Hsto. exists g'.
  split; [rewrite Hh; apply list_lookup_insert_eq; by rewrite length_insert|].
  repeat split; done || lia.
Qed.

Lemma ui_step_same_store e w w' :
  step rnd e w = Ok w' →
  match e with
  | SelectPiece _ | Escape | MouseEnter _ _ | MouseLeave => True
  | _ => False
  end →
  storage w' = storage w.
Proof.
  intros Hstep He. destruct (current w) as [a|] eqn:Hcur; cycle 1.
  { rewrite (step_no_current rnd e w w' Hstep); [done| |done]. by destruct e. }
  destruct (heap w !! a) as [g|] eqn:Hg; cycle 1.
  { destruct e; try done; cbn in Hstep;
      unfold selectPiece, escape, mouseEnter, mouseLeave, getObj in Hstep;
      by rewrite Hcur, Hg in Hstep. }
  by destruct (ui_step_shape e w w' a g Hstep He Hcur Hg) as (s & hr & hc & ->).
Qed.

(** ** Properties of every reachable world *)

(** X1. No handler and no timer callback throws in a reachable world: every
    event returns a world. *)
Theorem reachable_never_faults w e :
  reachable rnd w → ∃ w', step rnd e w = Ok w'.
Proof.
  intros Hreach. apply step_total. by apply (reachable_inv rnd rnd_range).
Qed.

(** X2. In a reachable world [G.current] refers to an allocated object, and
    every game object has a grid of 8 rows of 8 cells, a tray of exactly
    three slots holding shapes of the catalog, and a selection that, when
    set, is one of the slots 0, 1, 2 and holds a shape. *)
Theorem reachable_games_well_formed w :
  reachable rnd w →
  (∀ a, current w = Some a → is_Some (heap w !! a)) ∧
  ∀ a g, heap w !! a = Some g →
    length (grid g) = 8%nat ∧
    (∀ row, row ∈ grid g → length row = 8%nat) ∧
    length (pieces g) = 3%nat ∧
    (∀ p, Some p ∈ pieces g → p ∈ PIECES) ∧
    (∀ i, selIdx g = Some i →
          0 ≤ i < 3 ∧ ∃ p, zlookup (pieces g) i = Some (Some p)).
Proof.
  intros Hreach. apply (reachable_inv rnd rnd_range) in Hreach as Hinv.
  split.
  { intros a Ha. apply lookup_lt_is_Some_2. by apply Hinv. }
  intros a g Ha.
  destruct (inv_games w Hinv a g Ha) as [([Hlen Hrows] & Hps & Hcat & Hs) _].
  split; [done|]. split.
  { intros row Hrow. by eapply (proj1 (Forall_forall _ _) Hrows) in Hrow as [? _]. }
  split; [done|]. split; [done|].
  intros i Hi. destruct (Hs i Hi) as [p Hp]. split; [|by exists p].
  apply zlookup_Some in Hp as [? Hp]. apply lookup_lt_Some in Hp. lia.
Qed.

(** X3. In a reachable world an object is placing exactly when a clear
    callback is pending for it: a placement is never left without the
    callback that ends it. *)
Theorem placing_iff_timer_pending w a g :
  reachable rnd w → heap w !! a = Some g →
  (placing g = true ↔ ∃ t, t ∈ timers w ∧ t_game t = a).
Proof.
  intros Hreach Ha.
  pose proof (reachable_inv rnd rnd_range w Hreach) as Hinv.
  pose proof (reachable_inv2 w Hreach) as Hinv2.
  split.
  - intros Hpl. pose proof (inv2_state w Hinv2 a g Ha) as Hp.
    rewrite Hpl in Hp. destruct Hp as (t & Hin & Hg & _). by exists t.
  - intros (t & Hin & <-).
    destruct (inv_timers w Hinv t Hin) as [(g0 & Hg0 & Hpl) _]. congruence.
Qed.

(** X4. While the clear of an object is pending, no event other than the
    firing of its own timer changes anything in it but the selection and the
    hover cell: grid, tray, score, streak, lines, best score, flash set and
    banner stay. *)
Theorem pending_clear_freezes_game w a g e w' :
  reachable rnd w → heap w !! a = Some g → placing g = true →
  step rnd e w = Ok w' →
  (∀ i t, e = TimerFire i → timers w !! i = Some t → t_game t ≠ a) →
  ∃ s hr hc, heap w' !! a = Some (set_hover hr hc (set_selIdx s g)).
Proof.
  intros Hreach Ha Hpl Hstep Hother.
  pose proof (reachable_inv rnd rnd_range w Hreach) as Hinv.
  destruct (step_object_cases e w w' a g Hinv Ha Hstep)
    as [H|[(r & c & i & p & g1 & _ & _ & Hpl' & _)|(i & t & -> & Ht & Hg)]];
    [done|congruence|].
  by destruct (Hother i t eq_refl Ht).
Qed.

(** X5. Once the game-over message of an object is set, no event changes
    anything in it but the selection and the hover cell: every later drop is
    refused and no callback is pending. *)
Theorem game_over_is_terminal w a g e w' :
  reachable rnd w → heap w !! a = Some g → is_Some (gameOverMsg g) →
  step rnd e w = Ok w' →
  ∃ s hr hc, heap w' !! a = Some (set_hover hr hc (set_selIdx s g)).
Proof.
  intros Hreach Ha Hmsg Hstep.
  pose proof (reachable_inv rnd rnd_range w Hreach) as Hinv.
  destruct (inv_games w Hinv a g Ha) as [(Hwf & _) Hv].
  unfold verdict_ok in Hv.
  destruct (placing g) eqn:Hpl.
  { rewrite Hv in Hmsg. by destruct Hmsg. }
  apply Hv in Hmsg.
  destruct (step_object_cases e w w' a g Hinv Ha Hstep)
    as [H|[(r & c & i & p & g1 & _ & _ & _ & _ & Hslot & Hp & Hl & _)
          |(i & t & -> & Ht & Hg)]]; [done| |].
  - assert (Hmov : movable (grid g) (pieces g) = true); [|congruence].
    apply movable_true. exists p, r, c. split; [|split; [|done]].
    + apply zlookup_Some in Hslot as [_ Hslot].
      by eapply list_elem_of_lookup_2.
    + eapply legal_anchor_onBoard; [by apply catalog_shape_ok|done].
  - destruct (inv_timers w Hinv t) as [(g0 & Hg0 & Hpl0) _].
    { by eapply list_elem_of_lookup_2. }
    rewrite Hg, Ha in Hg0. injection Hg0 as <-. congruence.
Qed.

(** X6. In a reachable world a drop whose anchor is not a cell of the board
    is refused, whatever is selected: the world is returned as it was. *)
Theorem drop_off_board_noop w r c :
  reachable rnd w → ¬ onBoard r c → drop rnd r c w = Ok w.
Proof.
  intros Hreach Hoff.
  pose proof (reachable_inv rnd rnd_range w Hreach) as Hinv.
  destruct (step_total rnd (Drop r c) w Hinv) as [w' Hstep].
  cbn [step] in Hstep. rewrite Hstep. f_equal.
  destruct (current w) as [a|] eqn:Hcur; cycle 1.
  { by apply (step_no_current rnd (Drop r c) w w'). }
  destruct (lookup_lt_is_Some_2 _ _ (inv_current w Hinv a Hcur)) as [g Hg].
  destruct (drop_cases rnd r c w w' a g Hinv Hcur Hg Hstep)
    as [->|(i & p & g1 & _ & _ & _ & Hp & Hl & _)]; [done|].
  destruct Hoff. eapply legal_anchor_onBoard; [by apply catalog_shape_ok|done].
Qed.

(** X7. Score, lines counter and streak of every object of a reachable world
    are non-negative, and no event lowers the score, the lines counter or
    the best score of any object. *)
Theorem counters_never_decrease w a g e w' :
  reachable rnd w → heap w !! a = Some g → step rnd e w = Ok w' →
  0 ≤ score g ∧ 0 ≤ linesCleared g ∧ 0 ≤ streak g ∧
  ∃ g', heap w' !! a = Some g' ∧
    score g ≤ score g' ∧ linesCleared g ≤ linesCleared g' ∧
    best g ≤ best g'.
Proof.
  intros Hreach Ha Hstep.
  pose proof (reachable_inv rnd rnd_range w Hreach) as Hinv.
  pose proof (reachable_inv2 w Hreach) as Hinv2.
  destruct (inv2_counts w Hinv2 a g Ha) as (Hsc & Hli & Hst).
  split; [done|]. split; [done|]. split; [done|].
  destruct (step_object_cases e w w' a g Hinv Ha Hstep)
    as [(s & hr & hc & H)
       |[(r & c & i & p & g1 & _ & _ & _ & _ & Hslot & Hp & Hl & Hplace & Hcl)
        |(i & t & -> & Ht & <-)]].
  - eexists. split; [done|]. cbn. lia.
  - destruct (inv_games w Hinv a g Ha) as [(Hwf & _) _].
    destruct (place_spec p i r c g Hwf (catalog_shape_ok p Hp) Hslot Hl)
      as (g1' & Hplace' & Hwf1 & _ & Hsc1 & _ & _ & _ & Hli1 & _ & _ & _
          & _ & _ & _ & Hb1).
    rewrite Hplace in Hplace'. injection Hplace' as <-.
    destruct (clearLines_effect a (setObj a g1 w) w' g1)
      as (g' & Hg' & Hs' & Hl' & Hb' & _); [|done|done|].
    { apply setObj_lookup. by eapply lookup_lt_Some. }
    exists g'. split; [done|]. lia.
  - destruct (timerFire_effect i w w' t g Hinv Hinv2 Ht Ha Hstep)
      as (g' & Hg' & Hs' & Hl' & _ & Hb' & _).
    exists g'. split; [done|]. lia.
Qed.

(** X8. In a reachable world the best score of the current game is the
    number held in the store (0 when the store is empty), and no event
    lowers the stored number. *)
Theorem store_tracks_best w e w' :
  reachable rnd w → step rnd e w = Ok w' →
  (∀ a g, current w = Some a → heap w !! a = Some g →
          best g = default 0 (storage w)) ∧
  default 0 (storage w) ≤ default 0 (storage w').
Proof.
  intros Hreach Hstep.
  pose proof (reachable_inv rnd rnd_range w Hreach) as Hinv.
  pose proof (reachable_inv2 w Hreach) as Hinv2.
  split; [apply Hinv2|].
  destruct e.
  - cbn [step] in Hstep. injection Hstep as <-. by rewrite startGame_unfold.
  - by rewrite (ui_step_same_store _ w w' Hstep I).
  - cbn [step] in Hstep.
    destruct (current w) as [a|] eqn:Hcur; cycle 1.
    { by rewrite (step_no_current rnd (Drop r c) w w'). }
    destruct (lookup_lt_is_Some_2 _ _ (inv_current w Hinv a Hcur)) as [g Hg].
    destruct (drop_cases rnd r c w w' a g Hinv Hcur Hg Hstep)
      as [->|(i & p & g1 & _ & _ & Hslot & Hp & Hl & Hplace & Hcl)]; [done|].
    destruct (inv_games w Hinv a g Hg) as [(Hwf & _) _].
    destruct (place_spec p i r c g Hwf (catalog_shape_ok p Hp) Hslot Hl)
      as (g1' & Hplace' & Hwf1 & _ & _ & _ & _ & _ & _ & _ & _ & _
          & _ & _ & _ & Hb1).
    rewrite Hplace in Hplace'. injection Hplace' as <-.
    destruct (clearLines_effect a (setObj a g1 w) w' g1)
      as (g' & _ & _ & _ & _ & Hsto); [|done|done|].
    { apply setObj_lookup. by eapply lookup_lt_Some. }
    rewrite Hsto, Hb1, (inv2_best w Hinv2 a g Hcur Hg). cbn.
    destruct (score g' >? default 0 (storage w)) eqn:Hgt; cbn; lia.
  - by rewrite (ui_step_same_store _ w w' Hstep I).
  - by rewrite (ui_step_same_store _ w w' Hstep I).
  - by rewrite (ui_step_same_store _ w w' Hstep I).
  - cbn [step] in Hstep. destruct (timers w !! i) as [t|] eqn:Ht; cycle 1.
    { unfold timerFire in Hstep. rewrite Ht in Hstep. by injection Hstep as <-. }
    destruct (inv_timers w Hinv t) as [(g & Hg & _) _].
    { by eapply list_elem_of_lookup_2. }
    destruct (timerFire_effect i w w' t g Hinv Hinv2 Ht Hg Hstep)
      as (g' & _ & _ & _ & _ & _ & _ & ->). lia.
Qed.

Lemma flash_key_filled w a g k :
  reachable rnd w → heap w !! a = Some g → k ∈ flashCells g →
  placing g = true ∧
  ∃ r c, onBoard r c ∧ k = r * 8 + c ∧ is_Some (cellOf (grid g) r c) ∧
         (rowFilled (grid g) r ∨ colFilled (grid g) c).
Proof.
  intros Hreach Ha Hk. pose proof (reachable_inv2 w Hreach) as Hinv2.
  pose proof (inv2_state w Hinv2 a g Ha) as Hs.
  destruct (placing g).
  - split; [done|].
    destruct Hs as (t & _ & _ & Hfl & Hinr & Hinc & _).
    rewrite Hfl in Hk. apply elem_of_toFlash in Hk as (r & c & -> & Hk).
    exists r, c. unfold onBoard.
    destruct Hk as [[Hr Hc]|[Hc Hr]].
    + apply Hinr in Hr as [Hr Hfull]. split; [done|]. split; [done|].
      split; [by apply Hfull|by left].
    + apply Hinc in Hc as [Hc Hfull]. split; [done|]. split; [done|].
      split; [by apply Hfull|by right].
  - destruct Hs as (Hfl & _). rewrite Hfl in Hk.
    by apply not_elem_of_empty in Hk.
Qed.

(** X9. In a reachable world nothing flashes and no banner shows unless a
    clear is pending; and a flashing key is always that of a filled cell of
    the board that lies in a complete row or in a complete column. *)
Theorem flash_only_complete_lines w a g :
  reachable rnd w → heap w !! a = Some g →
  (placing g = false → flashCells g = ∅ ∧ comboText g = "") ∧
  (∀ k, k ∈ flashCells g →
     placing g = true ∧
     ∃ r c, onBoard r c ∧ k = r * 8 + c ∧ is_Some (cellOf (grid g) r c) ∧
            (rowFilled (grid g) r ∨ colFilled (grid g) c)).
Proof.
  intros Hreach Ha. split.
  - intros Hpl. pose proof (reachable_inv2 w Hreach) as Hinv2.
    pose proof (inv2_state w Hinv2 a g Ha) as Hs. rewrite Hpl in Hs.
    by destruct Hs as (Hfl & Hco & _).
  - intros k Hk. by eapply flash_key_filled.
Qed.

Lemma not_rowFilled_empty_cell grid r :
  ¬ rowFilled grid r → ∃ c, 0 ≤ c < 8 ∧ cellOf grid r c = None.
Proof.
  intros Hnot.
  destruct (decide (Forall (λ c, is_Some (cellOf grid r c)) (seqZ 0 8)))
    as [Hall|Hex].
  - destruct Hnot. intros c Hc.
    apply (proj1 (Forall_forall _ _) Hall), elem_of_seqZ.
    unfold GRID_SIZE in Hc. lia.
  - apply not_Forall_Exists in Hex; [|apply _].
    apply Exists_exists in Hex as (c & Hc & Hn). exists c.
    apply elem_of_seqZ in Hc. split; [lia|].
    cbn in Hn. by apply eq_None_not_Some.
Qed.

Lemma not_colFilled_empty_cell grid c :
  ¬ colFilled grid c → ∃ r, 0 ≤ r < 8 ∧ cellOf grid r c = None.
Proof.
  intros Hnot.
  destruct (decide (Forall (λ r, is_Some (cellOf grid r c)) (seqZ 0 8)))
    as [Hall|Hex].
  - destruct Hnot. intros r Hr.
    apply (proj1 (Forall_forall _ _) Hall), elem_of_seqZ.
    unfold GRID_SIZE in Hr. lia.
  - apply not_Forall_Exists in Hex; [|apply _].
    apply Exists_exists in Hex as (r & Hr & Hn). exists r.
    apply elem_of_seqZ in Hr. split; [lia|].
    cbn in Hn. by apply eq_None_not_Some.
Qed.

(** X10. Between placements the board of a reachable world never holds a
    complete line: every row and every column has an empty cell. *)
Theorem no_complete_line_at_rest w a g :
  reachable rnd w → heap w !! a = Some g → placing g = false →
  (∀ r, 0 ≤ r < 8 → ∃ c, 0 ≤ c < 8 ∧ cellOf (grid g) r c = None) ∧
  (∀ c, 0 ≤ c < 8 → ∃ r, 0 ≤ r < 8 ∧ cellOf (grid g) r c = None).
Proof.
  intros Hreach Ha Hpl. pose proof (reachable_inv2 w Hreach) as Hinv2.
  pose proof (inv2_state w Hinv2 a g Ha) as Hs. rewrite Hpl in Hs.
  destruct Hs as (_ & _ & Hr & Hc & _). split.
  - intros r Hr'. by apply not_rowFilled_empty_cell, Hr.
  - intros c Hc'. by apply not_colFilled_empty_cell, Hc.
Qed.

(** X11. In a reachable world the score of an object never exceeds its best
    score, a stored best below 0 counting as 0; while a clear is pending the
    best score has already taken the bonus in. *)
Theorem score_within_best w a g :
  reachable rnd w → heap w !! a = Some g →
  score g ≤ Z.max 0 (best g) ∧ (placing g = true → score g ≤ best g).
Proof.
  intros Hreach Ha. pose proof (reachable_inv2 w Hreach) as Hinv2.
  pose proof (inv2_state w Hinv2 a g Ha) as Hs.
  destruct (placing g).
  - destruct Hs as (t & _ & _ & _ & _ & _ & _ & Hle). split; [lia|done].
  - destruct Hs as (_ & _ & _ & _ & Hle). split; [done|done].
Qed.

(** ** One placement at a time *)

Lemma reachableIdle_reachable w : reachableIdle rnd w → reachable rnd w.
Proof.
  induction 1 as [st|e w w' _ IH _ Hstep]; [apply reach_init|].
  by eapply reach_step.
Qed.

(** When [startGame] is only called while the current object is not
    placing, every pending timer belongs to the current object. *)
Lemma reachableIdle_timers_current w t :
  reachableIdle rnd w → t ∈ timers w → current w = Some (t_game t).
Proof.
  intros Hidle. revert t.
  induction Hidle as [st|e w w' Hidle IH Hstart Hstep]; intros t Ht.
  { by apply not_elem_of_nil in Ht. }
  pose proof (reachable_inv rnd rnd_range w
                (reachableIdle_reachable w Hidle)) as Hinv.
  destruct e.
  - cbn [step] in Hstep. injection Hstep as <-.
    rewrite startGame_unfold in Ht. cbn in Ht.
    pose proof (IH t Ht) as Hcur.
    pose proof (Hstart eq_refl) as Hok. unfold startGame_idle in Hok.
    rewrite Hcur in Hok. destruct Hok as (g & Hg & Hpl).
    destruct (inv_timers w Hinv t Ht) as [(g' & Hg' & Hpl') _].
    congruence.
  - destruct (current w) as [a|] eqn:Hcur.
    + destruct (ui_step_fr rnd _ w w' a Hstep I Hcur) as ([Hc _] & Htim & _).
      rewrite Htim in Ht. rewrite Hc, Hcur. by apply IH.
    + rewrite (step_no_current rnd _ w w' Hstep I Hcur) in Ht |- *.
      rewrite Hcur. by apply IH.
  - destruct (current w) as [a|] eqn:Hcur.
    + cbn [step] in Hstep.
      destruct (drop_fr rnd r c w w' a Hstep Hcur)
        as ([Hc _] & ts & Htim & Hts).
      rewrite Htim in Ht. rewrite Hc, Hcur.
      apply elem_of_app in Ht as [Ht|Ht].
      * by apply IH.
      * by rewrite (Hts t Ht).
    + rewrite (step_no_current rnd _ w w' Hstep I Hcur) in Ht |- *.
      rewrite Hcur. by apply IH.
  - destruct (current w) as [a|] eqn:Hcur.
    + destruct (ui_step_fr rnd _ w w' a Hstep I Hcur) as ([Hc _] & Htim & _).
      rewrite Htim in Ht. rewrite Hc, Hcur. by apply IH.
    + rewrite (step_no_current rnd _ w w' Hstep I Hcur) in Ht |- *.
      rewrite Hcur. by apply IH.
  - destruct (current w) as [a|] eqn:Hcur.
    + destruct (ui_step_fr rnd _ w w' a Hstep I Hcur) as ([Hc _] & Htim & _).
      rewrite Htim in Ht. rewrite Hc, Hcur. by apply IH.
    + rewrite (step_no_current rnd _ w w' Hstep I Hcur) in Ht |- *.
      rewrite Hcur. by apply IH.
  - destruct (current w) as [a|] eqn:Hcur.
    + destruct (ui_step_fr rnd _ w w' a Hstep I Hcur) as ([Hc _] & Htim & _).
      rewrite Htim in Ht. rewrite Hc, Hcur. by apply IH.
    + rewrite (step_no_current rnd _ w w' Hstep I Hcur) in Ht |- *.
      rewrite Hcur. by apply IH.
  - cbn [step] in Hstep.
    destruct (timers w !! i) as [t0|] eqn:Hi.
    + destruct (timerFire_fr rnd i w w' t0 Hstep Hi) as ([Hc _] & Htim).
      rewrite Htim in Ht. apply list_elem_of_delete_inv in Ht.
      rewrite Hc. by apply IH.
    + unfold timerFire in Hstep. rewrite Hi in Hstep.
      injection Hstep as <-. by apply IH.
Qed.

(** C7, as the code has it. While [placing] is true every [drop] returns the
    world it was given, so no second placement starts: no game object ever
    has two clear callbacks pending, and when [startGame] is called only
    while the current object is not placing, as the mount effect and the
    Play Again button do (an object with a game-over message is never
    placing), at most one clear callback is pending at all and only the
    current object can be placing. [selectPiece] is not gated by [placing]:
    it sets the selection as at any other time, and changes nothing else. *)
Theorem placing_rejects_drop w :
  reachable rnd w →
  (∀ a g, current w = Some a → heap w !! a = Some g → placing g = true →
     (∀ r c, drop rnd r c w = Ok w) ∧
     (∀ idx,
        selectPiece idx w
        = Ok (setObj a
                (set_selIdx
                   match zlookup (pieces g) idx with
                   | Some (Some _) =>
                       if bool_decide (selIdx g = Some idx) then None
                       else Some idx
                   | _ => selIdx g
                   end g) w))) ∧
  NoDup (t_game <$> timers w) ∧
  (∀ a g, heap w !! a = Some g → is_Some (gameOverMsg g) →
          placing g = false) ∧
  (reachableIdle rnd w →
     (length (timers w) ≤ 1)%nat ∧
     ∀ a g, heap w !! a = Some g → placing g = true → current w = Some a).
Proof.
  intros Hreach. pose proof (reachable_inv rnd rnd_range w Hreach) as Hinv.
  split; [|split; [|split]].
  - intros a g Hcur Ha Hpl. split.
    + intros r c. unfold drop. rewrite Hcur, (getObj_Some _ _ _ Ha). cbn.
      by rewrite Hpl.
    + intros idx. unfold selectPiece.
      rewrite Hcur, (getObj_Some _ _ _ Ha). cbn.
      destruct (zlookup (pieces g) idx) as [[p|]|]; try done;
        rewrite setObj_id; try done; by destruct g.
  - apply Hinv.
  - intros a g Ha [m Hm].
    destruct (inv_games w Hinv a g Ha) as [_ Hv]. unfold verdict_ok in Hv.
    destruct (placing g); [congruence|done].
  - intros Hidle. split.
    + pose proof (inv_nodup w Hinv) as Hnd.
      destruct (timers w) as [|t1 [|t2 ts]] eqn:Htim; cbn; [lia|lia|].
      assert (H1 : current w = Some (t_game t1)).
      { apply reachableIdle_timers_current; [done|].
        rewrite Htim. apply list_elem_of_here. }
      assert (H2 : current w = Some (t_game t2)).
      { apply reachableIdle_timers_current; [done|].
        rewrite Htim. apply list_elem_of_further, list_elem_of_here. }
      rewrite !fmap_cons in Hnd. apply NoDup_cons in Hnd as [Hnot _].
      destruct Hnot. replace (t_game t1) with (t_game t2) by congruence.
      apply list_elem_of_here.
    + intros a g Ha Hpl.
      pose proof (inv2_state w (reachable_inv2 w Hreach) a g Ha) as Hs.
      rewrite Hpl in Hs. destruct Hs as (t & Ht & <- & _).
      by apply reachableIdle_timers_current.
Qed.

(** ** Single operations *)

(** X12. When the completion callback declares the game over, the message
    carries the score, and it announces a new best exactly when the score is
    positive and at least the best score held before: a score that only
    equals the earlier best is announced as new. *)
Theorem gameOver_message_content a w g :
  heap w !! a = Some g → wf_grid (grid g) → gameOverMsg g = None →
  ∃ w' g',
    done rnd a w = Ok w' ∧ heap w' !! a = Some g' ∧
    best g' = Z.max (best g) (score g) ∧
    ∀ m, gameOverMsg g' = Some m →
      movable (grid g') (pieces g') = false ∧
      finalScore m = score g' ∧
      (isNew m = true ↔ best g ≤ score g ∧ 0 < score g).
Proof.
  intros Ha Hwf Hnone.
  destruct (done_full a w g Ha) as (w' & g' & Hd & Hh & _ & _ & Hgr & Hsc & _
    & _ & _ & _ & _ & _ & _ & _ & Hb & _ & Hmsg); [apply Hwf|].
  exists w', g'. split; [done|]. split.
  { rewrite Hh. apply list_lookup_insert_eq. by eapply lookup_lt_Some. }
  split; [done|]. intros m Hm. rewrite Hgr, Hm in *.
  destruct (movable (grid g) (pieces g')); [congruence|].
  injection Hmsg as ->. cbn. split; [done|]. split; [done|]. lia.
Qed.

(** X13. [selectPiece] on an empty slot, or with an index outside the tray,
    returns the world it was given. On a slot that holds a piece it changes
    the selection and nothing else: the slot becomes selected, or the
    selection is cleared when that slot was selected already. So two calls
    with the same index, starting with nothing selected or with that slot
    selected, give back the world as it was. *)
Theorem selectPiece_twice idx w a g :
  current w = Some a → heap w !! a = Some g →
  ((∀ p, zlookup (pieces g) idx ≠ Some (Some p)) →
   selectPiece idx w = Ok w) ∧
  (∀ p, zlookup (pieces g) idx = Some (Some p) →
     ∃ s, selectPiece idx w = Ok (setObj a (set_selIdx s g) w) ∧
          s = (if bool_decide (selIdx g = Some idx) then None else Some idx) ∧
          s ≠ selIdx g ∧
          selectPiece idx w ≠ Ok w) ∧
  (selIdx g = None ∨ selIdx g = Some idx →
   run rnd [SelectPiece idx; SelectPiece idx] w = Ok w).
Proof.
  intros Hcur Ha. pose proof (lookup_lt_Some _ _ _ Ha) as Hlt.
  assert (Hone : ∀ w1 g1, current w1 = Some a → heap w1 !! a = Some g1 →
    selectPiece idx w1
    = Ok (match zlookup (pieces g1) idx with
          | Some (Some _) =>
              setObj a (set_selIdx (if bool_decide (selIdx g1 = Some idx)
                                    then None else Some idx) g1) w1
          | _ => w1
          end)).
  { intros w1 g1 Hc1 Hg1. unfold selectPiece.
    rewrite Hc1, (getObj_Some _ _ _ Hg1). cbn [mbind result_bind].
    by destruct (zlookup (pieces g1) idx) as [[?|]|]. }
  split; [|split].
  - intros Hempty. rewrite (Hone w g Hcur Ha).
    destruct (zlookup (pieces g) idx) as [[p|]|]; [|done|done].
    by destruct (Hempty p).
  - intros p Hslot. rewrite (Hone w g Hcur Ha), Hslot.
    eexists. split; [reflexivity|]. split; [reflexivity|].
    assert (Hne : (if bool_decide (selIdx g = Some idx) then None
                   else Some idx) ≠ selIdx g).
    { case_bool_decide as Hs; [by rewrite Hs|]. congruence. }
    split; [done|]. intros [= Heq].
    assert (Hg' : heap (setObj a
                     (set_selIdx (if bool_decide (selIdx g = Some idx)
                                  then None else Some idx) g) w) !! a
                  = Some g) by by rewrite Heq.
    rewrite setObj_lookup in Hg' by done. injection Hg' as Hg'.
    apply Hne. exact (f_equal selIdx Hg').
  - intros Hsel. cbn [run step]. rewrite (Hone w g Hcur Ha).
    destruct (zlookup (pieces g) idx) as [[p|]|] eqn:Hslot;
      cbn [mbind result_bind].
    2,3: rewrite (Hone w g Hcur Ha), Hslot; done.
    erewrite Hone; [|done|apply setObj_lookup, Hlt].
    cbn [pieces set_selIdx]. rewrite Hslot. f_equal.
    destruct w as [h cu ti st dr]. cbn in *.
    unfold setObj. cbn. rewrite list_insert_insert_eq.
    match goal with |- Ok (mkWorld ?h1 _ _ _ _) = _ => replace h1 with h end;
      [done|].
    symmetry. apply list_insert_id. rewrite Ha. f_equal.
    destruct g; cbn in *. destruct Hsel as [->| ->].
    + rewrite (bool_decide_eq_false_2 (None = Some idx)) by done.
      by rewrite bool_decide_eq_true_2.
    + rewrite (bool_decide_eq_true_2 (Some idx = Some idx)) by done.
      by rewrite bool_decide_eq_false_2.
Qed.

(** X14. [startGame] leaves every earlier object, the pending timers and the
    store as they were, and makes current a fresh object with an empty
    board, score, lines and streak 0, nothing selected, no message, the
    stored best score, and a tray of three catalog shapes each of which can
    be placed at (0,0): a new game is never over at once. *)
Theorem startGame_fresh_and_playable w :
  ∃ g,
    current (startGame rnd w) = Some (length (heap w)) ∧
    heap (startGame rnd w) !! length (heap w) = Some g ∧
    (∀ r c, cellOf (grid g) r c = None) ∧
    score g = 0 ∧ linesCleared g = 0 ∧ streak g = 0 ∧
    placing g = false ∧ gameOverMsg g = None ∧ selIdx g = None ∧
    best g = default 0 (storage w) ∧
    length (pieces g) = 3%nat ∧
    (∀ slot, slot ∈ pieces g →
       ∃ p, slot = Some p ∧ p ∈ PIECES ∧
            canPlace p 0 0 (grid g) = Ok (true, grid g)) ∧
    (∀ a, (a < length (heap w))%nat →
          heap (startGame rnd w) !! a = heap w !! a) ∧
    timers (startGame rnd w) = timers w ∧
    storage (startGame rnd w) = storage w.
Proof.
  rewrite startGame_unfold. eexists. cbn.
  split; [done|]. split.
  { rewrite lookup_app_r, Nat.sub_diag by done. reflexivity. }
  cbn. split; [apply cellOf_makeGrid|]. repeat (split; [done|]).
  split.
  { intros slot Hslot.
    apply (drawn_pieces_ok rnd rnd_range) in Hslot as (p & -> & Hp).
    exists p. split; [done|]. split; [done|].
    rewrite canPlace_legal by done. by rewrite catalog_fits_empty. }
  split; [|done]. intros a Ha. by apply lookup_app_l.
Qed.

End More.

(** X15. The banner text is one of the entries of [labels]: empty up to a
    streak of 1, then DOUBLE!, TRIPLE!, QUAD!, and MEGA COMBO! from a streak
    of 5 on. The text built from the streak number is never produced. *)
Theorem comboLabel_table s :
  comboLabel s
  = if bool_decide (s ≤ 1) then ""
    else if bool_decide (s = 2) then "DOUBLE!"
    else if bool_decide (s = 3) then "TRIPLE!"
    else if bool_decide (s = 4) then "QUAD!"
    else "MEGA COMBO!".
Proof.
  unfold comboLabel. destruct (s >? 1) eqn:Hs.
  - rewrite bool_decide_eq_false_2 by lia.
    destruct (decide (s = 2)) as [->|?]; [done|].
    destruct (decide (s = 3)) as [->|?]; [done|].
    destruct (decide (s = 4)) as [->|?]; [done|].
    rewrite !bool_decide_eq_false_2 by done.
    replace (Z.min s (Z.of_nat (length labels) - 1)) with 5; [done|].
    cbn. lia.
  - by rewrite bool_decide_eq_true_2 by lia.
Qed.

(** ** The drawing of a tray slot *)

Lemma maxOf_spec l :
  l ≠ [] → ∃ m, maxOf l = Some m ∧ m ∈ l ∧ ∀ x, x ∈ l → x ≤ m.
Proof.
  induction l as [|x l IH]; [done|]. intros _. destruct l as [|y l].
  - exists x. split; [done|]. split; [apply list_elem_of_here|].
    intros z Hz. apply list_elem_of_singleton in Hz. lia.
  - destruct IH as (m & Hm & Hin & Hle); [done|].
    exists (Z.max x m). split.
    { change (maxOf (x :: y :: l))
        with (Some (match maxOf (y :: l) with
                    | Some m => Z.max x m
                    | None => x
                    end)).
      by rewrite Hm. }
    split.
    + destruct (Z.max_spec x m) as [[_ ->]|[_ ->]];
        [by apply list_elem_of_further|apply list_elem_of_here].
    + intros z [->|Hz]%elem_of_cons; [lia|]. apply Hle in Hz. lia.
Qed.

Lemma length_pairs {A B} (l1 : list A) (l2 : list B) :
  length (x ← l1; y ← l2; [(x, y)]) = (length l1 * length l2)%nat.
Proof.
  induction l1 as [|x l1 IH]; [done|].
  rewrite bind_cons, length_app, IH. cbn [length Nat.mul]. f_equal.
  clear IH. induction l2 as [|y l2 IH]; [done|].
  rewrite bind_cons. cbn. by rewrite IH.
Qed.

Lemma elem_of_pairs {A B} (l1 : list A) (l2 : list B) x y :
  (x, y) ∈ (x ← l1; y ← l2; [(x, y)]) ↔ x ∈ l1 ∧ y ∈ l2.
Proof.
  rewrite list_elem_of_bind. split.
  - intros (x' & Hin & Hx). apply list_elem_of_bind in Hin as (y' & Hin & Hy).
    apply list_elem_of_singleton in Hin. by injection Hin as -> ->.
  - intros [Hx Hy]. exists x. split; [|done]. apply list_elem_of_bind.
    exists y. split; [|done]. by apply list_elem_of_singleton.
Qed.

Lemma NoDup_pairs {A B} (l1 : list A) (l2 : list B) :
  NoDup l1 → NoDup l2 → NoDup (x ← l1; y ← l2; [(x, y)]).
Proof.
  intros H1 H2. apply NoDup_bind; [| |done].
  - intros x1 x2 [x y] _ _ Hx1 Hx2.
    apply list_elem_of_bind in Hx1 as (? & Hx1 & _), Hx2 as (? & Hx2 & _).
    apply list_elem_of_singleton in Hx1, Hx2. congruence.
  - intros x _. apply NoDup_bind; [| |done].
    + intros y1 y2 ? _ _ Hy1 Hy2.
      apply list_elem_of_singleton in Hy1, Hy2. congruence.
    + intros y _. apply NoDup_singleton.
Qed.

Lemma inShape_true p r c : inShape p r c = true ↔ (r, c) ∈ cells p.
Proof.
  unfold inShape. rewrite existsb_exists. split.
  - intros ([r' c'] & Hin & Heq). apply list_elem_of_In in Hin.
    cbn in Heq. by replace r with r' by lia; replace c with c' by lia.
  - intros Hin. exists (r, c). split; [by apply list_elem_of_In|]. cbn. lia.
Qed.

Lemma length_filter_fmap {A B} (f : A → B) (P : B → Prop)
    `{∀ x, Decision (P x)} (l : list A) :
  length (filter P (f <$> l)) = length (filter (P ∘ f) l).
Proof.
  induction l as [|x l IH]; [done|].
  rewrite fmap_cons, !filter_cons. cbn [compose].
  destruct (decide (P (f x))); cbn; by rewrite IH.
Qed.

(** X16. [PieceMini] returns [null] for an empty slot. For a shape whose
    offsets are distinct and within [0, 8), as all shapes of the catalog
    are, it lays a grid of (largest row offset + 1) by (largest column
    offset + 1) boxes, whose keys are pairwise distinct, and of which
    exactly as many are filled as the shape has cells: each cell of the
    shape is drawn once, in the colour of the piece. *)
Theorem PieceMini_draws_shape p :
  shape_ok p →
  PieceMini None = None ∧
  ∃ m maxR maxC,
    PieceMini (Some p) = Some m ∧
    mini_rows m = Some (maxR + 1) ∧ mini_cols m = Some (maxC + 1) ∧
    (∃ d, d ∈ cells p ∧ d.1 = maxR) ∧ (∀ d, d ∈ cells p → d.1 ≤ maxR) ∧
    (∃ d, d ∈ cells p ∧ d.2 = maxC) ∧ (∀ d, d ∈ cells p → d.2 ≤ maxC) ∧
    Z.of_nat (length (mini_cells m)) = (maxR + 1) * (maxC + 1) ∧
    NoDup (mc_key <$> mini_cells m) ∧
    length (filter (λ x, mc_filled x = true) (mini_cells m))
    = length (cells p) ∧
    (∀ d, d ∈ cells p →
          mkMiniCell (d.1 * 10 + d.2) true (color p) ∈ mini_cells m) ∧
    (∀ x, x ∈ mini_cells m → mc_filled x = false →
          mc_background x = "transparent").
Proof.
  intros (Hne & Hrange & _ & _ & Hnd & _). split; [done|].
  pose proof (proj1 (Forall_forall _ _) Hrange) as Hin. unfold GRID_SIZE in Hin.
  destruct (maxOf_spec ((cells p).*1)) as (mR & HmR & HinR & HleR).
  { by destruct (cells p). }
  destruct (maxOf_spec ((cells p).*2)) as (mC & HmC & HinC & HleC).
  { by destruct (cells p). }
  apply list_elem_of_fmap in HinR as (dR & -> & HdR).
  apply list_elem_of_fmap in HinC as (dC & -> & HdC).
  assert (HR : ∀ d, d ∈ cells p → d.1 ≤ dR.1).
  { intros d Hd. by apply HleR, list_elem_of_fmap_2. }
  assert (HC : ∀ d, d ∈ cells p → d.2 ≤ dC.2).
  { intros d Hd. by apply HleC, list_elem_of_fmap_2. }
  pose proof (Hin dR HdR) as HdR'. pose proof (Hin dC HdC) as HdC'.
  assert (Hpos : ∀ r c, (r, c) ∈ miniPositions p
                        ↔ 0 ≤ r ≤ dR.1 ∧ 0 ≤ c ≤ dC.2).
  { intros r c. unfold miniPositions. rewrite HmR, HmC. unfold upTo.
    rewrite elem_of_pairs, !elem_of_seqZ. lia. }
  assert (HndP : NoDup (miniPositions p)).
  { unfold miniPositions. rewrite HmR, HmC.
    apply NoDup_pairs; apply NoDup_seqZ. }
  unfold PieceMini. eexists _, dR.1, dC.2. split; [reflexivity|].
  cbn [mini_rows mini_cols mini_cells]. rewrite HmR, HmC.
  split; [cbn; f_equal; lia|]. split; [cbn; f_equal; lia|].
  split; [by exists dR|]. split; [done|].
  split; [by exists dC|]. split; [done|].
  split.
  { rewrite length_fmap. unfold miniPositions. rewrite HmR, HmC.
    rewrite length_pairs. unfold upTo. rewrite !length_seqZ, Nat2Z.inj_mul.
    rewrite !Z2Nat.id by lia. done. }
  split.
  { rewrite <- list_fmap_compose. apply NoDup_fmap_2_strong; [|done].
    intros [r1 c1] [r2 c2] H1 H2 Heq. apply Hpos in H1, H2. cbn in Heq.
    f_equal; lia. }
  split.
  { rewrite length_filter_fmap. apply Permutation_length, NoDup_Permutation;
      [by apply NoDup_filter|done|].
    intros [r c]. rewrite list_elem_of_filter. cbn. rewrite inShape_true, Hpos.
    split; [tauto|]. intros Hd. split; [done|].
    pose proof (Hin _ Hd). pose proof (HR _ Hd). pose proof (HC _ Hd).
    cbn in *. lia. }
  split.
  { intros [r c] Hd. apply list_elem_of_fmap. exists (r, c). cbn.
    rewrite (proj2 (inShape_true p r c) Hd). split; [done|].
    apply Hpos. pose proof (Hin _ Hd). pose proof (HR _ Hd).
    pose proof (HC _ Hd). cbn in *. lia. }
  intros x Hx Hf. apply list_elem_of_fmap in Hx as ([r c] & -> & _).
  cbn in *. by rewrite Hf.
Qed.

(** ** The drawing of the board *)

Lemma preview_fold hr hc (v : string) (l : list (Z * Z)) (m0 : gmap Z string)
    k s :
  (∀ k s, m0 !! k = Some s → s = v) →
  foldl (λ (m : gmap Z string) (d : Z * Z),
           let r := hr + d.1 in
           let c := hc + d.2 in
           if (r >=? 0) && (r <? GRID_SIZE) && (c >=? 0) && (c <? GRID_SIZE)
           then <[r * GRID_SIZE + c := v]> m
           else m) m0 l !! k = Some s
  ↔ s = v ∧
    (is_Some (m0 !! k) ∨
     ∃ d, d ∈ l ∧ onBoard (hr + d.1) (hc + d.2)
          ∧ k = (hr + d.1) * 8 + (hc + d.2)).
Proof.
  revert m0. induction l as [|d l IH]; intros m0 Hm0.
  - cbn [foldl]. split.
    + intros Hk. split; [by eapply Hm0|]. left. by eexists.
    + intros [-> [[s' Hs']|(d & Hd & _)]].
      * by rewrite Hs', (Hm0 _ _ Hs').
      * by apply not_elem_of_nil in Hd.
  - cbn [foldl]. rewrite IH; clear IH.
    + unfold onBoard, GRID_SIZE. cbn zeta.
      destruct ((hr + d.1 >=? 0) && (hr + d.1 <? 8) && (hc + d.2 >=? 0)
                && (hc + d.2 <? 8)) eqn:Hon.
      * split; (intros [-> Hor]; split; [done|]).
        -- destruct Hor as [Hs|(d' & Hd' & Hk)].
           ++ destruct (decide (k = (hr + d.1) * 8 + (hc + d.2))) as [->|Hne].
              ** right. exists d. split; [apply list_elem_of_here|].
                 split; [lia|done].
              ** left. by rewrite lookup_insert_ne in Hs.
           ++ right. exists d'. split; [by apply list_elem_of_further|done].
        -- destruct Hor as [Hs|(d' & [->|Hd']%elem_of_cons & Hb & Hk)].
           ++ left. destruct (decide (k = (hr + d.1) * 8 + (hc + d.2)))
                as [->|Hne].
              ** rewrite lookup_insert_eq. by eexists.
              ** by rewrite lookup_insert_ne.
           ++ left. rewrite Hk, lookup_insert_eq. by eexists.
           ++ right. by exists d'.
      * split; (intros [-> Hor]; split; [done|]).
        -- destruct Hor as [Hs|(d' & Hd' & Hk)]; [by left|].
           right. exists d'. split; [by apply list_elem_of_further|done].
        -- destruct Hor as [Hs|(d' & [->|Hd']%elem_of_cons & Hb & Hk)];
             [by left|lia|]. right. by exists d'.
    + intros k' s'. cbn zeta. case_match; [|apply Hm0].
      destruct (decide (k' = (hr + d.1) * GRID_SIZE + (hc + d.2))) as [->|Hne].
      * rewrite lookup_insert_eq. congruence.
      * rewrite lookup_insert_ne by done. apply Hm0.
Qed.

Lemma previewMap_selected g i hr p :
  wf_grid (grid g) →
  selIdx g = Some i → hoverR g = Some hr →
  zlookup (pieces g) i = Some (Some p) →
  ∃ m, previewMap g = Ok m ∧
    ∀ k s, m !! k = Some s ↔
      s = (if legal (grid g) p hr (default 0 (hoverC g))
           then color p else "bad") ∧
      ∃ d, d ∈ cells p ∧ onBoard (hr + d.1) (default 0 (hoverC g) + d.2)
           ∧ k = (hr + d.1) * 8 + (default 0 (hoverC g) + d.2).
Proof.
  intros [Hlen _] Hsel Hhov Hslot. unfold previewMap.
  rewrite Hsel, Hhov, Hslot, canPlace_legal by done.
  cbn [mbind result_bind]. eexists. split; [reflexivity|].
  intros k s. rewrite preview_fold.
  - rewrite lookup_empty. split.
    + intros [-> [[? ?]|?]]; done.
    + intros [-> ?]. split; [done|by right].
  - intros k' s'. by rewrite lookup_empty.
Qed.

Lemma cellLook_cases g (m : gmap Z string) r c :
  wf_grid (grid g) → onBoard r c →
  cellLook g m r c
  = Ok (if bool_decide (r * 8 + c ∈ flashCells g) then LookFlash
        else match cellOf (grid g) r c with
             | Some col => LookFilled col
             | None =>
                 match m !! (r * 8 + c) with
                 | Some s =>
                     if bool_decide (s ≠ "") then
                       if bool_decide (s = "bad") then LookBad
                       else LookPreview s
                     else LookPlain
                 | None => LookPlain
                 end
             end).
Proof.
  intros Hwf [Hr Hc]. unfold cellLook.
  rewrite (cellAt_cellOf _ r c (proj1 Hwf) Hr). cbn [mbind result_bind].
  change (r * GRID_SIZE + c) with (r * 8 + c).
  case_bool_decide; [done|].
  destruct (cellOf (grid g) r c) as [col|] eqn:Hcell.
  - assert (Ht : truthy (cellOf (grid g) r c) = true).
    { apply truthy_is_Some; [done|]. rewrite Hcell. by eexists. }
    rewrite Hcell in Ht. by rewrite Ht.
  - cbn [truthy]. destruct (m !! _) as [s|]; [|done].
    by repeat case_bool_decide.
Qed.

Lemma catalog_colour_not_bad p : p ∈ PIECES → color p ≠ "bad".
Proof.
  assert (H : Forall (λ p, color p ≠ "bad") PIECES).
  { apply (bool_decide_unpack _). by vm_compute. }
  intros Hp. by eapply (proj1 (Forall_forall _ _) H).
Qed.

Section Render.

Variable rnd : nat → Z.
Hypothesis rnd_range : ∀ n, 0 ≤ rnd n < Z.of_nat (length PIECES).

(** X17. For an object of a reachable world the preview map is always built,
    no read fails. It is empty unless a slot is selected and a cell is
    hovered; then its keys are the keys [r*8+c] of the cells of the selected
    shape, anchored at the hovered cell, that fall on the board, and every
    value is the piece colour when the placement is legal and ['bad'] when it
    is not. *)
Theorem previewMap_shows_shape w a g :
  reachable rnd w → heap w !! a = Some g →
  ∃ m, previewMap g = Ok m ∧
    ∀ k s, m !! k = Some s ↔
      ∃ i hr p,
        selIdx g = Some i ∧ hoverR g = Some hr ∧
        zlookup (pieces g) i = Some (Some p) ∧
        s = (if legal (grid g) p hr (default 0 (hoverC g))
             then color p else "bad") ∧
        ∃ d, d ∈ cells p ∧ onBoard (hr + d.1) (default 0 (hoverC g) + d.2)
             ∧ k = (hr + d.1) * 8 + (default 0 (hoverC g) + d.2).
Proof.
  intros Hreach Ha.
  destruct (inv_games w (reachable_inv rnd rnd_range w Hreach) a g Ha)
    as [(Hwf & _ & _ & Hsel) _].
  destruct (selIdx g) as [i|] eqn:Hi; [destruct (hoverR g) as [hr|] eqn:Hh|].
  - destruct (Hsel i eq_refl) as (p & Hslot).
    destruct (previewMap_selected g i hr p Hwf Hi Hh Hslot) as (m & Hm & Hkeys).
    exists m. split; [done|]. intros k s. rewrite Hkeys. split.
    + intros [Hs Hd]. by exists i, hr, p.
    + intros (i' & hr' & p' & [= <-] & [= <-] & Hslot' & Hs & Hd).
      rewrite Hslot in Hslot'. injection Hslot' as <-. done.
  - exists ∅. split; [unfold previewMap; by rewrite Hi, Hh|].
    intros k s. rewrite lookup_empty. split; [done|].
    by intros (? & ? & ? & _ & ? & _).
  - exists ∅. split; [unfold previewMap; by rewrite Hi|].
    intros k s. rewrite lookup_empty. split; [done|].
    by intros (? & ? & ? & ? & _).
Qed.

(** X18. In a reachable world, while the selected shape can be placed at the
    hovered cell, the board shows the whole placement: a cell of the board is
    drawn as a preview exactly when it is a cell of the shape at that anchor,
    always in the colour of the piece, and no cell is drawn as bad. Nothing
    that flashes or is filled hides a part of it. *)
Theorem legal_preview_fully_drawn w a g i hr p :
  reachable rnd w → heap w !! a = Some g →
  selIdx g = Some i → hoverR g = Some hr →
  zlookup (pieces g) i = Some (Some p) →
  legal (grid g) p hr (default 0 (hoverC g)) = true →
  ∃ m, previewMap g = Ok m ∧
    ∀ r c, onBoard r c →
      ∃ look, cellLook g m r c = Ok look ∧ look ≠ LookBad ∧
        ∀ col, look = LookPreview col
               ↔ col = color p ∧ (r - hr, c - default 0 (hoverC g)) ∈ cells p.
Proof.
  intros Hreach Ha Hi Hh Hslot Hlegal.
  destruct (inv_games w (reachable_inv rnd rnd_range w Hreach) a g Ha)
    as [(Hwf & _ & Hcat & _) _].
  assert (Hp : p ∈ PIECES).
  { apply Hcat. apply zlookup_Some in Hslot as [_ Hslot].
    by eapply list_elem_of_lookup_2. }
  pose proof (catalog_colour_not_bad p Hp) as Hbad.
  destruct (catalog_shape_ok p Hp) as (_ & _ & _ & _ & _ & Hcol).
  destruct (previewMap_selected g i hr p Hwf Hi Hh Hslot) as (m & Hm & Hkeys).
  rewrite Hlegal in Hkeys. pose proof (proj1 (legal_true _ _ _ _ Hwf) Hlegal) as Hfree.
  exists m. split; [done|]. intros r c Hon. eexists. split;
    [by apply cellLook_cases|].
  set (hc := default 0 (hoverC g)) in *.
  assert (Hshape : (r - hr, c - hc) ∈ cells p → cellOf (grid g) r c = None).
  { intros Hd. destruct (Hfree _ Hd) as [_ Hnone]. cbn in Hnone.
    by replace (hr + (r - hr)) with r in Hnone by lia;
       replace (hc + (c - hc)) with c in Hnone by lia. }
  assert (Hlook : ∀ s, m !! (r * 8 + c) = Some s
                       ↔ s = color p ∧ (r - hr, c - hc) ∈ cells p).
  { intros s. rewrite Hkeys. split.
    - intros [-> ([dr dc] & Hd & Hb & Hk)]. split; [done|].
      unfold onBoard, GRID_SIZE in *. cbn in *.
      by replace (r - hr) with dr by lia; replace (c - hc) with dc by lia.
    - intros [-> Hd]. split; [done|]. exists (r - hr, c - hc). cbn.
      replace (hr + (r - hr)) with r by lia.
      by replace (hc + (c - hc)) with c by lia. }
  case_bool_decide as Hflash.
  { split; [done|]. intros col. split; [done|]. intros [_ Hd].
    apply Hshape in Hd.
    destruct (flash_key_filled rnd rnd_range w a g _ Hreach Ha Hflash)
      as (_ & r' & c' & Hon' & Hk & Hfilled & _).
    unfold onBoard, GRID_SIZE in *.
    replace r' with r in Hfilled by lia. replace c' with c in Hfilled by lia.
    rewrite Hd in Hfilled. by destruct Hfilled. }
  destruct (cellOf (grid g) r c) as [col'|] eqn:Hcell.
  { split; [done|]. intros col. split; [done|]. intros [_ Hd].
    by apply Hshape in Hd. }
  destruct (m !! (r * 8 + c)) as [s|].
  - destruct (proj1 (Hlook s) eq_refl) as [-> Hd].
    rewrite bool_decide_eq_true_2, bool_decide_eq_false_2 by done.
    split; [done|]. intros col. split; [by intros [= <-]|by intros [-> _]].
  - split; [done|]. intros col. split; [done|]. intros [_ Hd].
    by pose proof (proj2 (Hlook (color p)) (conj eq_refl Hd)).
Qed.

(** X19. In a reachable world, while the selected shape cannot be placed at
    the hovered cell, no cell of the board is drawn as a preview, and a cell
    is drawn as bad exactly when it is a cell of the shape at that anchor
    that is empty and does not flash. *)
Theorem illegal_preview_marked_bad w a g i hr p :
  reachable rnd w → heap w !! a = Some g →
  selIdx g = Some i → hoverR g = Some hr →
  zlookup (pieces g) i = Some (Some p) →
  legal (grid g) p hr (default 0 (hoverC g)) = false →
  ∃ m, previewMap g = Ok m ∧
    ∀ r c, onBoard r c →
      ∃ look, cellLook g m r c = Ok look ∧
        (∀ col, look ≠ LookPreview col) ∧
        (look = LookBad
         ↔ (r - hr, c - default 0 (hoverC g)) ∈ cells p ∧
           cellOf (grid g) r c = None ∧ r * 8 + c ∉ flashCells g).
Proof.
  intros Hreach Ha Hi Hh Hslot Hlegal.
  destruct (inv_games w (reachable_inv rnd rnd_range w Hreach) a g Ha)
    as [(Hwf & _) _].
  destruct (previewMap_selected g i hr p Hwf Hi Hh Hslot) as (m & Hm & Hkeys).
  rewrite Hlegal in Hkeys.
  exists m. split; [done|]. intros r c Hon. eexists. split;
    [by apply cellLook_cases|].
  set (hc := default 0 (hoverC g)) in *.
  assert (Hlook : ∀ s, m !! (r * 8 + c) = Some s
                       ↔ s = "bad" ∧ (r - hr, c - hc) ∈ cells p).
  { intros s. rewrite Hkeys. split.
    - intros [-> ([dr dc] & Hd & Hb & Hk)]. split; [done|].
      unfold onBoard, GRID_SIZE in *. cbn in *.
      by replace (r - hr) with dr by lia; replace (c - hc) with dc by lia.
    - intros [-> Hd]. split; [done|]. exists (r - hr, c - hc). cbn.
      replace (hr + (r - hr)) with r by lia.
      by replace (hc + (c - hc)) with c by lia. }
  case_bool_decide as Hflash.
  { split; [done|]. split; [done|]. by intros (_ & _ & ?). }
  destruct (cellOf (grid g) r c) as [col'|] eqn:Hcell.
  { split; [done|]. split; [done|]. by intros (_ & ? & _). }
  destruct (m !! (r * 8 + c)) as [s|].
  - destruct (proj1 (Hlook s) eq_refl) as [-> Hd].
    rewrite !bool_decide_eq_true_2 by done. done.
  - split; [done|]. split; [done|]. intros (Hd & _ & _).
    by pose proof (proj2 (Hlook "bad") (conj eq_refl Hd)).
Qed.

End Render.

(** ** Touch input *)

Section TouchInput.

Variable rnd : nat → Z.
Hypothesis rnd_range : ∀ n, 0 ≤ rnd n < Z.of_nat (length PIECES).

(** X20. In a reachable world the touch listeners do what mouse events do:
    a move over the cell (r, c) is [MouseEnter r c], and a touch that ends
    over (r, c) is [Drop r c] followed by [MouseLeave]; with no cell under
    the finger a move does nothing and an end is [MouseLeave]. So touch input
    never throws and leads to reachable worlds only. *)
Theorem touch_as_mouse_events pos w :
  reachable rnd w →
  touchMove pos w
  = run rnd match pos with Some (r, c) => [MouseEnter r c] | None => [] end w ∧
  touchEnd rnd pos w
  = run rnd match pos with
            | Some (r, c) => [Drop r c; MouseLeave]
            | None => [MouseLeave]
            end w ∧
  (∃ w', touchMove pos w = Ok w' ∧ reachable rnd w') ∧
  (∃ w', touchEnd rnd pos w = Ok w' ∧ reachable rnd w').
Proof.
  intros Hreach. pose proof (reachable_inv rnd rnd_range w Hreach) as Hinv.
  assert (Hruns : ∀ es, ∃ w', run rnd es w = Ok w' ∧ reachable rnd w').
  { intros es. revert w Hreach Hinv.
    induction es as [|e es IH]; intros w Hreach Hinv; [by exists w|].
    destruct (step_total rnd e w Hinv) as [w1 Hstep].
    destruct (IH w1) as (w' & Hrun & Hw'); [by eapply reach_step| |].
    { by eapply (inv_step rnd rnd_range). }
    exists w'. cbn [run]. rewrite Hstep. done. }
  assert (Hmove : touchMove pos w
    = run rnd match pos with Some (r, c) => [MouseEnter r c] | None => [] end
        w).
  { unfold touchMove. destruct pos as [[r c]|]; cbn [run step].
    - unfold mouseEnter. destruct (current w) as [a|]; [|done].
      destruct (getObj a w) as [g|]; [|done]. cbn [mbind result_bind].
      by destruct (selIdx g).
    - destruct (current w) as [a|] eqn:Hcur; [|done].
      pose proof (inv_current w Hinv a Hcur) as Hlt.
      destruct (lookup_lt_is_Some_2 _ _ Hlt) as [g Hg].
      rewrite (getObj_Some _ _ _ Hg). cbn [mbind result_bind].
      by destruct (selIdx g). }
  assert (Hend : touchEnd rnd pos w
    = run rnd match pos with
              | Some (r, c) => [Drop r c; MouseLeave]
              | None => [MouseLeave]
              end w).
  { unfold touchEnd. destruct (current w) as [a|] eqn:Hcur.
    - pose proof (inv_current w Hinv a Hcur) as Hlt.
      destruct (lookup_lt_is_Some_2 _ _ Hlt) as [g Hg].
      rewrite (getObj_Some _ _ _ Hg). cbn [mbind result_bind].
      destruct pos as [[r c]|]; cbn [run step mbind result_bind].
      + destruct (drop rnd r c w) as [w1|] eqn:Hdrop; [|done].
        cbn [mbind result_bind]. unfold mouseLeave.
        destruct (drop_fr rnd r c w w1 a Hdrop Hcur) as [[Hc1 _] _].
        rewrite Hc1, Hcur. by destruct (getObj a w1).
      + unfold mouseLeave. rewrite Hcur, (getObj_Some _ _ _ Hg). done.
    - destruct pos as [[r c]|]; cbn [run step mbind result_bind].
      + unfold drop. rewrite Hcur. cbn [mbind result_bind].
        unfold mouseLeave. by rewrite Hcur.
      + unfold mouseLeave. by rewrite Hcur. }
  split; [done|]. split; [done|]. rewrite Hmove, Hend. split; apply Hruns.
Qed.

End TouchInput.

(** * The sample games as instances of the further statements *)

Example sample_games_run_further :
  run bars [StartGame; SelectPiece 0; MouseEnter 0 0] (initWorld None)
  = Ok (hovering 0) ∧
  run bars [MouseEnter 0 6] (hovering 0) = Ok (hovering 6) ∧
  run squares blockingMoves (initWorld None) = Ok blockedWorld.
Proof. repeat split; vm_compute; reflexivity. Qed.

Lemma reachable_never_faults_witness :
  (∀ n, 0 ≤ bars n < Z.of_nat (length PIECES)) ∧
  reachable bars clearPending ∧
  ∃ w', step bars (TimerFire 0) clearPending = Ok w'.
Proof.
  assert (Hrange : ∀ n, 0 ≤ bars n < Z.of_nat (length PIECES)).
  { intros n. unfold bars. cbn. lia. }
  assert (Hreach : reachable bars clearPending).
  { apply (run_reachable bars
             [StartGame; SelectPiece 0; Drop 0 0; SelectPiece 1; Drop 0 4]
             (initWorld None)); [apply reach_init|].
    vm_compute. reflexivity. }
  exact (conj Hrange
           (conj Hreach
              (reachable_never_faults bars Hrange clearPending (TimerFire 0)
                 Hreach))).
Defined.

Lemma reachable_games_well_formed_witness :
  let w := secondSelected in
  (∀ n, 0 ≤ bars n < Z.of_nat (length PIECES)) ∧
  reachable bars w ∧
  (∀ a, current w = Some a → is_Some (heap w !! a)) ∧
  ∀ a g, heap w !! a = Some g →
    length (grid g) = 8%nat ∧
    (∀ row, row ∈ grid g → length row = 8%nat) ∧
    length (pieces g) = 3%nat ∧
    (∀ p, Some p ∈ pieces g → p ∈ PIECES) ∧
    (∀ i, selIdx g = Some i →
          0 ≤ i < 3 ∧ ∃ p, zlookup (pieces g) i = Some (Some p)).
Proof.
  intros w.
  assert (Hrange : ∀ n, 0 ≤ bars n < Z.of_nat (length PIECES)).
  { intros n. unfold bars. cbn. lia. }
  assert (Hreach : reachable bars w).
  { apply (run_reachable bars
             [StartGame; SelectPiece 0; Drop 0 0; SelectPiece 1]
             (initWorld None)); [apply reach_init|].
    vm_compute. reflexivity. }
  exact (conj Hrange
           (conj Hreach (reachable_games_well_formed bars Hrange w Hreach))).
Defined.

Lemma placing_iff_timer_pending_witness :
  let g := mkGame (demoGrid 8) 88 1 1 [None; None; Some bar4] None None None
             true (list_to_set (seqZ 0 8)) None "" 88 in
  let w := clearPending in
  (∀ n, 0 ≤ bars n < Z.of_nat (length PIECES)) ∧
  reachable bars w ∧ heap w !! 0%nat = Some g ∧
  (placing g = true ↔ ∃ t, t ∈ timers w ∧ t_game t = 0%nat).
Proof.
  intros g w.
  assert (Hrange : ∀ n, 0 ≤ bars n < Z.of_nat (length PIECES)).
  { intros n. unfold bars. cbn. lia. }
  assert (Hreach : reachable bars w).
  { apply (run_reachable bars
             [StartGame; SelectPiece 0; Drop 0 0; SelectPiece 1; Drop 0 4]
             (initWorld None)); [apply reach_init|].
    vm_compute. reflexivity. }
  exact (conj Hrange
           (conj Hreach
              (conj eq_refl
                 (placing_iff_timer_pending bars Hrange w 0 g Hreach
                    eq_refl)))).
Defined.

Lemma pending_clear_freezes_game_witness :
  let g := mkGame (demoGrid 8) 88 1 1 [None; None; Some bar4] None None None
             true (list_to_set (seqZ 0 8)) None "" 88 in
  let w := clearPending in
  let e := SelectPiece 2 in
  let w' := setObj 0 (set_selIdx (Some 2) g) w in
  (∀ n, 0 ≤ bars n < Z.of_nat (length PIECES)) ∧
  reachable bars w ∧ heap w !! 0%nat = Some g ∧ placing g = true ∧
  step bars e w = Ok w' ∧
  (∀ i t, e = TimerFire i → timers w !! i = Some t → t_game t ≠ 0%nat) ∧
  ∃ s hr hc, heap w' !! 0%nat = Some (set_hover hr hc (set_selIdx s g)).
Proof.
  intros g w e w'.
  assert (Hrange : ∀ n, 0 ≤ bars n < Z.of_nat (length PIECES)).
  { intros n. unfold bars. cbn. lia. }
  assert (Hreach : reachable bars w).
  { apply (run_reachable bars
             [StartGame; SelectPiece 0; Drop 0 0; SelectPiece 1; Drop 0 4]
             (initWorld None)); [apply reach_init|].
    vm_compute. reflexivity. }
  assert (Hstep : step bars e w = Ok w').
  { vm_compute. reflexivity. }
  assert (Hother : ∀ i t, e = TimerFire i → timers w !! i = Some t →
                          t_game t ≠ 0%nat).
  { intros i t He. discriminate He. }
  exact (conj Hrange
           (conj Hreach
              (conj eq_refl
                 (conj eq_refl
                    (conj Hstep
                       (conj Hother
                          (pending_clear_freezes_game bars Hrange w 0 g e w'
                             Hreach eq_refl eq_refl Hstep Hother))))))).
Defined.

Lemma game_over_is_terminal_witness :
  let g := blockedGame (Some (mkGameOverMsg 36 true)) in
  let w := blockedWorld in
  let e := SelectPiece 1 in
  let w' := setObj 0 (set_selIdx (Some 1) g) w in
  (∀ n, 0 ≤ squares n < Z.of_nat (length PIECES)) ∧
  reachable squares w ∧ heap w !! 0%nat = Some g ∧
  is_Some (gameOverMsg g) ∧ step squares e w = Ok w' ∧
  ∃ s hr hc, heap w' !! 0%nat = Some (set_hover hr hc (set_selIdx s g)).
Proof.
  intros g w e w'.
  assert (Hrange : ∀ n, 0 ≤ squares n < Z.of_nat (length PIECES)).
  { intros n. unfold squares. cbn. lia. }
  assert (Hreach : reachable squares w).
  { apply (run_reachable squares blockingMoves (initWorld None));
      [apply reach_init|].
    vm_compute. reflexivity. }
  assert (Hover : is_Some (gameOverMsg g)).
  { eexists. reflexivity. }
  assert (Hstep : step squares e w = Ok w').
  { vm_compute. reflexivity. }
  exact (conj Hrange
           (conj Hreach
              (conj eq_refl
                 (conj Hover
                    (conj Hstep
                       (game_over_is_terminal squares Hrange w 0 g e w'
                          Hreach eq_refl Hover Hstep)))))).
Defined.

Lemma drop_off_board_noop_witness :
  (∀ n, 0 ≤ bars n < Z.of_nat (length PIECES)) ∧
  reachable bars firstSelected ∧ ¬ onBoard 0 8 ∧
  drop bars 0 8 firstSelected = Ok firstSelected.
Proof.
  assert (Hrange : ∀ n, 0 ≤ bars n < Z.of_nat (length PIECES)).
  { intros n. unfold bars. cbn. lia. }
  assert (Hreach : reachable bars firstSelected).
  { apply (run_reachable bars [StartGame; SelectPiece 0] (initWorld None));
      [apply reach_init|].
    vm_compute. reflexivity. }
  assert (Hoff : ¬ onBoard 0 8).
  { unfold onBoard, GRID_SIZE. lia. }
  exact (conj Hrange
           (conj Hreach
              (conj Hoff
                 (drop_off_board_noop bars Hrange firstSelected 0 8 Hreach
                    Hoff)))).
Defined.

Lemma counters_never_decrease_witness :
  let g := demoGame 4 [None; Some bar4; Some bar4] (Some 1) false 4 4 in
  let w := secondSelected in
  let w' := clearPending in
  (∀ n, 0 ≤ bars n < Z.of_nat (length PIECES)) ∧
  reachable bars w ∧ heap w !! 0%nat = Some g ∧
  step bars (Drop 0 4) w = Ok w' ∧
  0 ≤ score g ∧ 0 ≤ linesCleared g ∧ 0 ≤ streak g ∧
  ∃ g', heap w' !! 0%nat = Some g' ∧
    score g ≤ score g' ∧ linesCleared g ≤ linesCleared g' ∧
    best g ≤ best g'.
Proof.
  intros g w w'.
  assert (Hrange : ∀ n, 0 ≤ bars n < Z.of_nat (length PIECES)).
  { intros n. unfold bars. cbn. lia. }
  assert (Hreach : reachable bars w).
  { apply (run_reachable bars
             [StartGame; SelectPiece 0; Drop 0 0; SelectPiece 1]
             (initWorld None)); [apply reach_init|].
    vm_compute. reflexivity. }
  assert (Hstep : step bars (Drop 0 4) w = Ok w').
  { vm_compute. reflexivity. }
  exact (conj Hrange
           (conj Hreach
              (conj eq_refl
                 (conj Hstep
                    (counters_never_decrease bars Hrange w 0 g (Drop 0 4) w'
                       Hreach eq_refl Hstep))))).
Defined.

Lemma store_tracks_best_witness :
  let w := secondSelected in
  let w' := clearPending in
  (∀ n, 0 ≤ bars n < Z.of_nat (length PIECES)) ∧
  reachable bars w ∧ step bars (Drop 0 4) w = Ok w' ∧
  (∀ a g, current w = Some a → heap w !! a = Some g →
          best g = default 0 (storage w)) ∧
  default 0 (storage w) ≤ default 0 (storage w').
Proof.
  intros w w'.
  assert (Hrange : ∀ n, 0 ≤ bars n < Z.of_nat (length PIECES)).
  { intros n. unfold bars. cbn. lia. }
  assert (Hreach : reachable bars w).
  { apply (run_reachable bars
             [StartGame; SelectPiece 0; Drop 0 0; SelectPiece 1]
             (initWorld None)); [apply reach_init|].
    vm_compute. reflexivity. }
  assert (Hstep : step bars (Drop 0 4) w = Ok w').
  { vm_compute. reflexivity. }
  exact (conj Hrange
           (conj Hreach
              (conj Hstep
                 (store_tracks_best bars Hrange w (Drop 0 4) w' Hreach
                    Hstep)))).
Defined.

Lemma flash_only_complete_lines_witness :
  let g := mkGame (demoGrid 8) 88 1 1 [None; None; Some bar4] None None None
             true (list_to_set (seqZ 0 8)) None "" 88 in
  let w := clearPending in
  (∀ n, 0 ≤ bars n < Z.of_nat (length PIECES)) ∧
  reachable bars w ∧ heap w !! 0%nat = Some g ∧
  (placing g = false → flashCells g = ∅ ∧ comboText g = "") ∧
  (∀ k, k ∈ flashCells g →
     placing g = true ∧
     ∃ r c, onBoard r c ∧ k = r * 8 + c ∧ is_Some (cellOf (grid g) r c) ∧
            (rowFilled (grid g) r ∨ colFilled (grid g) c)).
Proof.
  intros g w.
  assert (Hrange : ∀ n, 0 ≤ bars n < Z.of_nat (length PIECES)).
  { intros n. unfold bars. cbn. lia. }
  assert (Hreach : reachable bars w).
  { apply (run_reachable bars
             [StartGame; SelectPiece 0; Drop 0 0; SelectPiece 1; Drop 0 4]
             (initWorld None)); [apply reach_init|].
    vm_compute. reflexivity. }
  exact (conj Hrange
           (conj Hreach
              (conj eq_refl
                 (flash_only_complete_lines bars Hrange w 0 g Hreach
                    eq_refl)))).
Defined.

Lemma no_complete_line_at_rest_witness :
  let g := demoGame 4 [None; Some bar4; Some bar4] (Some 1) false 4 4 in
  let w := secondSelected in
  (∀ n, 0 ≤ bars n < Z.of_nat (length PIECES)) ∧
  reachable bars w ∧ heap w !! 0%nat = Some g ∧ placing g = false ∧
  (∀ r, 0 ≤ r < 8 → ∃ c, 0 ≤ c < 8 ∧ cellOf (grid g) r c = None) ∧
  (∀ c, 0 ≤ c < 8 → ∃ r, 0 ≤ r < 8 ∧ cellOf (grid g) r c = None).
Proof.
  intros g w.
  assert (Hrange : ∀ n, 0 ≤ bars n < Z.of_nat (length PIECES)).
  { intros n. unfold bars. cbn. lia. }
  assert (Hreach : reachable bars w).
  { apply (run_reachable bars
             [StartGame; SelectPiece 0; Drop 0 0; SelectPiece 1]
             (initWorld None)); [apply reach_init|].
    vm_compute. reflexivity. }
  exact (conj Hrange
           (conj Hreach
              (conj eq_refl
                 (conj eq_refl
                    (no_complete_line_at_rest bars Hrange w 0 g Hreach
                       eq_refl eq_refl))))).
Defined.

Lemma score_within_best_witness :
  let g := demoGame 4 [None; Some bar4; Some bar4] (Some 1) false 4 4 in
  let w := secondSelected in
  (∀ n, 0 ≤ bars n < Z.of_nat (length PIECES)) ∧
  reachable bars w ∧ heap w !! 0%nat = Some g ∧
  score g ≤ Z.max 0 (best g) ∧ (placing g = true → score g ≤ best g).
Proof.
  intros g w.
  assert (Hrange : ∀ n, 0 ≤ bars n < Z.of_nat (length PIECES)).
  { intros n. unfold bars. cbn. lia. }
  assert (Hreach : reachable bars w).
  { apply (run_reachable bars
             [StartGame; SelectPiece 0; Drop 0 0; SelectPiece 1]
             (initWorld None)); [apply reach_init|].
    vm_compute. reflexivity. }
  exact (conj Hrange
           (conj Hreach
              (conj eq_refl
                 (score_within_best bars Hrange w 0 g Hreach eq_refl)))).
Defined.

Lemma gameOver_message_content_witness :
  let g := blockedGame None in
  let w := setObj 0 g blockedWorld in
  heap w !! 0%nat = Some g ∧ wf_grid (grid g) ∧ gameOverMsg g = None ∧
  ∃ w' g',
    done squares 0 w = Ok w' ∧ heap w' !! 0%nat = Some g' ∧
    best g' = Z.max (best g) (score g) ∧
    ∀ m, gameOverMsg g' = Some m →
      movable (grid g') (pieces g') = false ∧
      finalScore m = score g' ∧
      (isNew m = true ↔ best g ≤ score g ∧ 0 < score g).
Proof.
  intros g w.
  assert (Hwf : wf_grid (grid g)).
  { apply (bool_decide_unpack _). vm_compute. exact I. }
  exact (conj eq_refl
           (conj Hwf
              (conj eq_refl
                 (gameOver_message_content squares 0 w g eq_refl Hwf
                    eq_refl)))).
Defined.

Lemma selectPiece_twice_witness :
  let g := demoGame 4 [None; Some bar4; Some bar4] (Some 1) false 4 4 in
  let w := secondSelected in
  current w = Some 0%nat ∧ heap w !! 0%nat = Some g ∧
  ((∀ p, zlookup (pieces g) 1 ≠ Some (Some p)) →
   selectPiece 1 w = Ok w) ∧
  (∀ p, zlookup (pieces g) 1 = Some (Some p) →
     ∃ s, selectPiece 1 w = Ok (setObj 0 (set_selIdx s g) w) ∧
          s = (if bool_decide (selIdx g = Some 1) then None else Some 1) ∧
          s ≠ selIdx g ∧
          selectPiece 1 w ≠ Ok w) ∧
  (selIdx g = None ∨ selIdx g = Some 1 →
   run bars [SelectPiece 1; SelectPiece 1] w = Ok w).
Proof.
  intros g w.
  exact (conj eq_refl
           (conj eq_refl (selectPiece_twice bars 1 w 0 g eq_refl eq_refl))).
Defined.

Lemma startGame_fresh_and_playable_witness :
  let w := clearPending in
  (∀ n, 0 ≤ bars n < Z.of_nat (length PIECES)) ∧
  ∃ g,
    current (startGame bars w) = Some (length (heap w)) ∧
    heap (startGame bars w) !! length (heap w) = Some g ∧
    (∀ r c, cellOf (grid g) r c = None) ∧
    score g = 0 ∧ linesCleared g = 0 ∧ streak g = 0 ∧
    placing g = false ∧ gameOverMsg g = None ∧ selIdx g = None ∧
    best g = default 0 (storage w) ∧
    length (pieces g) = 3%nat ∧
    (∀ slot, slot ∈ pieces g →
       ∃ p, slot = Some p ∧ p ∈ PIECES ∧
            canPlace p 0 0 (grid g) = Ok (true, grid g)) ∧
    (∀ a, (a < length (heap w))%nat →
          heap (startGame bars w) !! a = heap w !! a) ∧
    timers (startGame bars w) = timers w ∧
    storage (startGame bars w) = storage w.
Proof.
  intros w.
  assert (Hrange : ∀ n, 0 ≤ bars n < Z.of_nat (length PIECES)).
  { intros n. unfold bars. cbn. lia. }
  exact (conj Hrange (startGame_fresh_and_playable bars Hrange w)).
Defined.

Lemma PieceMini_draws_shape_witness :
  let p := bar4 in
  shape_ok p ∧
  PieceMini None = None ∧
  ∃ m maxR maxC,
    PieceMini (Some p) = Some m ∧
    mini_rows m = Some (maxR + 1) ∧ mini_cols m = Some (maxC + 1) ∧
    (∃ d, d ∈ cells p ∧ d.1 = maxR) ∧ (∀ d, d ∈ cells p → d.1 ≤ maxR) ∧
    (∃ d, d ∈ cells p ∧ d.2 = maxC) ∧ (∀ d, d ∈ cells p → d.2 ≤ maxC) ∧
    Z.of_nat (length (mini_cells m)) = (maxR + 1) * (maxC + 1) ∧
    NoDup (mc_key <$> mini_cells m) ∧
    length (filter (λ x, mc_filled x = true) (mini_cells m))
    = length (cells p) ∧
    (∀ d, d ∈ cells p →
          mkMiniCell (d.1 * 10 + d.2) true (color p) ∈ mini_cells m) ∧
    (∀ x, x ∈ mini_cells m → mc_filled x = false →
          mc_background x = "transparent").
Proof.
  intros p.
  assert (Hshape : shape_ok p).
  { apply (bool_decide_unpack _). vm_compute. exact I. }
  exact (conj Hshape (PieceMini_draws_shape p Hshape)).
Defined.

Lemma previewMap_shows_shape_witness :
  let g := mkGame (demoGrid 0) 0 0 0 [Some bar4; Some bar4; Some bar4]
             (Some 0) (Some 0) (Some 6) false ∅ None "" 0 in
  let w := hovering 6 in
  (∀ n, 0 ≤ bars n < Z.of_nat (length PIECES)) ∧
  reachable bars w ∧ heap w !! 0%nat = Some g ∧
  ∃ m, previewMap g = Ok m ∧
    ∀ k s, m !! k = Some s ↔
      ∃ i hr p,
        selIdx g = Some i ∧ hoverR g = Some hr ∧
        zlookup (pieces g) i = Some (Some p) ∧
        s = (if legal (grid g) p hr (default 0 (hoverC g))
             then color p else "bad") ∧
        ∃ d, d ∈ cells p ∧ onBoard (hr + d.1) (default 0 (hoverC g) + d.2)
             ∧ k = (hr + d.1) * 8 + (default 0 (hoverC g) + d.2).
Proof.
  intros g w.
  assert (Hrange : ∀ n, 0 ≤ bars n < Z.of_nat (length PIECES)).
  { intros n. unfold bars. cbn. lia. }
  assert (Hreach : reachable bars w).
  { apply (run_reachable bars
             [StartGame; SelectPiece 0; MouseEnter 0 0; MouseEnter 0 6]
             (initWorld None)); [apply reach_init|].
    vm_compute. reflexivity. }
  exact (conj Hrange
           (conj Hreach
              (conj eq_refl
                 (previewMap_shows_shape bars Hrange w 0 g Hreach eq_refl)))).
Defined.

Lemma legal_preview_fully_drawn_witness :
  let g := mkGame (demoGrid 0) 0 0 0 [Some bar4; Some bar4; Some bar4]
             (Some 0) (Some 0) (Some 0) false ∅ None "" 0 in
  let w := hovering 0 in
  (∀ n, 0 ≤ bars n < Z.of_nat (length PIECES)) ∧
  reachable bars w ∧ heap w !! 0%nat = Some g ∧
  selIdx g = Some 0 ∧ hoverR g = Some 0 ∧
  zlookup (pieces g) 0 = Some (Some bar4) ∧
  legal (grid g) bar4 0 (default 0 (hoverC g)) = true ∧
  ∃ m, previewMap g = Ok m ∧
    ∀ r c, onBoard r c →
      ∃ look, cellLook g m r c = Ok look ∧ look ≠ LookBad ∧
        ∀ col, look = LookPreview col
               ↔ col = color bar4
                 ∧ (r - 0, c - default 0 (hoverC g)) ∈ cells bar4.
Proof.
  intros g w.
  assert (Hrange : ∀ n, 0 ≤ bars n < Z.of_nat (length PIECES)).
  { intros n. unfold bars. cbn. lia. }
  assert (Hreach : reachable bars w).
  { apply (run_reachable bars [StartGame; SelectPiece 0; MouseEnter 0 0]
             (initWorld None)); [apply reach_init|].
    vm_compute. reflexivity. }
  assert (Hlegal : legal (grid g) bar4 0 (default 0 (hoverC g)) = true).
  { vm_compute. reflexivity. }
  exact (conj Hrange
           (conj Hreach
              (conj eq_refl
                 (conj eq_refl
                    (conj eq_refl
                       (conj eq_refl
                          (conj Hlegal
                             (legal_preview_fully_drawn bars Hrange w 0 g 0 0
                                bar4 Hreach eq_refl eq_refl eq_refl eq_refl
                                Hlegal)))))))).
Defined.

Lemma illegal_preview_marked_bad_witness :
  let g := mkGame (demoGrid 0) 0 0 0 [Some bar4; Some bar4; Some bar4]
             (Some 0) (Some 0) (Some 6) false ∅ None "" 0 in
  let w := hovering 6 in
  (∀ n, 0 ≤ bars n < Z.of_nat (length PIECES)) ∧
  reachable bars w ∧ heap w !! 0%nat = Some g ∧
  selIdx g = Some 0 ∧ hoverR g = Some 0 ∧
  zlookup (pieces g) 0 = Some (Some bar4) ∧
  legal (grid g) bar4 0 (default 0 (hoverC g)) = false ∧
  ∃ m, previewMap g = Ok m ∧
    ∀ r c, onBoard r c →
      ∃ look, cellLook g m r c = Ok look ∧
        (∀ col, look ≠ LookPreview col) ∧
        (look = LookBad
         ↔ (r - 0, c - default 0 (hoverC g)) ∈ cells bar4 ∧
           cellOf (grid g) r c = None ∧ r * 8 + c ∉ flashCells g).
Proof.
  intros g w.
  assert (Hrange : ∀ n, 0 ≤ bars n < Z.of_nat (length PIECES)).
  { intros n. unfold bars. cbn. lia. }
  assert (Hreach : reachable bars w).
  { apply (run_reachable bars
             [StartGame; SelectPiece 0; MouseEnter 0 0; MouseEnter 0 6]
             (initWorld None)); [apply reach_init|].
    vm_compute. reflexivity. }
  assert (Hlegal : legal (grid g) bar4 0 (default 0 (hoverC g)) = false).
  { vm_compute. reflexivity. }
  exact (conj Hrange
           (conj Hreach
              (conj eq_refl
                 (conj eq_refl
                    (conj eq_refl
                       (conj eq_refl
                          (conj Hlegal
                             (illegal_preview_marked_bad bars Hrange w 0 g 0 0
                                bar4 Hreach eq_refl eq_refl eq_refl eq_refl
                                Hlegal)))))))).
Defined.

Lemma touch_as_mouse_events_witness :
  let w := secondSelected in
  let pos := Some (0, 4) in
  (∀ n, 0 ≤ bars n < Z.of_nat (length PIECES)) ∧
  reachable bars w ∧
  touchMove pos w = run bars [MouseEnter 0 4] w ∧
  touchEnd bars pos w = run bars [Drop 0 4; MouseLeave] w ∧
  (∃ w', touchMove pos w = Ok w' ∧ reachable bars w') ∧
  (∃ w', touchEnd bars pos w = Ok w' ∧ reachable bars w').
Proof.
  intros w pos.
  assert (Hrange : ∀ n, 0 ≤ bars n < Z.of_nat (length PIECES)).
  { intros n. unfold bars. cbn. lia. }
  assert (Hreach : reachable bars w).
  { apply (run_reachable bars
             [StartGame; SelectPiece 0; Drop 0 0; SelectPiece 1]
             (initWorld None)); [apply reach_init|].
    vm_compute. reflexivity. }
  exact (conj Hrange
           (conj Hreach (touch_as_mouse_events bars Hrange pos w Hreach))).
Defined.

(** Were [startGame] called while the clear of row 0 is pending, the new
    game could place and complete a row of its own before the old callback
    fires: two clear callbacks would be pending, one for each object. *)
Example restart_during_clear_two_pending :
  (w ← run bars [StartGame; SelectPiece 0; Drop 0 0; SelectPiece 1; Drop 0 4]
         clearPending;
   Ok (t_game <$> timers w, placing <$> heap w))
  = Ok ([0%nat; 1%nat], [true; true]).
Proof. vm_compute. reflexivity. Qed.

Lemma run_reachableIdle rnd es w w' :
  reachableIdle rnd w →
  forallb (λ e, match e with StartGame => false | _ => true end) es = true →
  run rnd es w = Ok w' → reachableIdle rnd w'.
Proof.
  revert w. induction es as [|e es IH]; intros w Hw Hes; cbn [run].
  - by intros [= <-].
  - cbn [forallb] in Hes. apply andb_true_iff in Hes as [He Hes].
    destruct (step rnd e w) as [w1|] eqn:Hstep; [|done].
    cbn [mbind result_bind]. apply IH; [|done].
    eapply idle_step; [done| |done]. intros ->. done.
Qed.

Lemma placing_rejects_drop_witness :
  let w := clearPending in
  (∀ n, 0 ≤ bars n < Z.of_nat (length PIECES)) ∧
  reachable bars w ∧ reachableIdle bars w ∧
  (∃ g, current w = Some 0%nat ∧ heap w !! 0%nat = Some g ∧
        placing g = true) ∧
  (∀ a g, current w = Some a → heap w !! a = Some g → placing g = true →
     (∀ r c, drop bars r c w = Ok w) ∧
     (∀ idx,
        selectPiece idx w
        = Ok (setObj a
                (set_selIdx
                   match zlookup (pieces g) idx with
                   | Some (Some _) =>
                       if bool_decide (selIdx g = Some idx) then None
                       else Some idx
                   | _ => selIdx g
                   end g) w))) ∧
  NoDup (t_game <$> timers w) ∧
  (∀ a g, heap w !! a = Some g → is_Some (gameOverMsg g) →
          placing g = false) ∧
  (reachableIdle bars w →
     (length (timers w) ≤ 1)%nat ∧
     ∀ a g, heap w !! a = Some g → placing g = true → current w = Some a).
Proof.
  intros w.
  assert (Hrange : ∀ n, 0 ≤ bars n < Z.of_nat (length PIECES)).
  { intros n. unfold bars. cbn. lia. }
  assert (Hreach : reachable bars w).
  { apply (run_reachable bars
             [StartGame; SelectPiece 0; Drop 0 0; SelectPiece 1; Drop 0 4]
             (initWorld None)); [apply reach_init|].
    vm_compute. reflexivity. }
  assert (Hidle : reachableIdle bars w).
  { apply (run_reachableIdle bars
             [SelectPiece 0; Drop 0 0; SelectPiece 1; Drop 0 4]
             (startGame bars (initWorld None))).
    - apply (idle_step bars StartGame (initWorld None));
        [apply idle_init|intros _; exact I|reflexivity].
    - reflexivity.
    - vm_compute. reflexivity. }
  exact (conj Hrange
           (conj Hreach
              (conj Hidle
                 (conj (ex_intro _ _ (conj eq_refl (conj eq_refl eq_refl)))
                    (placing_rejects_drop bars Hrange w Hreach))))).
Defined.
